(** * ZipperMerge: the traffic decision and simulation engine

    A shallow embedding of [road.js], the [Car] class, the decision helpers
    and the part of [Simulation] that spawns cars, followed by the properties
    of the engine that the specification states.

    Conventions of the embedding.
    - JavaScript numbers that index the grid (lane, in-lane position, counters,
      millisecond timestamps) are [Z]; speeds, distances in feet and the
      normalized traits are exact rationals [Q] (the floating-point rounding of
      the source is idealised away); the fairness metric, which takes a square
      root, lives in [R].
    - Car objects are shared between the road's car list and the grid cells.
      They live in a store [heap : gmap nat Car]; a cell and the car list hold
      the car's key, so a mutation through one alias is seen through the other.
    - [new Date()] and [Math.random()] are inputs of the functions that call
      them: [now] is the clock reading of the tick, [u] the random draw. *)

From Stdlib Require Import ZArith QArith Qround Qminmax Reals Lia Lra Psatz.
From stdpp Require Import base option list gmap sorting.

Local Open Scope Z_scope.

(** ** Constants *)

(* road.js *)
Definition ROAD_WIDTH : Z := 50.
Definition BLOCK_START : Z := 40.
Definition CAR_TRAIL_LIFESPAN : Z := 10000.

(* Car *)
Definition FOLLOWING_DISTANCE_MID : Q := 3.
Definition FOLLOWING_DISTANCE_LOW : Q := 2 # 10.
Definition FOLLOWING_DISTANCE_HIGH : Q := 5.

Definition MERGE_DISTANCE_MID : Q := 25.
Definition MERGE_DISTANCE_LOW : Q := 50.
Definition MERGE_DISTANCE_HIGH : Q := 2.

Definition MERGE_GAP_MID : Q := 15 # 10.
Definition MERGE_GAP_LOW : Q := 8 # 10.
Definition MERGE_GAP_HIGH : Q := 3.

Definition MERGE_SPACE_MID : Q := 3.
Definition MERGE_SPACE_LOW : Q := 1.
Definition MERGE_SPACE_HIGH : Q := 5.

Definition MAX_SPEED : Q := 66.

(* decision helpers *)
Definition RUBBERNECK_SPEED_FACTOR : Q := 85 # 100.
Definition RUBBERNECK_ZONE_LENGTH : Z := 8.

(** ** JavaScript comparisons on rationals *)

Definition Qeqb (x y : Q) : bool := Qeq_bool x y.
Definition Qleb (x y : Q) : bool := Qle_bool x y.
Definition Qltb (x y : Q) : bool := negb (Qle_bool y x).

(** ** Data *)

Inductive State := Default | Merge | Yield | Right.

Definition State_eqb (a b : State) : bool :=
  match a, b with
  | Default, Default | Merge, Merge | Yield, Yield | Right, Right => true
  | _, _ => false
  end.

Inductive SpaceType := Cars | BlockageSpace | All | Empty.

(** A grid cell: [null], the number [0] of a blockage, or a car object. *)
Inductive Cell :=
  | Null
  | Block
  | Ref (id : nat).

Record Car := mkCar {
  mergeTendency : Q;
  cooperation : Q;
  aggressiveness : Q;
  laneNumber : Z;
  lanePosX : Z;
  state : State;
  speed : Q;
  carsLetIn : Z;
  followingDistance : Q;
  indicator : bool;
  lastMoved : option Z;       (* [None] is the initial [-1] *)
  distance : Q;
  startTime : option Z;       (* [None] is [null] *)
  startLane : Z
}.

(** {startLane, travelTime, expirationTime} *)
Record Completed := mkCompleted {
  c_startLane : Z;
  travelTime : Z;
  expirationTime : Z
}.

Record Road := mkRoad {
  roadSpace : list (list Cell);
  cars : list nat;
  blockedLanes : Z;
  trails : list Z;
  completedCars : list Completed;
  spaceSize : Q;
  heap : gmap nat Car          (* the car objects, by reference *)
}.

(** *** Field assignments *)

Definition setLanePos (laneN laneX : Z) (c : Car) : Car :=
  mkCar (mergeTendency c) (cooperation c) (aggressiveness c) laneN laneX
        (state c) (speed c) (carsLetIn c) (followingDistance c) (indicator c)
        (lastMoved c) (distance c) (startTime c) (startLane c).

Definition setState (s : State) (c : Car) : Car :=
  mkCar (mergeTendency c) (cooperation c) (aggressiveness c) (laneNumber c)
        (lanePosX c) s (speed c) (carsLetIn c) (followingDistance c)
        (indicator c) (lastMoved c) (distance c) (startTime c) (startLane c).

Definition setSpeed (v : Q) (c : Car) : Car :=
  mkCar (mergeTendency c) (cooperation c) (aggressiveness c) (laneNumber c)
        (lanePosX c) (state c) v (carsLetIn c) (followingDistance c)
        (indicator c) (lastMoved c) (distance c) (startTime c) (startLane c).

Definition setCarsLetIn (n : Z) (c : Car) : Car :=
  mkCar (mergeTendency c) (cooperation c) (aggressiveness c) (laneNumber c)
        (lanePosX c) (state c) (speed c) n (followingDistance c)
        (indicator c) (lastMoved c) (distance c) (startTime c) (startLane c).

Definition setIndicator (b : bool) (c : Car) : Car :=
  mkCar (mergeTendency c) (cooperation c) (aggressiveness c) (laneNumber c)
        (lanePosX c) (state c) (speed c) (carsLetIn c) (followingDistance c)
        b (lastMoved c) (distance c) (startTime c) (startLane c).

Definition setLastMoved (t : Z) (c : Car) : Car :=
  mkCar (mergeTendency c) (cooperation c) (aggressiveness c) (laneNumber c)
        (lanePosX c) (state c) (speed c) (carsLetIn c) (followingDistance c)
        (indicator c) (Some t) (distance c) (startTime c) (startLane c).

Definition setDistance (d : Q) (c : Car) : Car :=
  mkCar (mergeTendency c) (cooperation c) (aggressiveness c) (laneNumber c)
        (lanePosX c) (state c) (speed c) (carsLetIn c) (followingDistance c)
        (indicator c) (lastMoved c) d (startTime c) (startLane c).

Definition setStart (t lane : Z) (c : Car) : Car :=
  mkCar (mergeTendency c) (cooperation c) (aggressiveness c) (laneNumber c)
        (lanePosX c) (state c) (speed c) (carsLetIn c) (followingDistance c)
        (indicator c) (lastMoved c) (distance c) (Some t) lane.

Definition withRoadSpace (rs : list (list Cell)) (r : Road) : Road :=
  mkRoad rs (cars r) (blockedLanes r) (trails r) (completedCars r)
         (spaceSize r) (heap r).

Definition withCars (cs : list nat) (r : Road) : Road :=
  mkRoad (roadSpace r) cs (blockedLanes r) (trails r) (completedCars r)
         (spaceSize r) (heap r).

Definition withHeap (h : gmap nat Car) (r : Road) : Road :=
  mkRoad (roadSpace r) (cars r) (blockedLanes r) (trails r) (completedCars r)
         (spaceSize r) h.

Definition withTrails (ts : list Z) (r : Road) : Road :=
  mkRoad (roadSpace r) (cars r) (blockedLanes r) ts (completedCars r)
         (spaceSize r) (heap r).

Definition withCompleted (cc : list Completed) (r : Road) : Road :=
  mkRoad (roadSpace r) (cars r) (blockedLanes r) (trails r) cc
         (spaceSize r) (heap r).

(** Mutation of the car object [id] in place. *)
Definition updCar (id : nat) (f : Car -> Car) (r : Road) : Road :=
  withHeap (alter f id (heap r)) r.

(** ** Arrays

    [idx l i] is the read [l[i]]: [None] stands for [undefined], which is what
    a read outside the array gives.  Every write of the source is guarded to
    a column below [ROAD_WIDTH] and a lane below the lane count; a write at a
    negative index (which in JavaScript throws on a missing lane, or adds a
    stray property to the lane array) is not reached from a well-formed road
    and leaves the list as it is here. *)

Definition idx {A : Type} (l : list A) (i : Z) : option A :=
  if i <? 0 then None else l !! Z.to_nat i.

Definition setIdx {A : Type} (l : list A) (i : Z) (v : A) : list A :=
  if i <? 0 then l else <[Z.to_nat i := v]> l.

Definition len {A : Type} (l : list A) : Z := Z.of_nat (length l).

Definition cellAt (rs : list (list Cell)) (lane laneX : Z) : option Cell :=
  match idx rs lane with
  | Some l => idx l laneX
  | None => None
  end.

Definition setCell (rs : list (list Cell)) (lane laneX : Z) (v : Cell)
  : list (list Cell) :=
  match idx rs lane with
  | Some l => setIdx rs lane (setIdx l laneX v)
  | None => rs
  end.

(** [cell == null]: true of [null] and of [undefined]. *)
Definition isNullish (oc : option Cell) : bool :=
  match oc with
  | None | Some Null => true
  | _ => false
  end.

(** [cell !== null]. *)
Definition notNull (oc : option Cell) : bool :=
  match oc with
  | Some Null => false
  | _ => true
  end.

(** [cell === 0]. *)
Definition isBlock (oc : option Cell) : bool :=
  match oc with
  | Some Block => true
  | _ => false
  end.

(** The car object a cell holds, if it holds one ([cell instanceof Car]).
    A key the store does not bind has no counterpart in the source, where a
    reference always denotes a live object; such a cell counts as holding no
    car. *)
Definition carAt (r : Road) (oc : option Cell) : option (nat * Car) :=
  match oc with
  | Some (Ref id) =>
      match heap r !! id with
      | Some c => Some (id, c)
      | None => None
      end
  | _ => None
  end.

Definition isCar (r : Road) (oc : option Cell) : bool :=
  match carAt r oc with
  | Some _ => true
  | None => false
  end.

(** ** Car: trait transform and derived quantities *)

Definition getValueFromNormalized (input low mid high : Q) : Q :=
  if Qeqb input mid then mid
  else if Qltb input mid then
    let spread := (mid - low)%Q in
    let get := ((input / (1 # 2)) * spread)%Q in
    (low + get)%Q
  else
    let spread := (high - mid)%Q in
    let get := (((input - (1 # 2)) / (1 # 2)) * spread)%Q in
    (mid + get)%Q.

(** [new Car(mergeTendency, cooperation, aggressiveness, laneNumber)] *)
Definition newCar (mt coop agg : Q) (laneN : Z) : Car :=
  mkCar mt coop agg laneN 0 Default MAX_SPEED 0
        (getValueFromNormalized agg FOLLOWING_DISTANCE_LOW
                                FOLLOWING_DISTANCE_MID FOLLOWING_DISTANCE_HIGH)
        false None 0%Q None laneN.

Definition alertMerge (c : Car) : Car := setCarsLetIn (carsLetIn c + 1) c.

Definition getDesiredMergeGap (c : Car) : Q :=
  getValueFromNormalized (aggressiveness c) MERGE_GAP_LOW MERGE_GAP_MID
                         MERGE_GAP_HIGH.

(** [road] is [None] when the method is called without its road argument,
    which the source does in [getDesiredDistance]; the cell length then
    defaults to 15. *)
Definition getDesiredMergeSpace (c : Car) (road : option Road)
    (urgencyFactor : Q) : Q :=
  let gapSeconds := (getDesiredMergeGap c * urgencyFactor)%Q in
  let spaceSize := match road with Some r => spaceSize r | None => 15%Q end in
  let spacesNeeded := ((speed c * gapSeconds) / spaceSize)%Q in
  let minSpaces := getValueFromNormalized (aggressiveness c) MERGE_SPACE_LOW
                     MERGE_SPACE_MID MERGE_SPACE_HIGH in
  Qmax minSpaces (inject_Z (Qceiling spacesNeeded)).

Definition getDesiredMergingDistance (c : Car) : Q :=
  getValueFromNormalized (mergeTendency c) MERGE_DISTANCE_LOW
                         MERGE_DISTANCE_MID MERGE_DISTANCE_HIGH.

(** [Math.round] rounds halves upwards. *)
Definition Qround (x : Q) : Z := Qfloor (x + (1 # 2))%Q.

Definition getCarQuota (c : Car) (r : Road) : Z :=
  let perfectQuota := blockedLanes r - laneNumber c in
  Qround (cooperation c * inject_Z perfectQuota)%Q.

Definition adjustSpeedBy (amount : Q) (c : Car) : Car :=
  let effected := (speed c + amount)%Q in
  if Qleb MAX_SPEED effected then setSpeed MAX_SPEED c
  else if Qleb effected 0 then setSpeed 0%Q c
  else setSpeed effected c.

(** ** Decision helpers

    The helpers of the source test their arguments with [instanceof]; here a
    car argument is a [Car] value (or the key of one) and the road a [Road],
    so those tests are settled by the types.  A read of a property of
    [undefined], which makes the source throw when a car's lane number is
    outside the road, takes the neutral branch noted at each definition; the
    properties below are stated for cars that are on the road. *)

(** [getLaneData]: [None] is the error value [-1]. *)
Definition getLaneData (r : Road) (lane : Z) : option (list Cell) :=
  idx (roadSpace r) lane.

(** Does the cell stop a scan for [targetSpace]? *)
Definition scanHit (r : Road) (targetSpace : SpaceType) (cell : option Cell)
  : bool :=
  match targetSpace with
  | All => notNull cell
  | BlockageSpace => isBlock cell
  | Cars => isCar r cell
  | Empty => false
  end.

(** The [for] loop of [getDistance]; [n] is the number of iterations left. *)
Fixpoint getDistance_loop (n : nat) (r : Road) (laneData : list Cell)
    (targetSpace : SpaceType) (space distance : Z) : Z :=
  match n with
  | O => 100
  | S n' =>
      if scanHit r targetSpace (idx laneData space) then distance
      else getDistance_loop n' r laneData targetSpace (space + 1) (distance + 1)
  end.

Definition getDistance (r : Road) (lane laneX : Z) (targetSpace : SpaceType)
  : Z :=
  match getLaneData r lane with
  | None => -1
  | Some laneData =>
      let laneXSize := len laneData in
      if laneX + 1 >=? laneXSize then -2
      else getDistance_loop (Z.to_nat (laneXSize - (laneX + 1))) r laneData
                            targetSpace (laneX + 1) 0
  end.

(** The result of [getLeftOpenSpaces]: the object of the three counts, or
    the number [-1]. *)
Inductive Spaces :=
  | SpacesErr
  | SpacesObj (left_ahead left_beside left_behind : Z).

(** The [while] loop that counts the open cells behind. *)
Fixpoint behind_loop (n : nat) (leftLaneData : list Cell)
    (leftLaneCheckIndex behindSpaces : Z) : Z :=
  match n with
  | O => behindSpaces
  | S n' =>
      if isNullish (idx leftLaneData leftLaneCheckIndex)
         && (0 <? leftLaneCheckIndex)
      then behind_loop n' leftLaneData (leftLaneCheckIndex - 1)
                       (behindSpaces + 1)
      else behindSpaces
  end.

Definition getLeftOpenSpaces (r : Road) (lane laneX : Z) : Spaces :=
  match getLaneData r lane with
  | None => SpacesErr
  | Some laneData =>
      if lane <=? 0 then SpacesObj 0 0 0
      else
        match getLaneData r (lane - 1) with
        | None => SpacesErr      (* [(-1).length] is not the lane's size *)
        | Some leftLaneData =>
            let laneSize := len laneData in
            let leftLaneSize := len leftLaneData in
            if negb (leftLaneSize =? laneSize) then SpacesErr
            else if laneX >=? laneSize - 1 then SpacesObj 0 0 0
            else if isNullish (idx leftLaneData laneX) then
              let aheadSpaces := getDistance r (lane - 1) laneX All in
              let left_ahead := if aheadSpaces >=? 0 then aheadSpaces else 0 in
              let behindSpaces :=
                behind_loop (Z.to_nat laneX) leftLaneData laneX 0 in
              SpacesObj left_ahead 1 behindSpaces
            else SpacesObj 0 0 0
        end
  end.

Definition getMergeUrgency (c : Car) (r : Road) : Q :=
  let distanceToBlockage :=
    getDistance r (laneNumber c) (lanePosX c) BlockageSpace in
  if (distanceToBlockage <? 0) || (distanceToBlockage >=? 100) then 1%Q
  else if distanceToBlockage >=? 20 then 1%Q
  else if distanceToBlockage >=? 10 then
    ((7 # 10) + inject_Z (distanceToBlockage - 10) * (3 # 100))%Q
  else if distanceToBlockage >=? 5 then
    ((5 # 10) + inject_Z (distanceToBlockage - 5) * (4 # 100))%Q
  else
    Qmax (3 # 10)
         ((3 # 10) + inject_Z (distanceToBlockage - 2) * (67 # 1000))%Q.

(** The loop of [getLeft10AverageSpeed]. *)
Fixpoint left10_loop (n : nat) (r : Road) (leftLane : list Cell) (i : Z)
    (totalSpeed : Q) (carCount : Z) : Q * Z :=
  match n with
  | O => (totalSpeed, carCount)
  | S n' =>
      match carAt r (idx leftLane i) with
      | Some (_, space) =>
          left10_loop n' r leftLane (i + 1) (totalSpeed + speed space)%Q
                      (carCount + 1)
      | None => left10_loop n' r leftLane (i + 1) totalSpeed carCount
      end
  end.

(** [-1] when no car is found.  The source throws when the lane to the left
    is not a lane of the road; the model answers [-1] there. *)
Definition getLeft10AverageSpeed (c : Car) (r : Road) : Q :=
  let currentLane := laneNumber c in
  let currentLaneX := lanePosX c in
  if currentLane <=? 0 then (-1)%Q
  else
    match idx (roadSpace r) (currentLane - 1) with
    | None => (-1)%Q
    | Some leftLane =>
        let roadWidth := len leftLane in
        let checkStart := Z.max 0 (currentLaneX - 5) in
        let checkEnd := Z.min roadWidth (currentLaneX + 5) in
        let '(totalSpeed, carCount) :=
          left10_loop (Z.to_nat (checkEnd - checkStart)) r leftLane checkStart
                      0%Q 0 in
        if carCount =? 0 then (-1)%Q
        else (totalSpeed / inject_Z carCount)%Q
    end.

(** With [spaces] the number [-1], [spaces["left_behind"]] is [undefined];
    every comparison with it is false and the cell read at the resulting
    [NaN] column is [undefined], so the check answers [true]. *)
Definition checkUnderCarLeftQuota (c : Car) (r : Road) (spaces : Spaces)
  : bool :=
  match spaces with
  | SpacesErr => true
  | SpacesObj _ _ spacesBehind =>
      if spacesBehind <=? 0 then true
      else
        let totLanes := len (roadSpace r) in
        let carLane := laneNumber c in
        let carX := lanePosX c in
        if (carLane <=? 0) || (carLane >=? totLanes) then true
        else
          match idx (roadSpace r) (carLane - 1) with
          | None => true
          | Some leftLane =>
              let totLaneX := len leftLane in
              let laneNCheck := carLane - 1 in
              let laneXCheck := carX - spacesBehind in
              if (laneXCheck <? 0) || (laneNCheck >=? totLaneX) then true
              else
                match carAt r (idx leftLane laneXCheck) with
                | Some (_, target) =>
                    let quota := getCarQuota target r in
                    let numberCars := carsLetIn target in
                    if numberCars <? quota then true else false
                | None => true
                end
          end
  end.

(** The merge space the car asks for in [canMerge]: the urgency-scaled
    requirement, lowered to 2 in near-stopped traffic. *)
Definition desiredSpaces (c : Car) (r : Road) : Q :=
  let urgencyFactor := getMergeUrgency c r in
  let desiredSpaces := getDesiredMergeSpace c (Some r) urgencyFactor in
  let leftSpeed := getLeft10AverageSpeed c r in
  if Qleb 0 leftSpeed && Qleb leftSpeed 1 && Qltb 2 desiredSpaces
  then 2%Q else desiredSpaces.

(** The [try] block of [canMerge].  With [spaces] the number [-1] the sum of
    its three properties is [NaN], which compares false; nothing throws. *)
Definition spacesSuffice (spaces : Spaces) (desired : Q) : bool :=
  match spaces with
  | SpacesErr => false
  | SpacesObj left_ahead left_beside left_behind =>
      let totSpaces := left_ahead + left_behind + left_beside in
      if Qleb desired (inject_Z totSpaces) then true else false
  end.

(** [canMerge].  The quota check is evaluated, and the branch it guards is
    empty: its [return false] is commented out in the source, so both
    outcomes of the test continue with the space comparison. *)
Definition canMerge (c : Car) (r : Road) : bool :=
  let desired := desiredSpaces c r in
  let leftSpeed := getLeft10AverageSpeed c r in
  let spaces := getLeftOpenSpaces r (laneNumber c) (lanePosX c) in
  if negb (checkUnderCarLeftQuota c r spaces)
     && Qleb leftSpeed (MAX_SPEED / 2)%Q
  then spacesSuffice spaces desired
  else spacesSuffice spaces desired.

(** The loop of [shouldLetCarIn], columns [i .. roadXComp]. *)
Fixpoint letIn_loop (n : nat) (r : Road) (nextLaneOver : list Cell) (i : Z)
  : bool :=
  match n with
  | O => false
  | S n' =>
      match carAt r (idx nextLaneOver i) with
      | Some (_, space) =>
          if indicator space then true
          else letIn_loop n' r nextLaneOver (i + 1)
      | None => letIn_loop n' r nextLaneOver (i + 1)
      end
  end.

(** The source throws when [currentLane + 1] is negative; the model answers
    [false] there. *)
Definition shouldLetCarIn (c : Car) (r : Road) : bool :=
  if carsLetIn c >=? getCarQuota c r then false
  else
    let currentLane := laneNumber c in
    let currentLaneX := lanePosX c in
    let totLanes := len (roadSpace r) in
    if currentLane >=? totLanes - 1 then false
    else
      match idx (roadSpace r) (currentLane + 1) with
      | None => false
      | Some nextLaneOver =>
          let roadWidth := len nextLaneOver in
          if currentLaneX + 1 >=? roadWidth - 1 then false
          else
            let distanceAhead :=
              getDistance r (currentLane + 1) (currentLaneX + 1) All in
            let distanceAhead :=
              if distanceAhead <? 0 then roadWidth else distanceAhead in
            let roadXComp :=
              Z.min roadWidth (currentLaneX + 1 + distanceAhead) in
            letIn_loop (Z.to_nat (roadXComp - (currentLaneX + 1) + 1)) r
                       nextLaneOver (currentLaneX + 1)
      end.

Definition getDesiredDistance (c : Car) (r : Road) : Q :=
  if shouldLetCarIn c r
  then (getDesiredMergeSpace c None 1 * spaceSize r)%Q
  else (speed c * followingDistance c)%Q.

Definition getActualDistance (c : Car) (r : Road) : Z :=
  getDistance r (laneNumber c) (lanePosX c) All.

(** The loop of [alertRearDriver]: the first car behind is alerted. *)
Fixpoint alertRear_loop (n : nat) (lane : list Cell) (i : Z) (r : Road)
  : Road :=
  match n with
  | O => r
  | S n' =>
      match carAt r (idx lane i) with
      | Some (space, _) => updCar space alertMerge r
      | None => alertRear_loop n' lane (i - 1) r
      end
  end.

Definition alertRearDriver (c : Car) (r : Road) (newLane : Z) : Road :=
  let currentLaneX := lanePosX c in
  if (newLane <? 0) || (newLane >=? len (roadSpace r)) then r
  else if currentLaneX <=? 0 then r
  else
    match idx (roadSpace r) newLane with
    | None => r
    | Some lane =>
        alertRear_loop (Z.to_nat currentLaneX) lane (currentLaneX - 1) r
    end.

Definition isInRubberneckZone (c : Car) (r : Road) : bool :=
  let carLane := laneNumber c in
  let carX := lanePosX c in
  let numLanes := len (roadSpace r) in
  if carLane >=? numLanes - blockedLanes r then false
  else (carX >=? BLOCK_START)
       && (carX <? BLOCK_START + RUBBERNECK_ZONE_LENGTH).

(** The adjustment of [effectSpeed] before rubbernecking: the following
    distance error, blended with the speed of the left lane while merging. *)
Definition followDifference (c : Car) (r : Road) : Q :=
  let desiredDistance := getDesiredDistance c r in
  let actualDistanceSpaces := getActualDistance c r in
  let actualDistanceFeet := (inject_Z actualDistanceSpaces * spaceSize r)%Q in
  let difference := (actualDistanceFeet - desiredDistance)%Q in
  if State_eqb (state c) Merge then
    let leftLaneSpeed := getLeft10AverageSpeed c r in
    if Qleb 0 leftLaneSpeed then
      let speedDiff := (leftLaneSpeed - speed c)%Q in
      let speedMatchAdjustment := (speedDiff * (3 # 10))%Q in
      let urgency := getMergeUrgency c r in
      let speedMatchWeight := (1 - urgency)%Q in
      (difference * (1 - speedMatchWeight)
       + speedMatchAdjustment * speedMatchWeight * 10)%Q
    else difference
  else difference.

(** The term the rubbernecking block of [effectSpeed] adds. *)
Definition rubberneckTerm (c : Car) : Q :=
  let depthInZone :=
    (inject_Z (lanePosX c - BLOCK_START) / inject_Z RUBBERNECK_ZONE_LENGTH)%Q in
  let rubberneckIntensity := (1 - depthInZone)%Q in
  let targetSpeed :=
    (speed c * (RUBBERNECK_SPEED_FACTOR
                + (1 - RUBBERNECK_SPEED_FACTOR) * depthInZone))%Q in
  let rubberneckAdjustment := (targetSpeed - speed c)%Q in
  (rubberneckAdjustment * rubberneckIntensity)%Q.

(** The amount [effectSpeed] passes to [adjustSpeedBy]; [None] when it
    returns early on an error code of the distance scan. *)
Definition speedDifference (c : Car) (r : Road) : option Q :=
  if getActualDistance c r <? 0 then None
  else
    let difference := followDifference c r in
    if isInRubberneckZone c r
    then Some (difference + rubberneckTerm c)%Q
    else Some difference.

Definition effectSpeed (id : nat) (r : Road) : Road :=
  match heap r !! id with
  | None => r
  | Some c =>
      match speedDifference c r with
      | None => r
      | Some difference => updCar id (adjustSpeedBy difference) r
      end
  end.

Definition effectMergeState (id : nat) (r : Road) : Road :=
  match heap r !! id with
  | None => r
  | Some c =>
      let desiredMergingDistance := getDesiredMergingDistance c in
      let distanceToMerge :=
        getDistance r (laneNumber c) (lanePosX c) BlockageSpace in
      let difference := (inject_Z distanceToMerge - desiredMergingDistance)%Q in
      let currentState := state c in
      if Qleb difference 0 then
        if negb (State_eqb currentState Merge)
        then updCar id (setState Merge) r else r
      else
        if negb (State_eqb currentState Default)
        then updCar id (setState Default) r else r
  end.

(** ** Road *)

Definition withBlockedLanes (b : Z) (r : Road) : Road :=
  mkRoad (roadSpace r) (cars r) b (trails r) (completedCars r)
         (spaceSize r) (heap r).

(** The inner loop of [placeBlockage]: [lane[j] = 0] up to the lane's end. *)
Fixpoint fillBlock_loop (n : nat) (lane : list Cell) (j : Z) : list Cell :=
  match n with
  | O => lane
  | S n' => fillBlock_loop n' (setIdx lane j Block) (j + 1)
  end.

Fixpoint placeBlockage_loop (n : nat) (rs : list (list Cell))
    (numLanes i : Z) : list (list Cell) :=
  match n with
  | O => rs
  | S n' =>
      let rs' :=
        match idx rs (numLanes - 1 - i) with
        | Some lane =>
            if len lane >=? BLOCK_START then
              setIdx rs (numLanes - 1 - i)
                     (fillBlock_loop (Z.to_nat (len lane - BLOCK_START)) lane
                                     BLOCK_START)
            else rs
        | None => rs
        end in
      placeBlockage_loop n' rs' numLanes (i + 1)
  end.

Definition placeBlockage (lanesToBlock : Z) (r : Road) : Road :=
  if len (roadSpace r) <=? lanesToBlock then r
  else
    let numLanes := len (roadSpace r) in
    withBlockedLanes lanesToBlock
      (withRoadSpace
         (placeBlockage_loop (Z.to_nat lanesToBlock) (roadSpace r) numLanes 0)
         r).

(** [new Road(lanes, blockedLanes, spaceSize)].  On the early return the
    road keeps its empty field initialisers; its [spaceSize] stays
    [undefined], which nothing reads since no car can enter a road without
    lanes, and is [0] here. *)
Definition newRoad (lanes blocked : Z) (size : Q) : Road :=
  if (lanes <? 2) || (blocked >=? lanes) then mkRoad [] [] 0 [] [] 0%Q ∅
  else
    placeBlockage blocked
      (mkRoad (replicate (Z.to_nat lanes)
                         (replicate (Z.to_nat ROAD_WIDTH) Null))
              [] 0 [] [] size ∅).

Fixpoint openLanes_loop (n : nat) (rs : list (list Cell)) (i : Z)
    (openLanes : list Z) : list Z :=
  match n with
  | O => openLanes
  | S n' =>
      match idx rs i with
      | Some target =>
          if isNullish (idx target 0)
          then openLanes_loop n' rs (i + 1) (openLanes ++ [i])
          else openLanes_loop n' rs (i + 1) openLanes
      | None => openLanes_loop n' rs (i + 1) openLanes
      end
  end.

(** [u] is the value of [Math.random()].  [Some (-1)] when no lane is open;
    [None] is the [undefined] of a read outside [openLanes], which a draw in
    [0, 1) never produces. *)
Definition getRandomLane (u : Q) (r : Road) : option Z :=
  let laneCount := len (roadSpace r) in
  let openLanes := openLanes_loop (Z.to_nat laneCount) (roadSpace r) 0 [] in
  let openLanesN := len openLanes in
  if openLanesN <=? 0 then Some (-1)
  else idx openLanes (Qfloor (u * inject_Z openLanesN)%Q).

(** [addCar(car)], with [id] the car object. *)
Definition addCar (u : Q) (now : Z) (id : nat) (r : Road) : Road :=
  match heap r !! id with
  | None => r
  | Some _ =>
      match getRandomLane u r with
      | None => r
      | Some lane =>
          if lane <? 0 then r
          else
            match idx (roadSpace r) lane with
            | None => r
            | Some laneArray =>
                let r1 :=
                  withRoadSpace
                    (setIdx (roadSpace r) lane (setIdx laneArray 0 (Ref id)))
                    r in
                let r2 := withCars (cars r1 ++ [id]) r1 in
                let r3 := updCar id (setLanePos lane 0) r2 in
                updCar id (setStart now lane) r3
            end
      end
  end.

Definition getSpaceSize (r : Road) : Q := spaceSize r.

(** [setCarPos(car, lane, laneX)]: the returned number ([None] when the
    argument is not a car) and the road afterwards. *)
Definition setCarPos (id : nat) (lane laneX : Z) (r : Road)
  : option Z * Road :=
  match heap r !! id with
  | None => (None, r)
  | Some c =>
      let numberOfLanes := len (roadSpace r) in
      if (lane >=? numberOfLanes) || (laneX >=? ROAD_WIDTH) then (Some (-1), r)
      else
        let currentLane := laneNumber c in
        let currentLaneX := lanePosX c in
        if (currentLane >=? numberOfLanes) || (currentLaneX >=? ROAD_WIDTH)
        then (Some (-1), r)
        else
          let r1 :=
            if negb (currentLane =? lane)
            then updCar id alertMerge (alertRearDriver c r lane)
            else r in
          let r2 :=
            withRoadSpace
              (setCell (roadSpace r1) currentLane currentLaneX Null) r1 in
          let newSpace := cellAt (roadSpace r2) lane laneX in
          if negb (isNullish newSpace) then (Some (-1), r2)
          else
            let r3 :=
              withRoadSpace (setCell (roadSpace r2) lane laneX (Ref id)) r2 in
            (Some 0, updCar id (setLanePos lane laneX) r3)
  end.

(** [merge(car)].  The source throws when the lane to the left is not a lane
    of the road; the read gives [undefined] here. *)
Definition merge (id : nat) (r : Road) : Road :=
  match heap r !! id with
  | None => r
  | Some c =>
      let currentLane := laneNumber c in
      let currentLaneX := lanePosX c in
      if currentLane - 1 <? 0 then r
      else
        let mergeSpace := cellAt (roadSpace r) (currentLane - 1) currentLaneX in
        if isNullish mergeSpace
        then (setCarPos id (currentLane - 1) currentLaneX r).2
        else r
  end.

(** ** Car.drive *)

(** [drive] up to its last statement: the distance, speed, state, timestamp
    and indicator updates. *)
Definition driveUpdate (now : Z) (id : nat) (lastMoved : Z) (r : Road) : Road :=
  let elapsedMs := now - lastMoved in
  let r1 :=
    updCar id (fun c => setDistance
                 (distance c + speed c * (inject_Z elapsedMs / 1000))%Q c) r in
  let r2 := effectSpeed id r1 in
  let r3 := effectMergeState id r2 in
  let r4 := updCar id (setLastMoved now) r3 in
  updCar id (fun c => setIndicator (State_eqb (state c) Merge) c) r4.

Definition drive (now : Z) (id : nat) (r : Road) : Road :=
  match heap r !! id with
  | None => r
  | Some c =>
      match lastMoved c with
      | None => updCar id (setLastMoved now) r
      | Some lm =>
          let r5 := driveUpdate now id lm r in
          match heap r5 !! id with
          | None => r5
          | Some c5 =>
              if State_eqb (state c5) Merge && canMerge c5 r5
              then merge id r5 else r5
          end
      end
  end.

(** ** The stepper *)

(** [this.cars.indexOf(car)] *)
Fixpoint indexOf_from (l : list nat) (x : nat) (i : Z) : Z :=
  match l with
  | [] => -1
  | y :: l' => if Nat.eqb y x then i else indexOf_from l' x (i + 1)
  end.

Definition indexOf (l : list nat) (x : nat) : Z := indexOf_from l x 0.

(** [Array.prototype.sort] with a comparator: a stable sort. *)
Fixpoint insertSorted {A : Type} (cmp : A -> A -> Z) (x : A) (l : list A)
  : list A :=
  match l with
  | [] => [x]
  | y :: l' => if cmp x y <=? 0 then x :: l else y :: insertSorted cmp x l'
  end.

Definition sortBy {A : Type} (cmp : A -> A -> Z) (l : list A) : list A :=
  foldr (insertSorted cmp) [] l.

(** The comparator of [driveCars]: lane first, then position in the lane. *)
Definition carOrder (r : Road) (a b : nat) : Z :=
  match heap r !! a, heap r !! b with
  | Some ca, Some cb =>
      if negb (laneNumber ca =? laneNumber cb)
      then laneNumber ca - laneNumber cb
      else lanePosX ca - lanePosX cb
  | _, _ => 0
  end.

(** The cell the car wants: [floor(distance / spaceSize) - 1], at least 0. *)
Definition desiredLaneX (c : Car) (r : Road) : Z :=
  let desiredLaneX := Qfloor (distance c / getSpaceSize r)%Q - 1 in
  if desiredLaneX <? 0 then 0 else desiredLaneX.

(** The column [driveCar] commits to: the desired one, limited by the free
    cells ahead. *)
Definition safeLaneX (c : Car) (r : Road) : Z :=
  let availableSpace := getDistance r (laneNumber c) (lanePosX c) All in
  let availableSpace :=
    if availableSpace <? 0 then ROAD_WIDTH else availableSpace in
  let maxLaneX := lanePosX c + availableSpace in
  Z.min (desiredLaneX c r) maxLaneX.

Definition driveCar (now : Z) (id : nat) (st : Road * list Z)
  : Road * list Z :=
  let '(r, toRemove) := st in
  match heap r !! id with
  | None => st
  | Some _ =>
      let index := indexOf (cars r) id in
      let r1 := drive now id r in
      match heap r1 !! id with
      | None => (r1, toRemove)
      | Some c =>
          if negb (desiredLaneX c r1 =? lanePosX c) then
            if negb (safeLaneX c r1 =? lanePosX c) then
              let '(result, r2) :=
                setCarPos id (laneNumber c) (safeLaneX c r1) r1 in
              match result with
              | Some (-1) => (r2, toRemove ++ [index])
              | _ => (r2, toRemove)
              end
            else (r1, toRemove)
          else (r1, toRemove)
      end
  end.

(** [this.cars.splice(item, 1)]: a negative start counts from the end. *)
Definition splice1 (l : list nat) (item : Z) : list nat :=
  let start := if item <? 0 then Z.max (len l + item) 0 else item in
  delete (Z.to_nat start) l.

(** [startTime] as a condition: [null] and [0] are falsy. *)
Definition truthy (t : option Z) : bool :=
  match t with
  | Some t => negb (t =? 0)
  | None => false
  end.

(** One round of the removal loop of [driveCars]. *)
Definition removeCar (currentTime : Z) (r : Road) (item : Z) : Road :=
  let r1 :=
    match idx (cars r) item with
    | Some id =>
        match heap r !! id with
        | Some car =>
            let r' :=
              withRoadSpace
                (setCell (roadSpace r) (laneNumber car) (lanePosX car) Null)
                r in
            let r' :=
              withTrails (trails r' ++ [currentTime + CAR_TRAIL_LIFESPAN]) r' in
            match startTime car with
            | Some t =>
                if truthy (startTime car) then
                  withCompleted
                    (completedCars r'
                     ++ [mkCompleted (startLane car) (currentTime - t)
                                     (currentTime + CAR_TRAIL_LIFESPAN)]) r'
                else r'
            | None => r'
            end
        | None => r
        end
    | None => r
    end in
  withCars (splice1 (cars r1) item) r1.

(** The first loop of [driveCars]: every car of the sorted snapshot drives;
    the result is the road and the indices marked for removal. *)
Definition driveAll (now : Z) (r : Road) : Road * list Z :=
  let sortedCars := sortBy (carOrder r) (cars r) in
  foldl (fun st car => driveCar now car st) (r, []) sortedCars.

Definition driveCars (now : Z) (r : Road) : Road :=
  let '(r1, toRemove) := driveAll now r in
  let currentTime := now in
  foldl (removeCar currentTime) r1 (sortBy (fun a b => b - a) toRemove).

Definition purgeTrails (now : Z) (r : Road) : Road :=
  let currentTime := now in
  withCompleted
    (filter (fun car => currentTime < expirationTime car) (completedCars r))
    (withTrails (filter (fun t => currentTime < t) (trails r)) r).

Definition getCarsPerSecond (r : Road) : Q :=
  let totCars := len (trails r) in
  let seconds := (inject_Z CAR_TRAIL_LIFESPAN / 1000)%Q in
  (inject_Z totCars / seconds)%Q.

(** ** Simulation.generateRandomCar

    [mt], [coop] and [agg] are the three bounded normal samples, [u1] and
    [u2] the draws of the two [getRandomLane] calls, and [id] the reference
    of the car object that [new Car] allocates. *)
Definition generateRandomCar (mt coop agg u1 u2 : Q) (now : Z) (id : nat)
    (r : Road) : Road :=
  match getRandomLane u1 r with
  | Some laneNumber =>
      if laneNumber >=? 0
      then addCar u2 now id
             (withHeap (<[id := newCar mt coop agg laneNumber]> (heap r)) r)
      else r
  | None => r
  end.

(** ** Metrics *)

(** [times.reduce((sum, t) => sum + t, 0)] *)
Definition sumR (l : list R) : R := foldl Rplus 0%R l.

Definition getFairness (r : Road) : R :=
  if (length (completedCars r) <? 2)%nat then 1%R
  else
    let times := map (fun car => IZR (travelTime car)) (completedCars r) in
    let mean := (sumR times / INR (length times))%R in
    if Req_EM_T mean 0 then 1%R
    else
      let squaredDiffs := map (fun t => ((t - mean) ^ 2)%R) times in
      let variance := (sumR squaredDiffs / INR (length times))%R in
      let stdDev := sqrt variance in
      let cv := (stdDev / mean)%R in
      (1 / (1 + cv))%R.

(** ** Notions of the specification *)

(** Every lane is an array of [ROAD_WIDTH] cells, as the constructor builds
    them. *)
Definition RoadShape (r : Road) : Prop :=
  Forall (fun l => len l = ROAD_WIDTH) (roadSpace r).

(** The car is on the road: its recorded lane and column are cells of the
    grid. *)
Definition OnRoad (c : Car) (r : Road) : Prop :=
  0 <= laneNumber c < len (roadSpace r) /\ 0 <= lanePosX c < ROAD_WIDTH.

(** Length of the run of empty cells a list of cells starts with. *)
Fixpoint emptyRun (cells : list Cell) : Z :=
  match cells with
  | Null :: cs => 1 + emptyRun cs
  | _ => 0
  end.

(** The cells of a lane strictly ahead of column [x], nearest first. *)
Definition cellsAhead (l : list Cell) (x : Z) : list Cell :=
  drop (Z.to_nat (x + 1)) l.

(** The cells of a lane strictly behind column [x], nearest first. *)
Definition cellsBehind (l : list Cell) (x : Z) : list Cell :=
  rev (take (Z.to_nat x) l).

(** The survey of the left lane as the specification words it: the empty run
    strictly ahead of the beside cell, the beside indicator, the empty run
    strictly behind; all zero when the beside cell is not empty. *)
Definition surveyAsWorded (left : list Cell) (x : Z) : Z * Z * Z :=
  if isNullish (idx left x)
  then (emptyRun (cellsAhead left x), 1, emptyRun (cellsBehind left x))
  else (0, 0, 0).

(** The survey as [getLeftOpenSpaces] takes it.  Ahead: the empty run up to
    the first obstacle, or the far value 100 of the scan when the lane is
    clear to its end.  Behind: the empty run that starts at the beside cell
    itself and goes backwards, column 0 never counted.  A car in the last
    column, like one beside an occupied cell, gets all zero. *)
Definition surveyAsCoded (left : list Cell) (x : Z) : Z * Z * Z :=
  if (x <? len left - 1) && isNullish (idx left x) then
    let ahead := emptyRun (cellsAhead left x) in
    (if ahead =? len (cellsAhead left x) then 100 else ahead,
     1,
     emptyRun (rev (drop 1 (take (Z.to_nat (x + 1)) left))))
  else (0, 0, 0).

(** The nearest car behind column [x] in lane [lane]. *)
Definition nearestCarBehind (r : Road) (lane x : Z) : option nat :=
  match idx (roadSpace r) lane with
  | Some l =>
      head (omap (fun cell => fst <$> carAt r (Some cell)) (cellsBehind l x))
  | None => None
  end.

(** The free space ahead of a car: the run of empty cells in its lane that
    starts right after its column. *)
Definition freeAhead (c : Car) (r : Road) : Z :=
  match getLaneData r (laneNumber c) with
  | Some l => emptyRun (cellsAhead l (lanePosX c))
  | None => 0
  end.

(** The car leaves the grid this tick: its desired cell is past the last
    column and nothing is in its way. *)
Definition exitsGrid (c : Car) (r : Road) : bool :=
  (ROAD_WIDTH <=? desiredLaneX c r)
  && (lanePosX c + freeAhead c r =? ROAD_WIDTH - 1).

(** Two car objects that differ at most in the cars-let-in counter and in
    the cooperation trait, the two inputs of the quota. *)
Definition sameButQuota (c1 c2 : Car) : Prop :=
  mergeTendency c1 = mergeTendency c2 /\
  aggressiveness c1 = aggressiveness c2 /\
  laneNumber c1 = laneNumber c2 /\
  lanePosX c1 = lanePosX c2 /\
  state c1 = state c2 /\
  speed c1 = speed c2 /\
  followingDistance c1 = followingDistance c2 /\
  indicator c1 = indicator c2 /\
  lastMoved c1 = lastMoved c2 /\
  distance c1 = distance c2 /\
  startTime c1 = startTime c2 /\
  startLane c1 = startLane c2.

(** Two roads with the same grid and cell length whose car objects differ at
    most in the inputs of the quota; the blocked-lane count, which the quota
    also reads, is free. *)
Definition sameButQuotaRoad (r1 r2 : Road) : Prop :=
  roadSpace r1 = roadSpace r2 /\
  spaceSize r1 = spaceSize r2 /\
  forall k, option_Forall2 sameButQuota (heap r1 !! k) (heap r2 !! k).

(** The car object with its cars-let-in counter and cooperation replaced. *)
Definition setQuotaInputs (n : Z) (coop : Q) (c : Car) : Car :=
  mkCar (mergeTendency c) coop (aggressiveness c) (laneNumber c) (lanePosX c)
        (state c) (speed c) n (followingDistance c) (indicator c)
        (lastMoved c) (distance c) (startTime c) (startLane c).

(** Mean and population standard deviation of a sample. *)
Definition meanOf (ts : list R) : R :=
  (fold_right Rplus 0 ts / INR (length ts))%R.

Definition popStdDev (ts : list R) : R :=
  sqrt (fold_right Rplus 0 (map (fun t => (t - meanOf ts) * (t - meanOf ts)) ts)
        / INR (length ts))%R.

Definition travelTimes (r : Road) : list R :=
  map (fun car => IZR (travelTime car)) (completedCars r).

(** ** The grid invariant *)


(** What the stepper keeps true of a road at clock reading [t]: the shape of
    the grid, the two directions of the correspondence between listed cars
    and cells, and for every listed car a non-negative speed, a column that
    does not run ahead of its travelled distance, and a last move that is
    not in the future. *)
Record WellFormed (t : Z) (r : Road) : Prop := mkWellFormed {
  wf_shape : RoadShape r;
  wf_nodup : NoDup (cars r);
  wf_car : forall id, id ∈ cars r ->
     exists c, heap r !! id = Some c /\
       cellAt (roadSpace r) (laneNumber c) (lanePosX c) = Some (Ref id);
  wf_cell : forall lane x id,
     cellAt (roadSpace r) lane x = Some (Ref id) ->
     id ∈ cars r /\
     exists c, heap r !! id = Some c /\ laneNumber c = lane /\ lanePosX c = x;
  wf_size : roadSpace r <> [] -> (0 < spaceSize r)%Q;
  wf_progress : forall id c, id ∈ cars r -> heap r !! id = Some c ->
     (0 <= speed c)%Q /\
     lanePosX c <= desiredLaneX c r /\
     (forall lm, lastMoved c = Some lm -> lm <= t)
}.

(** The fields of a car object that [WellFormed] reads. *)
Definition sameCore (c c' : Car) : Prop :=
  laneNumber c' = laneNumber c /\ lanePosX c' = lanePosX c /\
  speed c' = speed c /\ distance c' = distance c /\
  lastMoved c' = lastMoved c.

(** Two roads that differ at most in fields of car objects that
    [WellFormed] does not read. *)
Definition sameCoreRoad (r r' : Road) : Prop :=
  roadSpace r' = roadSpace r /\ cars r' = cars r /\
  spaceSize r' = spaceSize r /\
  forall k, option_Forall2 sameCore (heap r !! k) (heap r' !! k).

(** The roads the engine can be in at clock reading [t]: a road as
    constructed with a positive cell length, and from there any sequence of
    spawns (of a fresh car object), ticks, merges of a car of the list and
    purges, the clock never running backwards. *)
Inductive Reachable : Z -> Road -> Prop :=
  | reach_new lanes blocked size t :
      (0 < size)%Q -> Reachable t (newRoad lanes blocked size)
  | reach_spawn t t' r mt coop agg u1 u2 id :
      Reachable t r -> t <= t' -> heap r !! id = None ->
      Reachable t' (generateRandomCar mt coop agg u1 u2 t' id r)
  | reach_tick t t' r :
      Reachable t r -> t <= t' -> Reachable t' (driveCars t' r)
  | reach_merge t r id :
      Reachable t r -> id ∈ cars r -> Reachable t (merge id r)
  | reach_purge t t' r :
      Reachable t r -> t <= t' -> Reachable t' (purgeTrails t' r).

(** The cars that come before [id] in a list. *)
Fixpoint before (id : nat) (l : list nat) : list nat :=
  match l with
  | [] => []
  | x :: l' => if Nat.eqb x id then [] else x :: before id l'
  end.

(** The road and the marked indices when the turn of car [id] comes in the
    driving loop of a tick: the cars sorted before it have driven. *)
Definition turnState (t : Z) (r : Road) (id : nat) : Road * list Z :=
  foldl (fun st car => driveCar t car st) (r, [])
        (before id (sortBy (carOrder r) (cars r))).

(** ** Clock readings on record *)

(** The entry time of a car object, when the store binds it. *)
Definition startOf (r : Road) (id : nat) : option (option Z) :=
  startTime <$> heap r !! id.

(** No car object entered after clock reading [t], and every completion
    record has a non-negative travel time. *)
Definition TimesOk (t : Z) (r : Road) : Prop :=
  (forall id s, startOf r id = Some (Some s) -> s <= t) /\
  Forall (fun rec => 0 <= travelTime rec) (completedCars r).

(** ** What a car object keeps

    The relation between a car object and the same object later: the traits
    and what the constructor derives from them, and the entry record, are
    the same; the cars-let-in counter has not gone down; the speed is the
    same or has been set to a value within the speed range. *)
Definition carKept (c c' : Car) : Prop :=
  mergeTendency c' = mergeTendency c /\
  cooperation c' = cooperation c /\
  aggressiveness c' = aggressiveness c /\
  followingDistance c' = followingDistance c /\
  startTime c' = startTime c /\
  startLane c' = startLane c /\
  carsLetIn c <= carsLetIn c' /\
  (speed c' = speed c \/ (0 <= speed c' <= MAX_SPEED)%Q).

(** The store binds the same keys, to objects that have kept all that. *)
Definition roadKept (r r' : Road) : Prop :=
  forall k, option_Forall2 carKept (heap r !! k) (heap r' !! k).

(** ** Progress within a tick *)

(** The car has kept its lane or gone one lane to the left, has not gone
    backwards in its lane, and has not lost travelled distance. *)
Definition carMoved (c c' : Car) : Prop :=
  laneNumber c - 1 <= laneNumber c' <= laneNumber c /\
  lanePosX c <= lanePosX c' /\
  (distance c <= distance c')%Q.

(** Every car object but [id] is where it was, as fast as it was and as far
    as it was. *)
Definition sameCoreBut (id : nat) (r r' : Road) : Prop :=
  forall k, k <> id -> option_Forall2 sameCore (heap r !! k) (heap r' !! k).

(** ** The books of the road

    What only the removal loop, the purge and the constructor write: the
    car list, the trail and completion records, and the configuration (lane
    count, blocked lanes, cell length). *)
Definition sameBooks (r r' : Road) : Prop :=
  cars r' = cars r /\ trails r' = trails r /\
  completedCars r' = completedCars r /\
  blockedLanes r' = blockedLanes r /\ spaceSize r' = spaceSize r /\
  len (roadSpace r') = len (roadSpace r).

(** [Simulation.reset], the road it installs: a new road of the current
    configuration. *)
Definition resetRoad (r : Road) : Road :=
  let lanes := len (roadSpace r) in
  let blockedLanes := blockedLanes r in
  let spaceSize := spaceSize r in
  newRoad lanes blockedLanes spaceSize.

(** ** Trait samples

    [randomBoundedNormal(center, sd)], with [value] the sample that
    [getRandomValue(center, sd)] returns. *)
Definition randomBoundedNormal (value : Q) : Q := Qmax 0 (Qmin 1 value).

(** ** The blockage

    Two roads whose grids hold the blockage in the same cells. *)
Definition sameBlocks (r r' : Road) : Prop :=
  forall lane x,
    cellAt (roadSpace r') lane x = Some Block
    <-> cellAt (roadSpace r) lane x = Some Block.

(** ** Concrete roads *)

Definition emptyLane : list Cell := replicate (Z.to_nat ROAD_WIDTH) Null.

Definition blockedLane : list Cell :=
  replicate (Z.to_nat BLOCK_START) Null
  ++ replicate (Z.to_nat (ROAD_WIDTH - BLOCK_START)) Block.

(** A car object with mid-range traits, recorded at [(lane, x)]. *)
Definition carAtPos (lane x : Z) : Car :=
  setLanePos lane x (newCar (9 # 10) 1 (1 # 2) lane).

(** A car at full speed at column [x] of lane 0. *)
Definition carInZone (x : Z) : Car := carAtPos 0 x.

(** A car that asks for five cells: aggressiveness 1, standing still. *)
Definition carWantsFive (lane x : Z) : Car :=
  setSpeed 0%Q (setLanePos lane x (newCar (9 # 10) 1 1 lane)).

(** Two lanes, the right one blocked; car 0 at column 3 and car 1 at
    column 5 of lane 0. *)
Definition roadTwoInLane : Road :=
  mkRoad [ <[5%nat := Ref 1]> (<[3%nat := Ref 0]> emptyLane); blockedLane ]
         [0%nat; 1%nat] 1 [] [] 15%Q
         (<[1%nat := carAtPos 0 5]> (<[0%nat := carAtPos 0 3]> ∅)).

(** Two lanes, the right one blocked.  Car 0 is in lane 1 at column 5;
    beside it in lane 0 is car 1, and car 2 follows at column 2. *)
Definition roadBesideTaken : Road :=
  mkRoad [ <[5%nat := Ref 1]> (<[2%nat := Ref 2]> emptyLane);
           <[5%nat := Ref 0]> blockedLane ]
         [0%nat; 1%nat; 2%nat] 1 [] [] 15%Q
         (<[2%nat := carAtPos 0 2]>
            (<[1%nat := carAtPos 0 5]> (<[0%nat := carAtPos 1 5]> ∅))).

(** Three lanes, the rightmost blocked; car 0 passes the blockage in lane 0
    at column 44. *)
Definition roadInZone : Road :=
  mkRoad [<[44%nat := Ref 0]> emptyLane; emptyLane; blockedLane]
         [0%nat] 1 [] [] 15%Q (<[0%nat := carAtPos 0 44]> ∅).

(** A road that three cars have completed, in 4, 6 and 8 seconds. *)
Definition roadThreeCompleted : Road :=
  mkRoad [emptyLane; blockedLane] [] 1 []
         [mkCompleted 0 4000 20000; mkCompleted 1 6000 21000;
          mkCompleted 0 8000 22000]
         15%Q ∅.

(** Two lanes, the right one blocked.  Car 0 is in lane 1 at column 5; the
    cell beside it is free, with car 1 at column 8 and car 2 at column 3 of
    lane 0, both at full speed. *)
Definition roadGapOfTwo : Road :=
  mkRoad [ <[8%nat := Ref 1]> (<[3%nat := Ref 2]> emptyLane);
           <[5%nat := Ref 0]> blockedLane ]
         [0%nat; 1%nat; 2%nat] 1 [] [] 15%Q
         (<[2%nat := carAtPos 0 3]>
            (<[1%nat := carAtPos 0 8]> (<[0%nat := carWantsFive 1 5]> ∅))).

(** Two lanes, the right one blocked.  Car 0 has moved before and is in the
    blocked lane at column 36, four cells short of the blockage; lane 0 is
    empty. *)
Definition roadNearBlockage : Road :=
  mkRoad [ emptyLane; <[36%nat := Ref 0]> blockedLane ]
         [0%nat] 1 [] [] 15%Q
         (<[0%nat := setLastMoved 1000 (carAtPos 1 36)]> ∅).

(** A road with one car: spawned into lane 0 at clock 1000 and driven once
    at that clock reading. *)
Definition roadOneCar : Road :=
  driveCars 1000
    (generateRandomCar (9 # 10) 1 (1 # 2) 0 0 1000 0%nat (newRoad 2 1 15)).

(** Two lanes, the right one blocked.  Car 0 is in lane 0 at column 3 and
    has let no car in; car 1 is in lane 1 at column 4, one column ahead of
    it, with its indicator on. *)
Definition roadYielding : Road :=
  mkRoad [ <[3%nat := Ref 0]> emptyLane; <[4%nat := Ref 1]> blockedLane ]
         [0%nat; 1%nat] 1 [] [] 15%Q
         (<[1%nat := setIndicator true (setState Merge (carAtPos 1 4))]>
            (<[0%nat := carAtPos 0 3]> ∅)).

(** A road with two completion records on its list, of 4 and 8 seconds.
    At clock reading 27000 the second has expired and has not been purged
    yet. *)
Definition roadExpiredRecord : Road :=
  mkRoad [emptyLane; blockedLane] [] 1 []
         [mkCompleted 0 4000 30000; mkCompleted 1 8000 25000]
         15%Q ∅.

(** A road whose completion records have travel times of -3 and 1 seconds,
    as a clock that was set back would leave them. *)
Definition roadNegativeTime : Road :=
  mkRoad [emptyLane; blockedLane] [] 1 []
         [mkCompleted 0 (-3000) 30000; mkCompleted 1 1000 31000]
         15%Q ∅.

(** A road with two cars in lane 0: car 0 entered at clock 1000 and has
    driven to clock 2000; car 1 has just entered behind it at clock 2000. *)
Definition roadTwoEntered : Road :=
  generateRandomCar (9 # 10) 1 (1 # 2) 0 0 2000 1%nat
    (driveCars 2000 roadOneCar).

(** The same road after a third car, car 2, has entered lane 1 at clock
    2000. *)
Definition roadThreeEntered : Road :=
  generateRandomCar (9 # 10) 1 (1 # 2) 0 0 2000 2%nat roadTwoEntered.

(** * Properties *)

(** ** Comparisons and arrays *)

Lemma Qleb_le x y : Qleb x y = true <-> (x <= y)%Q.
Proof. apply Qle_bool_iff. Qed.

Lemma Qleb_gt x y : Qleb x y = false <-> (y < x)%Q.
Proof.
  unfold Qleb. split; intros H.
  - apply Qnot_le_lt. intros Hle. apply Qle_bool_iff in Hle. congruence.
  - destruct (Qle_bool x y) eqn:E; [|done].
    apply Qle_bool_iff in E. exfalso. eapply Qlt_not_le; eauto.
Qed.

Lemma Qltb_lt x y : Qltb x y = true <-> (x < y)%Q.
Proof.
  unfold Qltb. rewrite negb_true_iff. apply (Qleb_gt y x).
Qed.

Lemma Qeqb_eq x y : Qeqb x y = true <-> (x == y)%Q.
Proof. apply Qeq_bool_iff. Qed.

Lemma idx_Some {A} (l : list A) i v :
  idx l i = Some v -> 0 <= i < len l.
Proof.
  unfold idx, len. destruct (Z.ltb_spec i 0); [done|].
  intros Hl%lookup_lt_Some. lia.
Qed.

Lemma idx_is_Some {A} (l : list A) i :
  0 <= i < len l -> is_Some (idx l i).
Proof.
  unfold idx, len. intros Hi. destruct (Z.ltb_spec i 0); [lia|].
  apply lookup_lt_is_Some. lia.
Qed.

Lemma idx_None {A} (l : list A) i :
  idx l i = None <-> i < 0 \/ len l <= i.
Proof.
  unfold idx, len. destruct (Z.ltb_spec i 0).
  - split; [auto | done].
  - rewrite lookup_ge_None. lia.
Qed.

Lemma len_setIdx {A} (l : list A) i v : len (setIdx l i v) = len l.
Proof.
  unfold setIdx, len. destruct (i <? 0); [done|]. by rewrite length_insert.
Qed.

Lemma idx_setIdx_eq {A} (l : list A) i v :
  0 <= i < len l -> idx (setIdx l i v) i = Some v.
Proof.
  unfold idx, setIdx, len. intros Hi. destruct (Z.ltb_spec i 0); [lia|].
  apply list_lookup_insert_eq. lia.
Qed.

Lemma idx_setIdx_ne {A} (l : list A) i j v :
  i <> j -> idx (setIdx l i v) j = idx l j.
Proof.
  unfold idx, setIdx. intros Hij.
  destruct (Z.ltb_spec j 0); [done|].
  destruct (Z.ltb_spec i 0); [done|].
  apply list_lookup_insert_ne. lia.
Qed.

Lemma cellAt_Some rs lane x v :
  cellAt rs lane x = Some v ->
  exists l, idx rs lane = Some l /\ idx l x = Some v.
Proof. unfold cellAt. destruct (idx rs lane); [eauto | done]. Qed.

Lemma cellAt_setCell_eq rs lane x v :
  is_Some (cellAt rs lane x) -> cellAt (setCell rs lane x v) lane x = Some v.
Proof.
  intros [w Hw]. apply cellAt_Some in Hw as (l & Hl & Hx).
  unfold cellAt, setCell. rewrite Hl.
  rewrite idx_setIdx_eq by (eapply idx_Some; eauto).
  apply idx_setIdx_eq. eapply idx_Some; eauto.
Qed.

Lemma cellAt_setCell_ne rs lane x lane' x' v :
  (lane, x) <> (lane', x') ->
  cellAt (setCell rs lane x v) lane' x' = cellAt rs lane' x'.
Proof.
  intros Hne. unfold cellAt, setCell.
  destruct (idx rs lane) as [l|] eqn:Hl; [|done].
  destruct (decide (lane = lane')) as [<-|Hlane].
  - rewrite idx_setIdx_eq by (eapply idx_Some; eauto). rewrite Hl.
    apply idx_setIdx_ne. congruence.
  - by rewrite idx_setIdx_ne.
Qed.

Lemma len_setCell rs lane x v : len (setCell rs lane x v) = len rs.
Proof.
  unfold setCell. destruct (idx rs lane); [|done]. apply len_setIdx.
Qed.

(** A write keeps the size of every lane. *)
Lemma idx_setCell_len rs lane x v lane' l' :
  idx (setCell rs lane x v) lane' = Some l' ->
  exists l, idx rs lane' = Some l /\ len l' = len l.
Proof.
  unfold setCell. destruct (idx rs lane) as [l|] eqn:Hl; [|eauto].
  destruct (decide (lane = lane')) as [<-|Hne].
  - rewrite idx_setIdx_eq by (eapply idx_Some; eauto).
    intros [= <-]. exists l. split; [done|]. apply len_setIdx.
  - rewrite idx_setIdx_ne by done. eauto.
Qed.

(** ** The store *)

Lemma updCar_lookup id f r k :
  heap (updCar id f r) !! k
  = if decide (k = id) then f <$> heap r !! k else heap r !! k.
Proof.
  unfold updCar; simpl. destruct (decide (k = id)) as [->|Hne].
  - by rewrite lookup_alter_eq.
  - by rewrite lookup_alter_ne.
Qed.

Lemma updCar_lookup_eq id f r c :
  heap r !! id = Some c -> heap (updCar id f r) !! id = Some (f c).
Proof. intros H. rewrite updCar_lookup, decide_True by done. by rewrite H. Qed.

Lemma updCar_lookup_ne id f r k :
  k <> id -> heap (updCar id f r) !! k = heap r !! k.
Proof. intros H. by rewrite updCar_lookup, decide_False. Qed.

(** ** The trait transform *)

(** The transform compares its input with the anchor [mid]; below [mid] the
    first segment applies, whatever the side of 0.5 the input is on. *)
Lemma getValueFromNormalized_below_mid x low mid high :
  (x < mid)%Q ->
  (getValueFromNormalized x low mid high == low + 2 * x * (mid - low))%Q.
Proof.
  intros Hlt. unfold getValueFromNormalized.
  destruct (Qeqb x mid) eqn:E.
  - apply Qeqb_eq in E. rewrite E in Hlt. exfalso. eapply Qlt_irrefl; eauto.
  - apply Qltb_lt in Hlt. rewrite Hlt. field.
Qed.

Lemma getValueFromNormalized_above_mid x low mid high :
  (mid < x)%Q ->
  (getValueFromNormalized x low mid high
   == mid + 2 * (x - (1 # 2)) * (high - mid))%Q.
Proof.
  intros Hlt. unfold getValueFromNormalized.
  destruct (Qeqb x mid) eqn:E.
  - apply Qeqb_eq in E. rewrite E in Hlt. exfalso. eapply Qlt_irrefl; eauto.
  - destruct (Qltb x mid) eqn:E2.
    + apply Qltb_lt in E2. exfalso. eapply Qlt_irrefl, Qlt_trans; eauto.
    + field.
Qed.

(** The low and mid anchors, and the first segment, for an anchor [mid]
    above 1/2 (every [mid] of the program is). *)
Lemma getValueFromNormalized_low_mid low mid high :
  (1 # 2 < mid)%Q ->
  (getValueFromNormalized 0 low mid high == low)%Q /\
  (getValueFromNormalized (1 # 2) low mid high == mid)%Q.
Proof.
  intros Hmid. split.
  - rewrite getValueFromNormalized_below_mid; [ring|].
    eapply Qlt_trans; [|exact Hmid]. reflexivity.
  - rewrite getValueFromNormalized_below_mid by done. ring.
Qed.

(** C4: the transform at input 1 on the anchor triples of the program.  The
    input never exceeds [mid], so the second segment is never taken: the
    following distance is 5.8 where the high anchor is 5, the merge distance
    0 where it is 2, the merge gap 2.2 where it is 3.  Only the merge space,
    whose anchors are evenly spaced, meets its high anchor. *)
Theorem getValueFromNormalized_at_one :
  (getValueFromNormalized 1 FOLLOWING_DISTANCE_LOW FOLLOWING_DISTANCE_MID
                          FOLLOWING_DISTANCE_HIGH == 58 # 10)%Q /\
  ~ (getValueFromNormalized 1 FOLLOWING_DISTANCE_LOW FOLLOWING_DISTANCE_MID
                            FOLLOWING_DISTANCE_HIGH
     == FOLLOWING_DISTANCE_HIGH)%Q /\
  (getValueFromNormalized 1 MERGE_DISTANCE_LOW MERGE_DISTANCE_MID
                          MERGE_DISTANCE_HIGH == 0)%Q /\
  ~ (getValueFromNormalized 1 MERGE_DISTANCE_LOW MERGE_DISTANCE_MID
                            MERGE_DISTANCE_HIGH == MERGE_DISTANCE_HIGH)%Q /\
  (getValueFromNormalized 1 MERGE_GAP_LOW MERGE_GAP_MID MERGE_GAP_HIGH
   == 22 # 10)%Q /\
  ~ (getValueFromNormalized 1 MERGE_GAP_LOW MERGE_GAP_MID MERGE_GAP_HIGH
     == MERGE_GAP_HIGH)%Q /\
  (getValueFromNormalized 1 MERGE_SPACE_LOW MERGE_SPACE_MID MERGE_SPACE_HIGH
   == MERGE_SPACE_HIGH)%Q.
Proof. repeat split; try discriminate; reflexivity. Qed.

(** ** setCarPos *)

(** The claim of C1 as worded, that a commit onto an occupied cell leaves
    every cell as it was, fails on a direct call: car 0 at column 3 is
    moved onto column 5 of its lane, where car 1 is.  The call answers [-1]
    and car 0's record still says column 3, but its cell has been set to
    [null] before the occupancy test. *)
Theorem setCarPos_occupied_clears_own_cell :
  cellAt (roadSpace roadTwoInLane) 0 5 = Some (Ref 1) /\
  cellAt (roadSpace roadTwoInLane) 0 3 = Some (Ref 0) /\
  (setCarPos 0 0 5 roadTwoInLane).1 = Some (-1) /\
  cellAt (roadSpace (setCarPos 0 0 5 roadTwoInLane).2) 0 3 = Some Null /\
  (fun c => (laneNumber c, lanePosX c))
    <$> heap (setCarPos 0 0 5 roadTwoInLane).2 !! 0%nat = Some (0, 3).
Proof. repeat split; vm_compute; reflexivity. Qed.

(** The scan of [alertRearDriver] finds the nearest car behind. *)
Lemma alertRear_loop_nearest (n : nat) lane r :
  alertRear_loop n lane (Z.of_nat n - 1) r
  = match head (omap (fun cell => fst <$> carAt r (Some cell))
                     (rev (take n lane))) with
    | Some k => updCar k alertMerge r
    | None => r
    end.
Proof.
  induction n as [|n IH]; [done|].
  cbn [alertRear_loop].
  replace (Z.of_nat (S n) - 1 - 1) with (Z.of_nat n - 1) by lia.
  replace (Z.of_nat (S n) - 1) with (Z.of_nat n) by lia.
  rewrite IH. clear IH.
  unfold idx. destruct (Z.ltb_spec (Z.of_nat n) 0); [lia|].
  rewrite Nat2Z.id.
  destruct (lane !! n) as [cell|] eqn:Hcell.
  - rewrite (take_S_r _ _ _ Hcell), rev_unit. cbn [omap list_omap].
    destruct (carAt r (Some cell)) as [[k ck]|]; done.
  - rewrite (take_ge lane (S n)) by (apply lookup_ge_None in Hcell; lia).
    rewrite (take_ge lane n) by (by apply lookup_ge_None).
    done.
Qed.

Lemma alertRearDriver_nearest c r newLane :
  alertRearDriver c r newLane
  = match nearestCarBehind r newLane (lanePosX c) with
    | Some k => updCar k alertMerge r
    | None => r
    end.
Proof.
  unfold alertRearDriver, nearestCarBehind, cellsBehind.
  destruct (idx (roadSpace r) newLane) as [lane|] eqn:Hlane.
  - apply idx_Some in Hlane as Hrange.
    destruct (Z.ltb_spec newLane 0); [lia|].
    destruct (Z.geb_spec newLane (len (roadSpace r))); [lia|]. cbn [orb].
    destruct (Z.leb_spec (lanePosX c) 0).
    + by replace (Z.to_nat (lanePosX c)) with 0%nat by lia.
    + rewrite <- alertRear_loop_nearest. f_equal. lia.
  - apply idx_None in Hlane.
    destruct (Z.ltb_spec newLane 0); [done|].
    destruct (Z.geb_spec newLane (len (roadSpace r))); [done|lia].
Qed.

Lemma nearestCarBehind_bound r lane x k :
  nearestCarBehind r lane x = Some k -> is_Some (heap r !! k).
Proof.
  unfold nearestCarBehind. destruct (idx (roadSpace r) lane); [|done].
  intros Hhead. apply head_Some_elem_of in Hhead.
  apply list_elem_of_omap in Hhead as (cell & _ & Hcell).
  destruct cell as [| |id]; try done. cbn in Hcell.
  destruct (heap r !! id) eqn:E; [|done]. cbn in Hcell.
  injection Hcell as <-. eauto.
Qed.

(** C10: a call of [setCarPos] that passes the bounds guards with a
    destination lane other than the car's raises the cars-let-in counter of
    the moving car by one, and that of the nearest car behind the car's
    column in the destination lane by one; no other counter changes.  This
    holds whatever the occupancy test then decides. *)
Theorem setCarPos_lane_change_counters id c lane laneX r k ck :
  heap r !! id = Some c ->
  lane < len (roadSpace r) -> laneX < ROAD_WIDTH ->
  laneNumber c < len (roadSpace r) -> lanePosX c < ROAD_WIDTH ->
  lane <> laneNumber c ->
  heap r !! k = Some ck ->
  exists ck',
    heap (setCarPos id lane laneX r).2 !! k = Some ck' /\
    carsLetIn ck'
    = carsLetIn ck
      + (if decide (k = id) then 1 else 0)
      + (if decide (nearestCarBehind r lane (lanePosX c) = Some k)
         then 1 else 0).
Proof.
  intros Hc Hlane HlaneX Hcur HcurX Hne Hk.
  unfold setCarPos. rewrite Hc.
  destruct (Z.geb_spec lane (len (roadSpace r))); [lia|].
  destruct (Z.geb_spec laneX ROAD_WIDTH); [lia|]. cbn [orb].
  destruct (Z.geb_spec (laneNumber c) (len (roadSpace r))); [lia|].
  destruct (Z.geb_spec (lanePosX c) ROAD_WIDTH); [lia|]. cbn [orb].
  destruct (Z.eqb_spec (laneNumber c) lane); [congruence|]. cbn [negb].
  rewrite alertRearDriver_nearest.
  set (r1 := updCar id alertMerge _).
  assert (Hr1 : exists ck1, heap r1 !! k = Some ck1 /\
     laneNumber ck1 = laneNumber ck /\
     carsLetIn ck1 = carsLetIn ck + (if decide (k = id) then 1 else 0)
      + (if decide (nearestCarBehind r lane (lanePosX c) = Some k)
         then 1 else 0)).
  { subst r1. rewrite updCar_lookup.
    destruct (nearestCarBehind r lane (lanePosX c)) as [rid|] eqn:Hrear.
    - rewrite updCar_lookup.
      destruct (decide (k = id)) as [Hkid|Hkid];
        destruct (decide (k = rid)) as [Hkr|Hkr];
        destruct (decide (Some rid = Some k)) as [Hs|Hs];
        try (exfalso; congruence);
        rewrite Hk; cbn; eexists; (split; [reflexivity|]); cbn; lia.
    - destruct (decide (k = id)) as [Hkid|Hkid];
        rewrite decide_False by done;
        rewrite Hk; cbn; eexists; (split; [reflexivity|]); cbn; lia. }
  destruct Hr1 as (ck1 & Hck1 & _ & Hcount).
  match goal with |- context [if ?b then _ else _] => destruct b end;
    cbn [snd].
  - exists ck1. by rewrite <- Hcount.
  - rewrite updCar_lookup. cbn [heap withRoadSpace]. rewrite Hck1.
    destruct (decide (k = id)); cbn; eauto.
Qed.

Lemma setCarPos_lane_change_counters_witness :
  (setCarPos 0 0 5 roadBesideTaken).1 = Some (-1) /\
  (exists ck',
      heap (setCarPos 0 0 5 roadBesideTaken).2 !! 0%nat = Some ck' /\
      carsLetIn ck' = 0 + 1 + 0) /\
  (exists ck',
      heap (setCarPos 0 0 5 roadBesideTaken).2 !! 2%nat = Some ck' /\
      carsLetIn ck' = 0 + 0 + 1).
Proof.
  split; [reflexivity|]. split.
  - apply (setCarPos_lane_change_counters 0 (carAtPos 1 5) 0 5
             roadBesideTaken 0 (carAtPos 1 5));
      try reflexivity; discriminate.
  - apply (setCarPos_lane_change_counters 0 (carAtPos 1 5) 0 5
             roadBesideTaken 2 (carAtPos 0 2));
      try reflexivity; discriminate.
Defined.

(** The claim of C10 without the bounds guards fails: a destination lane
    that is not a lane of the road differs from the car's lane, and the call
    returns before any counter is touched. *)
Lemma setCarPos_out_of_bounds_no_alert :
  2 <> laneNumber (carAtPos 1 5) /\
  (setCarPos 0 2 5 roadBesideTaken).1 = Some (-1) /\
  carsLetIn <$> heap roadBesideTaken !! 0%nat = Some 0 /\
  carsLetIn <$> heap (setCarPos 0 2 5 roadBesideTaken).2 !! 0%nat = Some 0 /\
  ~ (carsLetIn <$> heap (setCarPos 0 2 5 roadBesideTaken).2 !! 0%nat
     = Some (0 + 1)).
Proof. repeat split; try discriminate; vm_compute; reflexivity. Qed.

(** ** Rubbernecking *)

Lemma inject_Z_sub a b : (inject_Z (a - b) == inject_Z a - inject_Z b)%Q.
Proof.
  unfold Z.sub. rewrite inject_Z_plus, inject_Z_opp. reflexivity.
Qed.

(** The term in closed form: [-0.15 * speed * ((48 - x) / 8)^2]. *)
Lemma rubberneckTerm_closed c :
  (rubberneckTerm c
   == - (3 # 1280) * speed c
      * inject_Z ((BLOCK_START + RUBBERNECK_ZONE_LENGTH - lanePosX c) ^ 2))%Q.
Proof.
  unfold rubberneckTerm, BLOCK_START, RUBBERNECK_ZONE_LENGTH,
    RUBBERNECK_SPEED_FACTOR.
  replace ((40 + 8 - lanePosX c) ^ 2)
    with ((48 - lanePosX c) * (48 - lanePosX c)) by ring.
  rewrite inject_Z_mult, !inject_Z_sub.
  change (inject_Z 8) with 8%Q. change (inject_Z 40) with 40%Q.
  change (inject_Z 48) with 48%Q.
  field.
Qed.

Lemma isInRubberneckZone_true c r :
  isInRubberneckZone c r = true <->
  laneNumber c < len (roadSpace r) - blockedLanes r /\
  BLOCK_START <= lanePosX c < BLOCK_START + RUBBERNECK_ZONE_LENGTH.
Proof.
  unfold isInRubberneckZone.
  destruct (Z.geb_spec (laneNumber c) (len (roadSpace r) - blockedLanes r)).
  - split; [done | lia].
  - rewrite andb_true_iff, Z.geb_le, Z.ltb_lt. lia.
Qed.

Lemma getDistance_loop_nonneg n r l target i d :
  0 <= d -> 0 <= getDistance_loop n r l target i d.
Proof.
  revert i d. induction n as [|n IH]; intros i d Hd; cbn; [lia|].
  destruct (scanHit r target (idx l i)); [done|]. apply IH. lia.
Qed.

Lemma getDistance_in_lane r lane x target l :
  getLaneData r lane = Some l -> x + 1 < len l ->
  0 <= getDistance r lane x target.
Proof.
  intros Hl Hx. unfold getDistance. rewrite Hl.
  destruct (Z.geb_spec (x + 1) (len l)); [lia|].
  by apply getDistance_loop_nonneg.
Qed.

(** C7: for a car in a lane of the road, [effectSpeed] passes to
    [adjustSpeedBy] the following-distance adjustment plus a rubbernecking
    term exactly when the car is in a non-blocked lane at a column of the
    8-cell zone that starts at [BLOCK_START].  The term is
    [-0.15 * speed * (1 - depth)^2] with [depth = (x - BLOCK_START) / 8]: it
    is never positive, is [-0.15 * speed] at the zone's start, shrinks in
    magnitude from column to column and would be zero at the zone's end; the
    fade is quadratic in the depth.  Outside the zone, and in a blocked lane,
    nothing is added. *)
Theorem effectSpeed_rubbernecking id c r l :
  heap r !! id = Some c ->
  getLaneData r (laneNumber c) = Some l -> len l = ROAD_WIDTH ->
  (0 <= speed c)%Q ->
  let depth :=
    (inject_Z (lanePosX c - BLOCK_START) / inject_Z RUBBERNECK_ZONE_LENGTH)%Q in
  let inZone :=
    laneNumber c < len (roadSpace r) - blockedLanes r /\
    BLOCK_START <= lanePosX c < BLOCK_START + RUBBERNECK_ZONE_LENGTH in
  (inZone ->
     exists d, speedDifference c r = Some d /\
       effectSpeed id r = updCar id (adjustSpeedBy d) r /\
       (d == followDifference c r
             - (15 # 100) * speed c * ((1 - depth) * (1 - depth)))%Q /\
       (- (15 # 100) * speed c <= d - followDifference c r <= 0)%Q /\
       (lanePosX c = BLOCK_START ->
          (d - followDifference c r == - (15 # 100) * speed c)%Q) /\
       (forall c', speed c' = speed c -> lanePosX c <= lanePosX c' ->
          lanePosX c' <= BLOCK_START + RUBBERNECK_ZONE_LENGTH ->
          (rubberneckTerm c <= rubberneckTerm c')%Q /\
          (lanePosX c' = BLOCK_START + RUBBERNECK_ZONE_LENGTH ->
             (rubberneckTerm c' == 0)%Q))) /\
  (~ inZone ->
     speedDifference c r = None /\ effectSpeed id r = r \/
     speedDifference c r = Some (followDifference c r) /\
     effectSpeed id r = updCar id (adjustSpeedBy (followDifference c r)) r).
Proof.
  intros Hc Hl Hlen Hspeed depth inZone. split.
  - intros Hzone. assert (Hz := Hzone).
    apply isInRubberneckZone_true in Hz.
    destruct Hzone as [Hlane Hx].
    unfold BLOCK_START, RUBBERNECK_ZONE_LENGTH, ROAD_WIDTH in *.
    assert (Hdist : 0 <= getActualDistance c r).
    { eapply getDistance_in_lane; eauto. lia. }
    exists (followDifference c r + rubberneckTerm c)%Q.
    assert (Hsd : speedDifference c r
                  = Some (followDifference c r + rubberneckTerm c)%Q).
    { unfold speedDifference.
      destruct (Z.ltb_spec (getActualDistance c r) 0); [lia|]. by rewrite Hz. }
    assert (Hclosed := rubberneckTerm_closed c).
    unfold BLOCK_START, RUBBERNECK_ZONE_LENGTH in Hclosed.
    assert (Hsq : 0 <= (40 + 8 - lanePosX c) ^ 2 <= 64) by nia.
    assert (HsqQ : (0 <= inject_Z ((40 + 8 - lanePosX c) ^ 2) <= 64)%Q).
    { split; [change 0%Q with (inject_Z 0) | change 64%Q with (inject_Z 64)];
        rewrite <- Zle_Qle; lia. }
    split; [done|]. split; [unfold effectSpeed; by rewrite Hc, Hsd|].
    split.
    { rewrite Hclosed. subst depth.
      replace ((40 + 8 - lanePosX c) ^ 2)
        with ((48 - lanePosX c) * (48 - lanePosX c)) by ring.
      rewrite inject_Z_mult, !inject_Z_sub.
      change (inject_Z 8) with 8%Q. change (inject_Z 40) with 40%Q.
      change (inject_Z 48) with 48%Q. field. }
    split.
    { set (A := inject_Z ((40 + 8 - lanePosX c) ^ 2)) in *.
      set (s := speed c) in *.
      set (t := rubberneckTerm c) in *. set (f := followDifference c r).
      assert (Ht : (t == - (3 # 1280) * s * A)%Q) by exact Hclosed.
      destruct HsqQ as [HA0 HA1].
      assert (HsA : (0 <= s * A)%Q) by (apply Qmult_le_0_compat; done).
      assert (HsA' : (s * A <= s * 64)%Q).
      { rewrite !(Qmult_comm s). apply Qmult_le_compat_r; done. }
      clearbody t A s f. clear Hclosed. split; lra. }
    split.
    { intros Hx0. rewrite Hclosed, Hx0.
      change (inject_Z ((40 + 8 - 40) ^ 2)) with 64%Q. field. }
    intros c' Hs' Hle Hle'. split.
    + rewrite Hclosed. rewrite (rubberneckTerm_closed c'), Hs'.
      unfold BLOCK_START, RUBBERNECK_ZONE_LENGTH.
      assert (HZ : 0 <= (40 + 8 - lanePosX c') ^ 2
                   <= (40 + 8 - lanePosX c) ^ 2) by nia.
      assert (HQ : (0 <= inject_Z ((40 + 8 - lanePosX c') ^ 2)
                    <= inject_Z ((40 + 8 - lanePosX c) ^ 2))%Q).
      { split; [change 0%Q with (inject_Z 0)|]; rewrite <- Zle_Qle; lia. }
      set (A := inject_Z ((40 + 8 - lanePosX c) ^ 2)) in *.
      set (B := inject_Z ((40 + 8 - lanePosX c') ^ 2)) in *.
      set (s := speed c) in *.
      assert (HsB : (s * B <= s * A)%Q).
      { rewrite !(Qmult_comm s). apply Qmult_le_compat_r; tauto. }
      lra.
    + intros Hx'. rewrite (rubberneckTerm_closed c'), Hx'.
      unfold BLOCK_START, RUBBERNECK_ZONE_LENGTH.
      replace ((40 + 8 - (40 + 8)) ^ 2) with 0 by lia.
      change (inject_Z 0) with 0%Q. ring.
  - intros Hout.
    assert (Hz : isInRubberneckZone c r = false).
    { destruct (isInRubberneckZone c r) eqn:E; [|done].
      apply isInRubberneckZone_true in E. done. }
    unfold effectSpeed, speedDifference. rewrite Hc, Hz.
    destruct (getActualDistance c r <? 0); [left|right]; done.
Qed.

Lemma effectSpeed_rubbernecking_witness :
  exists d,
    speedDifference (carInZone 44) roadInZone = Some d /\
    effectSpeed 0 roadInZone = updCar 0 (adjustSpeedBy d) roadInZone /\
    (d - followDifference (carInZone 44) roadInZone <= 0)%Q.
Proof.
  destruct (effectSpeed_rubbernecking 0 (carInZone 44) roadInZone
              (<[44%nat := Ref 0]> emptyLane)) as [Hin _];
    [reflexivity | reflexivity | reflexivity | discriminate |].
  destruct Hin as (d & Hd & He & _ & [_ Hle] & _).
  - split; [reflexivity | split; [discriminate | reflexivity]].
  - exists d. auto.
Defined.

(** The claim of C7 that the adjustment fades linearly fails: at columns
    40, 41 and 42 of the zone, at one speed, the two steps of the term
    differ. *)
Lemma rubberneck_fade_not_linear :
  isInRubberneckZone (carInZone 40) roadInZone = true /\
  isInRubberneckZone (carInZone 41) roadInZone = true /\
  isInRubberneckZone (carInZone 42) roadInZone = true /\
  speed (carInZone 40) = speed (carInZone 41) /\
  speed (carInZone 41) = speed (carInZone 42) /\
  ~ (rubberneckTerm (carInZone 41) - rubberneckTerm (carInZone 40)
     == rubberneckTerm (carInZone 42) - rubberneckTerm (carInZone 41))%Q.
Proof.
  repeat split; try reflexivity.
  intros H. vm_compute in H. discriminate.
Qed.

(** ** Fairness *)

Lemma foldl_Rplus a l : (foldl Rplus a l = a + fold_right Rplus 0 l)%R.
Proof.
  revert a. induction l as [|x l IH]; intros a; cbn.
  - lra.
  - rewrite IH. lra.
Qed.

Lemma sumR_fold_right l : sumR l = fold_right Rplus 0%R l.
Proof. unfold sumR. rewrite foldl_Rplus. lra. Qed.

Lemma fold_right_Rplus_nonneg l :
  Forall (fun t => (0 <= t)%R) l -> (0 <= fold_right Rplus 0 l)%R.
Proof. induction 1; cbn; lra. Qed.

Lemma getFairness_unfold r :
  getFairness r =
  if (length (completedCars r) <? 2)%nat then 1%R
  else if Req_EM_T (meanOf (travelTimes r)) 0 then 1%R
  else (1 / (1 + popStdDev (travelTimes r) / meanOf (travelTimes r)))%R.
Proof.
  unfold getFairness, popStdDev, meanOf, travelTimes.
  destruct (length (completedCars r) <? 2)%nat; [done|].
  rewrite !sumR_fold_right.
  destruct (Req_EM_T _ 0); [done|].
  rewrite !length_map.
  assert (Hmap : forall m l,
             map (fun t => ((t - m) ^ 2)%R) l
             = map (fun t => ((t - m) * (t - m))%R) l).
  { intros m l. apply map_ext. intros t. cbn. lra. }
  by rewrite Hmap.
Qed.

(** C9, as amended: on completion records with non-negative travel times
    (a travel time is the clock at removal minus the clock at entry), the
    fairness is in (0, 1]; it is 1 with fewer than two records on the list
    and with mean 0, and otherwise 1 / (1 + CV) with CV the population
    standard deviation over the mean of the travel times of all the records
    on the list, expired ones included for as long as they are not
    purged. *)
Theorem getFairness_bounds r :
  Forall (fun car => 0 <= travelTime car) (completedCars r) ->
  (0 < getFairness r <= 1)%R /\
  ((length (completedCars r) < 2)%nat -> getFairness r = 1%R) /\
  (meanOf (travelTimes r) = 0%R -> getFairness r = 1%R) /\
  ((2 <= length (completedCars r))%nat ->
   meanOf (travelTimes r) <> 0%R ->
   getFairness r
   = (1 / (1 + popStdDev (travelTimes r) / meanOf (travelTimes r)))%R).
Proof.
  intros Hpos. rewrite getFairness_unfold.
  assert (Hmean : (0 <= meanOf (travelTimes r))%R).
  { unfold meanOf.
    assert (Hs : (0 <= fold_right Rplus 0 (travelTimes r))%R).
    { apply fold_right_Rplus_nonneg. unfold travelTimes.
      induction Hpos; cbn; constructor; [by apply IZR_le | done]. }
    destruct (length (travelTimes r)) as [|n] eqn:En.
    - cbn. unfold Rdiv. rewrite Rinv_0. lra.
    - apply Rle_mult_inv_pos; [done|]. apply lt_0_INR. lia. }
  repeat split.
  - destruct (_ <? 2)%nat; [lra|]. destruct (Req_EM_T _ 0); [lra|].
    apply Rdiv_lt_0_compat; [lra|].
    assert (0 <= popStdDev (travelTimes r))%R by apply sqrt_pos.
    assert (0 <= popStdDev (travelTimes r) / meanOf (travelTimes r))%R.
    { apply Rle_mult_inv_pos; [done|lra]. }
    lra.
  - destruct (_ <? 2)%nat; [lra|]. destruct (Req_EM_T _ 0); [lra|].
    assert (0 <= popStdDev (travelTimes r))%R by apply sqrt_pos.
    assert (0 <= popStdDev (travelTimes r) / meanOf (travelTimes r))%R.
    { apply Rle_mult_inv_pos; [done|lra]. }
    unfold Rdiv at 1. rewrite Rmult_1_l, <- Rinv_1.
    apply Rinv_le_contravar; lra.
  - intros Hlt.
    destruct (Nat.ltb_spec (length (completedCars r)) 2); [done|lia].
  - intros H0. destruct (_ <? 2)%nat; [done|].
    destruct (Req_EM_T _ 0); [done|contradiction].
  - intros Hge Hne.
    destruct (Nat.ltb_spec (length (completedCars r)) 2); [lia|].
    destruct (Req_EM_T _ 0); [contradiction|done].
Qed.

Lemma getFairness_bounds_witness :
  (0 < getFairness roadThreeCompleted <= 1)%R.
Proof.
  apply (getFairness_bounds roadThreeCompleted).
  repeat constructor; discriminate.
Defined.

(** The claim of C9 as worded fails twice.  [getFairness] takes every
    record on the list, whatever its expiry: on [roadExpiredRecord] at clock
    reading 27000 one record is unexpired, for which the worded value is 1,
    and the code answers 3/4, the value over both records.  And on travel
    times that are not all non-negative the value can leave (0, 1]: on
    [roadNegativeTime] it is -1. *)
Lemma getFairness_reads_every_record :
  filter (fun rec => 27000 < expirationTime rec)
         (completedCars roadExpiredRecord)
  = [mkCompleted 0 4000 30000] /\
  getFairness (purgeTrails 27000 roadExpiredRecord) = 1%R /\
  getFairness roadExpiredRecord = (3 / 4)%R /\
  getFairness roadNegativeTime = (-1)%R.
Proof.
  split; [vm_compute; reflexivity|]. split; [reflexivity|].
  assert (Hsd : sqrt 4000000 = 2000%R).
  { replace 4000000%R with (2000 * 2000)%R by lra.
    apply sqrt_square. lra. }
  split.
  - rewrite getFairness_unfold. cbn [length completedCars roadExpiredRecord
      Nat.ltb Nat.leb].
    assert (Hmean : meanOf (travelTimes roadExpiredRecord) = 6000%R).
    { unfold meanOf, travelTimes. cbn. lra. }
    assert (Hdev : popStdDev (travelTimes roadExpiredRecord) = 2000%R).
    { unfold popStdDev. rewrite Hmean. unfold travelTimes. cbn.
      rewrite <- Hsd. f_equal. lra. }
    rewrite Hmean, Hdev. destruct (Req_EM_T 6000 0); lra.
  - rewrite getFairness_unfold. cbn [length completedCars roadNegativeTime
      Nat.ltb Nat.leb].
    assert (Hmean : meanOf (travelTimes roadNegativeTime) = (-1000)%R).
    { unfold meanOf, travelTimes. cbn. lra. }
    assert (Hdev : popStdDev (travelTimes roadNegativeTime) = 2000%R).
    { unfold popStdDev. rewrite Hmean. unfold travelTimes. cbn.
      rewrite <- Hsd. f_equal. lra. }
    rewrite Hmean, Hdev. destruct (Req_EM_T (-1000) 0); lra.
Qed.

(** ** The merge decision *)

Lemma canMerge_spacesSuffice c r :
  canMerge c r
  = spacesSuffice (getLeftOpenSpaces r (laneNumber c) (lanePosX c))
                  (desiredSpaces c r).
Proof. unfold canMerge. by destruct (_ && _). Qed.

Section same_but_quota.
Context (r1 r2 : Road) (Hroad : sameButQuotaRoad r1 r2).

Lemma sameButQuota_carAt cell :
  option_Forall2 (fun p1 p2 => p1.1 = p2.1 /\ sameButQuota p1.2 p2.2)
                 (carAt r1 cell) (carAt r2 cell).
Proof.
  destruct Hroad as (_ & _ & Hheap).
  destruct cell as [[| |id]|]; cbn; try constructor.
  destruct (Hheap id); constructor. done.
Qed.

Lemma sameButQuota_scanHit target cell :
  scanHit r1 target cell = scanHit r2 target cell.
Proof.
  destruct target; try done. cbn. unfold isCar.
  by destruct (sameButQuota_carAt cell).
Qed.

Lemma sameButQuota_getDistance_loop n l target i d :
  getDistance_loop n r1 l target i d = getDistance_loop n r2 l target i d.
Proof.
  revert i d. induction n as [|n IH]; intros i d; cbn; [done|].
  rewrite sameButQuota_scanHit. by rewrite IH.
Qed.

Lemma sameButQuota_getDistance lane x target :
  getDistance r1 lane x target = getDistance r2 lane x target.
Proof.
  unfold getDistance, getLaneData.
  destruct Hroad as (-> & _ & _).
  destruct (idx (roadSpace r2) lane); [|done].
  by rewrite sameButQuota_getDistance_loop.
Qed.

Lemma sameButQuota_left10_loop n l i total count :
  left10_loop n r1 l i total count = left10_loop n r2 l i total count.
Proof.
  revert i total count.
  induction n as [|n IH]; intros i total count; cbn; [done|].
  destruct (sameButQuota_carAt (idx l i)) as [[k1 c1] [k2 c2] [_ Hc]|];
    [|done].
  cbn in Hc. destruct Hc as (_ & _ & _ & _ & _ & -> & _). apply IH.
Qed.

Lemma sameButQuota_getLeftOpenSpaces lane x :
  getLeftOpenSpaces r1 lane x = getLeftOpenSpaces r2 lane x.
Proof.
  unfold getLeftOpenSpaces, getLaneData.
  rewrite sameButQuota_getDistance.
  by destruct Hroad as (-> & _ & _).
Qed.

Context (c1 c2 : Car) (Hcar : sameButQuota c1 c2).

Lemma sameButQuota_getMergeUrgency :
  getMergeUrgency c1 r1 = getMergeUrgency c2 r2.
Proof.
  unfold getMergeUrgency. rewrite sameButQuota_getDistance.
  by destruct Hcar as (_ & _ & -> & -> & _).
Qed.

Lemma sameButQuota_getLeft10AverageSpeed :
  getLeft10AverageSpeed c1 r1 = getLeft10AverageSpeed c2 r2.
Proof.
  unfold getLeft10AverageSpeed.
  destruct Hcar as (_ & _ & -> & -> & _).
  destruct Hroad as (Hrs & _ & _). rewrite Hrs.
  destruct (laneNumber c2 <=? 0); [done|].
  destruct (idx (roadSpace r2) (laneNumber c2 - 1)); [|done].
  by rewrite sameButQuota_left10_loop.
Qed.

Lemma sameButQuota_desiredSpaces :
  desiredSpaces c1 r1 = desiredSpaces c2 r2.
Proof.
  unfold desiredSpaces.
  rewrite sameButQuota_getMergeUrgency, sameButQuota_getLeft10AverageSpeed.
  unfold getDesiredMergeSpace, getDesiredMergeGap.
  destruct Hcar as (_ & -> & _ & _ & _ & -> & _).
  by destruct Hroad as (_ & -> & _).
Qed.
End same_but_quota.

Lemma sameButQuota_refl c : sameButQuota c c.
Proof. by repeat split. Qed.

(** Changing one car's counter and cooperation gives a road that differs
    only in the inputs of the quota. *)
Lemma sameButQuotaRoad_updCar r k n coop :
  sameButQuotaRoad r (updCar k (setQuotaInputs n coop) r).
Proof.
  repeat split; try done. intros j. rewrite updCar_lookup.
  destruct (decide (j = k)) as [->|Hne].
  - destruct (heap r !! k); constructor. by repeat split.
  - destruct (heap r !! j); constructor. apply sameButQuota_refl.
Qed.

(** C8: the merge decision does not read what the quota check reads.  On two
    roads with the same grid and cell length whose car objects differ at most
    in their cars-let-in counters and cooperation traits (the blocked-lane
    count may differ too), [canMerge] gives the same answer. *)
Theorem canMerge_ignores_quota c1 c2 r1 r2 :
  sameButQuota c1 c2 ->
  sameButQuotaRoad r1 r2 ->
  canMerge c1 r1 = canMerge c2 r2.
Proof.
  intros Hcar Hroad. rewrite !canMerge_spacesSuffice.
  rewrite (sameButQuota_desiredSpaces r1 r2 Hroad c1 c2 Hcar).
  rewrite (sameButQuota_getLeftOpenSpaces r1 r2 Hroad).
  by destruct Hcar as (_ & _ & -> & -> & _).
Qed.

(** On [roadGapOfTwo] the quota check allows the merge; once the car behind
    the window has let one car in it withholds it.  The merge decision is
    the same on both roads. *)
Lemma canMerge_ignores_quota_witness :
  let r1 := roadGapOfTwo in
  let r2 := updCar 2 (setQuotaInputs 1 1) roadGapOfTwo in
  let c := carWantsFive 1 5 in
  checkUnderCarLeftQuota c r1 (getLeftOpenSpaces r1 1 5) = true /\
  checkUnderCarLeftQuota c r2 (getLeftOpenSpaces r2 1 5) = false /\
  canMerge c r1 = canMerge c r2.
Proof.
  intros r1 r2 c. split; [reflexivity|]. split; [reflexivity|].
  apply (canMerge_ignores_quota c c r1 r2).
  - repeat split; reflexivity.
  - apply sameButQuotaRoad_updCar.
Defined.

(** *** The survey of the left lane *)

Lemma emptyRun_bounds cells : 0 <= emptyRun cells <= len cells.
Proof.
  unfold len. induction cells as [|[| |id] cs IH]; cbn [emptyRun length]; lia.
Qed.

(** The forward scan for any obstacle, read on the cells ahead. *)
Lemma getDistance_loop_All n r l (i : nat) d :
  (i + n)%nat = length l ->
  getDistance_loop n r l All (Z.of_nat i) d
  = if emptyRun (drop i l) =? len (drop i l) then 100
    else d + emptyRun (drop i l).
Proof.
  revert i d. induction n as [|n IH]; intros i d Hlen.
  - rewrite drop_ge by lia. done.
  - cbn [getDistance_loop].
    destruct (lookup_lt_is_Some_2 l i) as [cell Hcell]; [lia|].
    unfold idx. destruct (Z.ltb_spec (Z.of_nat i) 0); [lia|].
    rewrite Nat2Z.id, Hcell.
    rewrite (drop_S _ _ _ Hcell).
    replace (Z.of_nat i + 1) with (Z.of_nat (S i)) by lia.
    pose proof (emptyRun_bounds (drop (S i) l)) as Hb.
    destruct cell; cbn [scanHit notNull emptyRun].
    + rewrite IH by lia. unfold len in *. cbn [length].
      destruct (Z.eqb_spec (emptyRun (drop (S i) l))
                           (Z.of_nat (length (drop (S i) l))));
        destruct (Z.eqb_spec (1 + emptyRun (drop (S i) l))
                             (Z.of_nat (S (length (drop (S i) l)))));
        lia.
    + unfold len. cbn [length].
      destruct (Z.eqb_spec 0 (Z.of_nat (S (length (drop (S i) l))))); lia.
    + unfold len. cbn [length].
      destruct (Z.eqb_spec 0 (Z.of_nat (S (length (drop (S i) l))))); lia.
Qed.

(** The backward count, read on the cells from the beside cell down to
    column 1. *)
Lemma behind_loop_run (n : nat) l b :
  (n < length l)%nat ->
  behind_loop n l (Z.of_nat n) b
  = b + emptyRun (rev (drop 1 (take (S n) l))).
Proof.
  revert b. induction n as [|n IH]; intros b Hlen.
  - cbn [behind_loop]. destruct l; cbn; [lia|]. rewrite take_0. cbn. lia.
  - cbn [behind_loop].
    destruct (lookup_lt_is_Some_2 l (S n)) as [cell Hcell]; [lia|].
    unfold idx. destruct (Z.ltb_spec (Z.of_nat (S n)) 0); [lia|].
    rewrite Nat2Z.id, Hcell.
    destruct (Z.ltb_spec 0 (Z.of_nat (S n))); [|lia].
    rewrite (take_S_r _ _ _ Hcell).
    rewrite drop_app_le by (rewrite length_take; lia).
    rewrite rev_unit.
    replace (Z.of_nat (S n) - 1) with (Z.of_nat n) by lia.
    destruct cell; cbn [isNullish andb emptyRun]; try lia.
    rewrite IH by lia. lia.
Qed.

Lemma RoadShape_idx r lane l :
  RoadShape r -> idx (roadSpace r) lane = Some l -> len l = ROAD_WIDTH.
Proof.
  unfold RoadShape, idx. intros Hshape.
  destruct (lane <? 0); [done|]. intros Hl.
  rewrite Forall_forall in Hshape. apply Hshape.
  by eapply list_elem_of_lookup_2.
Qed.

(** [getLeftOpenSpaces] for a car on the road, beyond lane 0. *)
Lemma getLeftOpenSpaces_survey r lane x left :
  RoadShape r -> 0 < lane < len (roadSpace r) -> 0 <= x < ROAD_WIDTH ->
  idx (roadSpace r) (lane - 1) = Some left ->
  getLeftOpenSpaces r lane x
  = let '(ahead, beside, behind) := surveyAsCoded left x in
    SpacesObj ahead beside behind.
Proof.
  intros Hshape Hlane Hx Hleft.
  destruct (idx_is_Some (roadSpace r) lane) as [l Hl]; [lia|].
  pose proof (RoadShape_idx _ _ _ Hshape Hl) as Hlen.
  pose proof (RoadShape_idx _ _ _ Hshape Hleft) as Hlenl.
  unfold getLeftOpenSpaces, surveyAsCoded, getLaneData.
  rewrite Hl, Hleft, Hlenl, Hlen.
  destruct (Z.leb_spec lane 0); [lia|].
  rewrite Z.eqb_refl. cbn [negb].
  destruct (Z.geb_spec x (ROAD_WIDTH - 1));
    destruct (Z.ltb_spec x (ROAD_WIDTH - 1)); try lia; [done|].
  cbn [andb]. destruct (isNullish (idx left x)); [|done].
  unfold getDistance, getLaneData. rewrite Hleft, Hlenl.
  destruct (Z.geb_spec (x + 1) ROAD_WIDTH); [lia|].
  unfold cellsAhead.
  assert (Hahead :
    getDistance_loop (Z.to_nat (ROAD_WIDTH - (x + 1))) r left All (x + 1) 0
    = if emptyRun (drop (Z.to_nat (x + 1)) left)
         =? len (drop (Z.to_nat (x + 1)) left)
      then 100 else 0 + emptyRun (drop (Z.to_nat (x + 1)) left)).
  { rewrite <- (Z2Nat.id (x + 1)) at 2 by lia.
    apply getDistance_loop_All. unfold len, ROAD_WIDTH in *. lia. }
  assert (Hbehind :
    behind_loop (Z.to_nat x) left x 0
    = 0 + emptyRun (rev (drop 1 (take (Z.to_nat (x + 1)) left)))).
  { rewrite <- (Z2Nat.id x) at 2 by lia.
    rewrite behind_loop_run by (unfold len, ROAD_WIDTH in *; lia).
    by replace (S (Z.to_nat x)) with (Z.to_nat (x + 1)) by lia. }
  rewrite Hahead, Hbehind.
  pose proof (emptyRun_bounds (drop (Z.to_nat (x + 1)) left)) as Hb.
  destruct (_ =? _); [done|].
  destruct (Z.geb_spec (0 + emptyRun (drop (Z.to_nat (x + 1)) left)) 0);
    [|lia].
  by rewrite !Z.add_0_l.
Qed.

(** C3: for a car on a road of full-width lanes, [canMerge] holds exactly
    when ahead + behind + beside reaches the desired merge space, with the
    three quantities as [getLeftOpenSpaces] takes them: all zero in lane 0,
    in the last column and beside a non-empty cell; otherwise beside is 1,
    ahead is the empty run up to the first obstacle ahead of the beside cell
    or the far value 100 when the left lane is clear to its end, and behind
    is the empty run counted backwards from the beside cell itself, column 0
    left out. *)
Theorem canMerge_iff_surveyed_space c r :
  RoadShape r -> OnRoad c r ->
  exists ahead beside behind,
    getLeftOpenSpaces r (laneNumber c) (lanePosX c)
    = SpacesObj ahead beside behind /\
    (canMerge c r = true
     <-> (desiredSpaces c r <= inject_Z (ahead + behind + beside))%Q) /\
    (laneNumber c = 0 -> ahead = 0 /\ beside = 0 /\ behind = 0) /\
    (0 < laneNumber c ->
     exists left,
       getLaneData r (laneNumber c - 1) = Some left /\
       (ahead, beside, behind) = surveyAsCoded left (lanePosX c)).
Proof.
  intros Hshape [Hlane Hx].
  assert (Hiff : forall a b h,
    getLeftOpenSpaces r (laneNumber c) (lanePosX c) = SpacesObj a b h ->
    canMerge c r = true <-> (desiredSpaces c r <= inject_Z (a + h + b))%Q).
  { intros a b h Hsp. rewrite canMerge_spacesSuffice, Hsp. cbn.
    destruct (Qleb _ _) eqn:E.
    - apply Qleb_le in E. done.
    - apply Qleb_gt in E. split; [done|]. intros Hle. exfalso.
      eapply Qlt_not_le; eauto. }
  destruct (decide (laneNumber c = 0)) as [H0|H0].
  - exists 0, 0, 0.
    assert (Hsp : getLeftOpenSpaces r (laneNumber c) (lanePosX c)
                  = SpacesObj 0 0 0).
    { unfold getLeftOpenSpaces, getLaneData.
      destruct (idx_is_Some (roadSpace r) (laneNumber c)) as [l ->]; [lia|].
      by rewrite H0. }
    split; [done|]. split; [by apply Hiff|]. split; [done|lia].
  - destruct (idx_is_Some (roadSpace r) (laneNumber c - 1)) as [left Hleft];
      [lia|].
    pose proof (getLeftOpenSpaces_survey r (laneNumber c) (lanePosX c) left
                  Hshape ltac:(lia) Hx Hleft) as Hsp.
    destruct (surveyAsCoded left (lanePosX c)) as [[a b] h] eqn:Hsurvey.
    exists a, b, h. split; [done|]. split; [by apply Hiff|].
    split; [lia|]. intros _. exists left. by rewrite Hsurvey.
Qed.

Lemma canMerge_iff_surveyed_space_witness :
  exists ahead beside behind,
    getLeftOpenSpaces roadGapOfTwo 1 5 = SpacesObj ahead beside behind /\
    (canMerge (carWantsFive 1 5) roadGapOfTwo = true
     <-> (desiredSpaces (carWantsFive 1 5) roadGapOfTwo
          <= inject_Z (ahead + behind + beside))%Q).
Proof.
  destruct (canMerge_iff_surveyed_space (carWantsFive 1 5) roadGapOfTwo)
    as (a & b & h & Hsp & Hiff & _).
  - repeat constructor.
  - repeat split; discriminate.
  - exists a, b, h. split; [exact Hsp | exact Hiff].
Defined.

(** The claim of C3 with the runs as worded (strictly ahead of and strictly
    behind the beside cell) fails: on [roadGapOfTwo] the car asks for five
    cells; the left lane has two empty cells ahead of the beside cell and one
    behind it, which with the beside cell makes four, yet [canMerge] holds,
    the backward count having taken the beside cell once more. *)
Lemma canMerge_counts_beside_twice :
  0 < laneNumber (carWantsFive 1 5) /\
  surveyAsWorded (<[8%nat := Ref 1]> (<[3%nat := Ref 2]> emptyLane)) 5
  = (2, 1, 1) /\
  (desiredSpaces (carWantsFive 1 5) roadGapOfTwo == 5)%Q /\
  ~ (desiredSpaces (carWantsFive 1 5) roadGapOfTwo <= inject_Z (2 + 1 + 1))%Q /\
  canMerge (carWantsFive 1 5) roadGapOfTwo = true.
Proof.
  split; [reflexivity|]. split; [reflexivity|]. split; [reflexivity|].
  split; [|reflexivity]. intros H. vm_compute in H. by apply H.
Qed.

(** ** The grid invariant through the operations *)

Lemma RoadShape_setCell rs lane x v :
  Forall (fun l => len l = ROAD_WIDTH) rs ->
  Forall (fun l => len l = ROAD_WIDTH) (setCell rs lane x v).
Proof.
  intros Hshape. unfold setCell.
  destruct (idx rs lane) as [l|] eqn:Hl; [|done].
  unfold setIdx at 1. destruct (lane <? 0) eqn:E; [done|].
  apply Forall_insert; [done|].
  rewrite len_setIdx. revert Hl. unfold idx. rewrite E. intros Hl.
  rewrite Forall_forall in Hshape. apply Hshape.
  by eapply list_elem_of_lookup_2.
Qed.

Lemma cellAt_range r lane x v :
  RoadShape r -> cellAt (roadSpace r) lane x = Some v ->
  0 <= lane < len (roadSpace r) /\ 0 <= x < ROAD_WIDTH.
Proof.
  intros Hshape Hcell. apply cellAt_Some in Hcell as (l & Hl & Hx).
  pose proof (RoadShape_idx _ _ _ Hshape Hl) as Hlen.
  apply idx_Some in Hl. apply idx_Some in Hx. lia.
Qed.

Lemma cellAt_in_range r lane x :
  RoadShape r -> 0 <= lane < len (roadSpace r) -> 0 <= x < ROAD_WIDTH ->
  is_Some (cellAt (roadSpace r) lane x).
Proof.
  intros Hshape Hlane Hx. unfold cellAt.
  destruct (idx_is_Some (roadSpace r) lane Hlane) as [l Hl]. rewrite Hl.
  apply idx_is_Some. by rewrite (RoadShape_idx _ _ _ Hshape Hl).
Qed.

Lemma WellFormed_OnRoad t r id c :
  WellFormed t r -> id ∈ cars r -> heap r !! id = Some c -> OnRoad c r.
Proof.
  intros Hwf Hin Hc. destruct (wf_car _ _ Hwf id Hin) as (c' & Hc' & Hcell).
  assert (c' = c) as -> by congruence.
  eapply cellAt_range; [apply Hwf | exact Hcell].
Qed.

Lemma WellFormed_mono t t' r : WellFormed t r -> t <= t' -> WellFormed t' r.
Proof.
  intros [Hs Hn Hc Hcell Hsize Hp] Hle. constructor; try done.
  intros id c Hin Hh. destruct (Hp id c Hin Hh) as (? & ? & Hlm).
  repeat split; try done. intros lm Hl. specialize (Hlm lm Hl). lia.
Qed.

Lemma WellFormed_sameCore t r r' :
  WellFormed t r -> sameCoreRoad r r' -> WellFormed t r'.
Proof.
  intros [Hs Hn Hc Hcell Hsize Hp] (Hrs & Hcars & Hsz & Hheap).
  constructor.
  - unfold RoadShape. by rewrite Hrs.
  - by rewrite Hcars.
  - intros id Hin. rewrite Hcars in Hin.
    destruct (Hc id Hin) as (c & Hh & Hcl).
    specialize (Hheap id). rewrite Hh in Hheap.
    inversion Hheap as [? c' (Hl & Hx & _) |]; subst.
    exists c'. split; [done|]. by rewrite Hrs, Hl, Hx.
  - intros lane x id Hcl. rewrite Hrs in Hcl.
    destruct (Hcell lane x id Hcl) as (Hin & c & Hh & Hl & Hx).
    rewrite Hcars. split; [done|].
    specialize (Hheap id). rewrite Hh in Hheap.
    inversion Hheap as [? c' (Hl' & Hx' & _) |]; subst.
    exists c'. split; [done|]. split; congruence.
  - rewrite Hrs, Hsz. done.
  - intros id c' Hin Hh'. rewrite Hcars in Hin.
    specialize (Hheap id). rewrite Hh' in Hheap.
    inversion Hheap as [c ? (Hl & Hx & Hsp & Hd & Hlm) Hh|]; subst.
    symmetry in Hh. destruct (Hp id c Hin Hh) as (Hp1 & Hp2 & Hp3).
    unfold desiredLaneX, getSpaceSize in *.
    rewrite Hsp, Hx, Hd, Hsz, Hlm. done.
Qed.


(** A car object is replaced by one at the same place. *)
Lemma WellFormed_update t r id c c' :
  WellFormed t r -> heap r !! id = Some c ->
  laneNumber c' = laneNumber c -> lanePosX c' = lanePosX c ->
  (id ∈ cars r ->
   (0 <= speed c')%Q /\ lanePosX c' <= desiredLaneX c' r /\
   (forall lm, lastMoved c' = Some lm -> lm <= t)) ->
  WellFormed t (withHeap (<[id := c']> (heap r)) r).
Proof.
  intros [Hs Hn Hc Hcell Hsize Hp] Hh Hl Hx Hprog. constructor; cbn; try done.
  - intros k Hin. destruct (decide (k = id)) as [->|Hne].
    + rewrite lookup_insert_eq. exists c'. split; [done|].
      destruct (Hc id Hin) as (c0 & Hh0 & Hcl).
      assert (c0 = c) as -> by congruence. by rewrite Hl, Hx.
    + rewrite lookup_insert_ne by done. auto.
  - intros lane x k Hcl. destruct (Hcell lane x k Hcl) as (Hin & c0 & Hh0 & ?).
    split; [done|]. destruct (decide (k = id)) as [->|Hne].
    + rewrite lookup_insert_eq. exists c'. split; [done|].
      assert (c0 = c) as -> by congruence. lia.
    + rewrite lookup_insert_ne by done. eauto.
  - intros k ck Hin. destruct (decide (k = id)) as [->|Hne].
    + rewrite lookup_insert_eq. intros [= <-]. by apply Hprog.
    + rewrite lookup_insert_ne by done. intros Hk.
      destruct (Hp k ck Hin Hk) as (? & ? & ?). done.
Qed.

(** A listed car is moved to an empty cell no further than its distance
    allows. *)
Lemma WellFormed_move t r id c lane x :
  WellFormed t r -> id ∈ cars r -> heap r !! id = Some c ->
  cellAt (roadSpace r) lane x = Some Null ->
  x <= desiredLaneX c r ->
  WellFormed t
    (updCar id (setLanePos lane x)
       (withRoadSpace
          (setCell (setCell (roadSpace r) (laneNumber c) (lanePosX c) Null)
                   lane x (Ref id)) r)).
Proof.
  intros Hwf Hin Hh Hdest Hx.
  destruct (wf_car _ _ Hwf id Hin) as (c0 & Hh0 & Hcur).
  assert (c0 = c) as -> by congruence. clear Hh0.
  assert (Hne : (laneNumber c, lanePosX c) <> (lane, x)).
  { intros [= <- <-]. congruence. }
  set (rs1 := setCell (roadSpace r) (laneNumber c) (lanePosX c) Null).
  assert (Hdest1 : cellAt rs1 lane x = Some Null).
  { subst rs1. by rewrite cellAt_setCell_ne. }
  assert (Hnew : forall lane' x',
    cellAt (setCell rs1 lane x (Ref id)) lane' x'
    = if decide ((lane', x') = (lane, x)) then Some (Ref id)
      else if decide ((lane', x') = (laneNumber c, lanePosX c)) then Some Null
      else cellAt (roadSpace r) lane' x').
  { intros lane' x'.
    destruct (decide ((lane', x') = (lane, x))) as [[= -> ->]|H1].
    - apply cellAt_setCell_eq. by rewrite Hdest1.
    - rewrite cellAt_setCell_ne by congruence. subst rs1.
      destruct (decide ((lane', x') = (laneNumber c, lanePosX c)))
        as [[= -> ->]|H2].
      + apply cellAt_setCell_eq. by rewrite Hcur.
      + by rewrite cellAt_setCell_ne by congruence. }
  destruct Hwf as [Hs Hn Hc Hcell Hsize Hp]. constructor; cbn [roadSpace cars
    spaceSize heap updCar withRoadSpace withHeap].
  - unfold RoadShape; cbn. by do 2 apply RoadShape_setCell.
  - done.
  - intros k Hk. destruct (decide (k = id)) as [->|Hkid].
    + rewrite lookup_alter_eq, Hh. cbn. eexists; split; [done|]. cbn.
      rewrite Hnew. by rewrite decide_True.
    + rewrite lookup_alter_ne by done.
      destruct (Hc k Hk) as (ck & Hck & Hclk). exists ck. split; [done|].
      rewrite Hnew.
      rewrite decide_False by (intros [= ? ?]; congruence).
      rewrite decide_False by (intros [= ? ?]; congruence). done.
  - intros lane' x' k. rewrite Hnew.
    destruct (decide ((lane', x') = (lane, x))) as [[= -> ->]|H1].
    + intros [= <-]. split; [done|].
      rewrite lookup_alter_eq, Hh. cbn. eauto.
    + destruct (decide _) as [|H2]; [done|]. intros Hcl.
      destruct (Hcell lane' x' k Hcl) as (Hk & ck & Hck & Hlk & Hxk).
      split; [done|].
      assert (k <> id) by (intros ->; apply H2; congruence).
      rewrite lookup_alter_ne by done. eauto.
  - intros Hrs. apply Hsize. intros Hnil. apply Hrs.
    assert (Hlen : len (setCell rs1 lane x (Ref id)) = len (roadSpace r)).
    { subst rs1. by rewrite !len_setCell. }
    rewrite Hnil in Hlen. unfold len in Hlen.
    destruct (setCell rs1 lane x (Ref id)); [done|]. cbn in Hlen. lia.
  - intros k ck Hk. destruct (decide (k = id)) as [->|Hkid].
    + rewrite lookup_alter_eq, Hh. cbn. intros [= <-].
      destruct (Hp id c Hin Hh) as (? & ? & ?). done.
    + rewrite lookup_alter_ne by done. intros Hck.
      destruct (Hp k ck Hk Hck) as (? & ? & ?). done.
Qed.

Lemma sameCore_refl c : sameCore c c.
Proof. by repeat split. Qed.

Lemma sameCoreRoad_refl r : sameCoreRoad r r.
Proof.
  repeat split; try done. intros k. destruct (heap r !! k); constructor.
  apply sameCore_refl.
Qed.

Lemma sameCoreRoad_updCar r k f :
  (forall c, sameCore c (f c)) -> sameCoreRoad r (updCar k f r).
Proof.
  intros Hf. repeat split; try done. intros j. rewrite updCar_lookup.
  destruct (decide (j = k)) as [->|Hne].
  - destruct (heap r !! k); constructor. apply Hf.
  - destruct (heap r !! j); constructor. apply sameCore_refl.
Qed.

Lemma sameCoreRoad_trans r1 r2 r3 :
  sameCoreRoad r1 r2 -> sameCoreRoad r2 r3 -> sameCoreRoad r1 r3.
Proof.
  intros (Ha1 & Ha2 & Ha3 & Ha) (Hb1 & Hb2 & Hb3 & Hb).
  repeat split; try congruence. intros k.
  specialize (Ha k). specialize (Hb k).
  destruct Ha as [c1 c2 H12|]; inversion Hb as [? c3 H23|]; subst;
    constructor.
  destruct H12 as (? & ? & ? & ? & ?), H23 as (? & ? & ? & ? & ?).
  repeat split; congruence.
Qed.

Lemma sameCore_alertMerge c : sameCore c (alertMerge c).
Proof. by repeat split. Qed.

Lemma sameCoreRoad_alertRearDriver c r lane :
  sameCoreRoad r (alertRearDriver c r lane).
Proof.
  rewrite alertRearDriver_nearest.
  destruct (nearestCarBehind r lane (lanePosX c)).
  - apply sameCoreRoad_updCar, sameCore_alertMerge.
  - apply sameCoreRoad_refl.
Qed.

(** The road after the alerts of a lane change. *)
Lemma sameCoreRoad_alerts id c r lane :
  sameCoreRoad r (updCar id alertMerge (alertRearDriver c r lane)).
Proof.
  eapply sameCoreRoad_trans; [apply sameCoreRoad_alertRearDriver|].
  apply sameCoreRoad_updCar, sameCore_alertMerge.
Qed.

Lemma sameCoreRoad_lookup r r' k c :
  sameCoreRoad r r' -> heap r !! k = Some c ->
  exists c', heap r' !! k = Some c' /\ sameCore c c'.
Proof.
  intros (_ & _ & _ & Hheap) Hc. specialize (Hheap k). rewrite Hc in Hheap.
  inversion Hheap; subst. eauto.
Qed.

(** The bounds guard on the destination: the call is a no-op. *)
Lemma setCarPos_out_of_bounds id c lane x r :
  heap r !! id = Some c ->
  len (roadSpace r) <= lane \/ ROAD_WIDTH <= x ->
  setCarPos id lane x r = (Some (-1), r).
Proof.
  intros Hc Hout. unfold setCarPos. rewrite Hc.
  destruct (Z.geb_spec lane (len (roadSpace r)));
    destruct (Z.geb_spec x ROAD_WIDTH); cbn [orb]; try done. lia.
Qed.

(** A commit onto an empty cell of the grid. *)
Lemma setCarPos_empty t id c lane x r :
  WellFormed t r -> id ∈ cars r -> heap r !! id = Some c ->
  cellAt (roadSpace r) lane x = Some Null ->
  x <= desiredLaneX c r ->
  exists r' c',
    setCarPos id lane x r = (Some 0, r') /\
    WellFormed t r' /\
    cars r' = cars r /\ spaceSize r' = spaceSize r /\
    heap r' !! id = Some c' /\
    laneNumber c' = lane /\ lanePosX c' = x /\
    distance c' = distance c /\
    (forall lane' x',
       cellAt (roadSpace r') lane' x'
       = if decide ((lane', x') = (lane, x)) then Some (Ref id)
         else if decide ((lane', x') = (laneNumber c, lanePosX c))
              then Some Null
              else cellAt (roadSpace r) lane' x').
Proof.
  intros Hwf Hin Hc Hdest Hx.
  pose proof (wf_shape _ _ Hwf) as Hshape.
  destruct (cellAt_range _ _ _ _ Hshape Hdest) as [Hlane HxR].
  destruct (WellFormed_OnRoad _ _ _ _ Hwf Hin Hc) as [Hcl Hcx].
  destruct (wf_car _ _ Hwf id Hin) as (c0 & Hh0 & Hcur).
  assert (c0 = c) as -> by congruence. clear Hh0.
  unfold setCarPos. rewrite Hc.
  destruct (Z.geb_spec lane (len (roadSpace r))) as [|_]; [lia|].
  destruct (Z.geb_spec x ROAD_WIDTH) as [|_]; [lia|]. cbn [orb].
  destruct (Z.geb_spec (laneNumber c) (len (roadSpace r))) as [|_]; [lia|].
  destruct (Z.geb_spec (lanePosX c) ROAD_WIDTH) as [|_]; [lia|]. cbn [orb].
  set (r1 := if negb (laneNumber c =? lane)
             then updCar id alertMerge (alertRearDriver c r lane) else r).
  assert (Hsame : sameCoreRoad r r1).
  { subst r1. destruct (negb _);
      [apply sameCoreRoad_alerts | apply sameCoreRoad_refl]. }
  pose proof (WellFormed_sameCore _ _ _ Hwf Hsame) as Hwf1.
  destruct (sameCoreRoad_lookup _ _ _ _ Hsame Hc)
    as (c1 & Hh1 & Hl1 & Hx1 & Hsp1 & Hd1 & Hlm1).
  destruct Hsame as (Hrs & Hcars & Hsz & Hheap).
  assert (Hne : (laneNumber c, lanePosX c) <> (lane, x)).
  { intros [= <- <-]. congruence. }
  cbn [roadSpace withRoadSpace]. rewrite Hrs.
  rewrite cellAt_setCell_ne by done. rewrite Hdest. cbn [isNullish negb].
  eexists _, (setLanePos lane x c1). split; [reflexivity|].
  assert (Hin1 : id ∈ cars r1) by (by rewrite Hcars).
  assert (Hdest1 : cellAt (roadSpace r1) lane x = Some Null)
    by (by rewrite Hrs).
  assert (Hx1' : x <= desiredLaneX c1 r1).
  { unfold desiredLaneX, getSpaceSize in *. by rewrite Hd1, Hsz. }
  pose proof (WellFormed_move _ _ _ _ _ _ Hwf1 Hin1 Hh1 Hdest1 Hx1') as Hwf2.
  rewrite Hrs, Hl1, Hx1 in Hwf2.
  split; [exact Hwf2|].
  split; [done|]. split; [done|].
  split; [by rewrite updCar_lookup_eq with (c := c1)|].
  split; [done|]. split; [done|]. split; [done|].
  intros lane' x'. cbn [roadSpace updCar withHeap withRoadSpace].
  destruct (decide ((lane', x') = (lane, x))) as [[= -> ->]|Hd1'].
  - apply cellAt_setCell_eq. rewrite cellAt_setCell_ne by done.
    by rewrite Hdest.
  - rewrite cellAt_setCell_ne by congruence.
    destruct (decide ((lane', x') = (laneNumber c, lanePosX c)))
      as [[= -> ->]|Hd2'].
    + apply cellAt_setCell_eq. by rewrite Hcur.
    + by rewrite cellAt_setCell_ne by congruence.
Qed.

(** [merge] of a listed car keeps the road well formed. *)
Lemma merge_WellFormed t id r :
  WellFormed t r -> id ∈ cars r ->
  WellFormed t (merge id r) /\
  cars (merge id r) = cars r /\ spaceSize (merge id r) = spaceSize r /\
  (forall c, heap r !! id = Some c ->
     exists c', heap (merge id r) !! id = Some c' /\
                lanePosX c' = lanePosX c /\ distance c' = distance c).
Proof.
  intros Hwf Hin. unfold merge.
  destruct (wf_car _ _ Hwf id Hin) as (c & Hc & _). rewrite Hc.
  assert (Hsame : forall c0, Some c = Some c0 ->
     exists c', heap r !! id = Some c' /\
                lanePosX c' = lanePosX c0 /\ distance c' = distance c0).
  { intros ? [= <-]. eauto. }
  destruct (Z.ltb_spec (laneNumber c - 1) 0) as [|Hge]; [done|].
  destruct (WellFormed_OnRoad _ _ _ _ Hwf Hin Hc) as [Hcl Hcx].
  destruct (cellAt_in_range r (laneNumber c - 1) (lanePosX c))
    as [cell Hdest]; [apply Hwf | lia | lia |].
  rewrite Hdest.
  destruct cell as [| |k]; cbn [isNullish]; try done.
  destruct (wf_progress _ _ Hwf id c Hin Hc) as (_ & Hx & _).
  destruct (setCarPos_empty _ _ _ _ _ _ Hwf Hin Hc Hdest Hx)
    as (r' & c' & -> & Hwf' & Hcars & Hsz & Hc' & _ & Hx' & Hd' & _).
  cbn [snd]. split; [done|]. split; [done|]. split; [done|].
  intros ? [= <-]. eauto.
Qed.

(** ** Car.drive *)

Lemma updCar_insert id f r c :
  heap r !! id = Some c ->
  updCar id f r = withHeap (<[id := f c]> (heap r)) r.
Proof.
  intros Hc. unfold updCar. f_equal. apply map_eq. intros k.
  destruct (decide (k = id)) as [->|Hne].
  - by rewrite lookup_alter_eq, lookup_insert_eq, Hc.
  - by rewrite lookup_alter_ne, lookup_insert_ne.
Qed.

Lemma withHeap_same id r c :
  heap r !! id = Some c -> withHeap (<[id := c]> (heap r)) r = r.
Proof.
  intros Hc. destruct r; cbn in *. unfold withHeap; cbn. f_equal.
  by apply insert_id.
Qed.

Lemma withHeap_insert_insert id c1 c2 h r :
  withHeap (<[id := c2]> (heap (withHeap (<[id := c1]> h) r)))
           (withHeap (<[id := c1]> h) r)
  = withHeap (<[id := c2]> h) r.
Proof. unfold withHeap; cbn. f_equal. apply insert_insert_eq. Qed.

Lemma adjustSpeedBy_speed d c :
  (0 <= speed (adjustSpeedBy d c) <= MAX_SPEED)%Q.
Proof.
  unfold adjustSpeedBy.
  destruct (Qleb MAX_SPEED (speed c + d)) eqn:E1; cbn.
  - split; [discriminate | apply Qle_refl].
  - destruct (Qleb (speed c + d) 0) eqn:E2; cbn.
    + split; [apply Qle_refl | discriminate].
    + apply Qleb_gt in E1, E2. split; by apply Qlt_le_weak.
Qed.

Lemma effectSpeed_local id r c :
  heap r !! id = Some c ->
  exists c', effectSpeed id r = withHeap (<[id := c']> (heap r)) r /\
    (c' = c \/ exists d, c' = adjustSpeedBy d c).
Proof.
  intros Hc. unfold effectSpeed. rewrite Hc.
  destruct (speedDifference c r) as [d|].
  - exists (adjustSpeedBy d c). split; [by apply updCar_insert | eauto].
  - exists c. split; [by rewrite withHeap_same | auto].
Qed.

Lemma effectMergeState_local id r c :
  heap r !! id = Some c ->
  exists c', effectMergeState id r = withHeap (<[id := c']> (heap r)) r /\
    (c' = c \/ exists s, c' = setState s c).
Proof.
  intros Hc. unfold effectMergeState. rewrite Hc.
  destruct (Qleb _ 0); destruct (negb _);
    first [ exists c; split; [by rewrite withHeap_same | auto]
          | eexists; split; [by apply updCar_insert | eauto] ].
Qed.

(** [drive] before its merge decision rewrites the car object in place:
    the place, the traits and the counter stay, the distance grows by the
    speed times the elapsed time, the speed stays non-negative, the
    timestamp is the clock, and the indicator mirrors the Merge state. *)
Lemma driveUpdate_spec now id lm r c :
  heap r !! id = Some c ->
  exists c5,
    driveUpdate now id lm r = withHeap (<[id := c5]> (heap r)) r /\
    laneNumber c5 = laneNumber c /\ lanePosX c5 = lanePosX c /\
    aggressiveness c5 = aggressiveness c /\
    distance c5 = (distance c + speed c * (inject_Z (now - lm) / 1000))%Q /\
    ((0 <= speed c)%Q -> (0 <= speed c5)%Q) /\
    lastMoved c5 = Some now /\
    indicator c5 = State_eqb (state c5) Merge.
Proof.
  intros Hc. unfold driveUpdate.
  rewrite (updCar_insert _ _ _ _ Hc).
  set (c1 := setDistance _ c).
  destruct (effectSpeed_local id (withHeap (<[id := c1]> (heap r)) r) c1)
    as (c2 & -> & H2); [apply lookup_insert_eq|].
  rewrite withHeap_insert_insert.
  destruct (effectMergeState_local id (withHeap (<[id := c2]> (heap r)) r) c2)
    as (c3 & -> & H3); [apply lookup_insert_eq|].
  rewrite withHeap_insert_insert.
  rewrite (updCar_insert id (setLastMoved now) _ c3)
    by apply lookup_insert_eq.
  rewrite withHeap_insert_insert.
  rewrite (updCar_insert _ _ _ (setLastMoved now c3))
    by apply lookup_insert_eq.
  rewrite withHeap_insert_insert.
  eexists. split; [reflexivity|].
  assert (Hc2 : laneNumber c2 = laneNumber c /\ lanePosX c2 = lanePosX c /\
                aggressiveness c2 = aggressiveness c /\
                distance c2 = distance c1 /\
                ((0 <= speed c)%Q -> (0 <= speed c2)%Q)).
  { destruct H2 as [->|[d ->]]; [by repeat split|].
    unfold adjustSpeedBy.
    repeat split; try (by repeat destruct (Qleb _ _)).
    intros _. apply (adjustSpeedBy_speed d c1). }
  assert (Hc3 : laneNumber c3 = laneNumber c2 /\ lanePosX c3 = lanePosX c2 /\
                aggressiveness c3 = aggressiveness c2 /\
                distance c3 = distance c2 /\ speed c3 = speed c2).
  { by destruct H3 as [->|[s ->]]. }
  destruct Hc2 as (? & ? & ? & ? & ?), Hc3 as (? & ? & ? & ? & Hs3).
  cbn. repeat split; try congruence.
  - transitivity (distance c1); [congruence | done].
  - rewrite Hs3. done.
Qed.

Lemma desiredLaneX_nonneg c r : 0 <= desiredLaneX c r.
Proof.
  unfold desiredLaneX.
  destruct (Z.ltb_spec (Qfloor (distance c / getSpaceSize r) - 1) 0); lia.
Qed.

Lemma desiredLaneX_mono c c' r :
  (0 < spaceSize r)%Q -> (distance c <= distance c')%Q ->
  desiredLaneX c r <= desiredLaneX c' r.
Proof.
  intros Hs Hd. unfold desiredLaneX, getSpaceSize.
  assert (Hf : Qfloor (distance c / spaceSize r)
               <= Qfloor (distance c' / spaceSize r)).
  { apply Qfloor_resp_le. unfold Qdiv. apply Qmult_le_compat_r; [done|].
    apply Qlt_le_weak, Qinv_lt_0_compat, Hs. }
  destruct (Z.ltb_spec (Qfloor (distance c / spaceSize r) - 1) 0);
    destruct (Z.ltb_spec (Qfloor (distance c' / spaceSize r) - 1) 0); lia.
Qed.

Lemma WellFormed_size t r id :
  WellFormed t r -> id ∈ cars r -> (0 < spaceSize r)%Q.
Proof.
  intros Hwf Hin. apply (wf_size _ _ Hwf).
  destruct (wf_car _ _ Hwf id Hin) as (c & _ & Hcell).
  apply cellAt_Some in Hcell as (l & Hl & _). intros Hnil.
  rewrite Hnil in Hl. unfold idx in Hl. by destruct (_ <? 0).
Qed.

(** [drive] of a listed car keeps the road well formed. *)
Lemma drive_WellFormed t id r :
  WellFormed t r -> id ∈ cars r ->
  WellFormed t (drive t id r) /\
  cars (drive t id r) = cars r /\ spaceSize (drive t id r) = spaceSize r.
Proof.
  intros Hwf Hin. unfold drive.
  destruct (wf_car _ _ Hwf id Hin) as (c & Hc & _). rewrite Hc.
  destruct (wf_progress _ _ Hwf id c Hin Hc) as (Hsp & Hx & Hlm).
  destruct (lastMoved c) as [lm|] eqn:Hlast.
  - destruct (driveUpdate_spec t id lm r c Hc)
      as (c5 & -> & Hl5 & Hx5 & _ & Hd5 & Hs5 & Hlm5 & _).
    assert (Hwf5 : WellFormed t (withHeap (<[id := c5]> (heap r)) r)).
    { apply (WellFormed_update t r id c c5); try done. intros _.
      split; [by apply Hs5|]. split.
      - rewrite Hx5. etransitivity; [exact Hx|].
        apply desiredLaneX_mono; [by eapply WellFormed_size|].
        rewrite Hd5. rewrite <- (Qplus_0_r (distance c)) at 1.
        apply Qplus_le_r. apply Qmult_le_0_compat; [done|].
        specialize (Hlm lm eq_refl).
        apply Qle_shift_div_l; [reflexivity|]. rewrite Qmult_0_l.
        change 0%Q with (inject_Z 0). rewrite <- Zle_Qle. lia.
      - intros ? Hl. rewrite Hlm5 in Hl. injection Hl as <-. lia. }
    cbn [heap withHeap]. rewrite lookup_insert_eq.
    destruct (State_eqb (state c5) Merge && canMerge c5 _); [|done].
    destruct (merge_WellFormed t id _ Hwf5 Hin) as (? & ? & ? & _). done.
  - rewrite (updCar_insert _ _ _ _ Hc). split; [|done].
    apply (WellFormed_update t r id c); try done. intros _.
    split; [done|]. split; [done|]. cbn. intros ? [= <-]. lia.
Qed.

(** ** The forward move *)

Lemma emptyRun_lookup cells (j : nat) :
  Z.of_nat j < emptyRun cells -> cells !! j = Some Null.
Proof.
  revert j. induction cells as [|[| |id] cs IH]; intros j; cbn [emptyRun];
    try lia.
  destruct j as [|j]; [done|]. intros Hj. cbn. apply IH. lia.
Qed.

(** The cells of the free space ahead are empty. *)
Lemma freeAhead_empty r c l k :
  getLaneData r (laneNumber c) = Some l -> 0 <= lanePosX c ->
  lanePosX c < k <= lanePosX c + freeAhead c r ->
  cellAt (roadSpace r) (laneNumber c) k = Some Null.
Proof.
  intros Hl Hx Hk. unfold freeAhead in Hk. rewrite Hl in Hk.
  unfold cellAt. unfold getLaneData in Hl. rewrite Hl.
  unfold idx. destruct (Z.ltb_spec k 0); [lia|].
  pose proof (emptyRun_lookup (cellsAhead l (lanePosX c))
                (Z.to_nat (k - lanePosX c - 1))) as Hrun.
  unfold cellsAhead in *. rewrite lookup_drop in Hrun.
  replace (Z.to_nat (lanePosX c + 1) + Z.to_nat (k - lanePosX c - 1))%nat
    with (Z.to_nat k) in Hrun by lia.
  apply Hrun. lia.
Qed.

Lemma freeAhead_bounds r c l :
  getLaneData r (laneNumber c) = Some l -> len l = ROAD_WIDTH ->
  0 <= lanePosX c < ROAD_WIDTH ->
  0 <= freeAhead c r <= ROAD_WIDTH - 1 - lanePosX c.
Proof.
  intros Hl Hlen Hx. unfold freeAhead. rewrite Hl.
  pose proof (emptyRun_bounds (cellsAhead l (lanePosX c))) as Hb.
  unfold cellsAhead, len in *. rewrite length_drop in Hb. lia.
Qed.

(** The scan of [driveCar] for the space available ahead. *)
Lemma getDistance_All_freeAhead r c l :
  getLaneData r (laneNumber c) = Some l -> len l = ROAD_WIDTH ->
  0 <= lanePosX c < ROAD_WIDTH ->
  getDistance r (laneNumber c) (lanePosX c) All
  = if lanePosX c + 1 >=? ROAD_WIDTH then -2
    else if lanePosX c + freeAhead c r =? ROAD_WIDTH - 1 then 100
    else freeAhead c r.
Proof.
  intros Hl Hlen Hx. unfold getDistance, freeAhead. rewrite Hl, Hlen.
  destruct (Z.geb_spec (lanePosX c + 1) ROAD_WIDTH); [done|].
  unfold cellsAhead.
  rewrite <- (Z2Nat.id (lanePosX c + 1)) at 2 by lia.
  rewrite getDistance_loop_All by (unfold len, ROAD_WIDTH in *; lia).
  unfold len in *. rewrite length_drop.
  set (run := emptyRun _).
  destruct (Z.eqb_spec run (Z.of_nat (length l - Z.to_nat (lanePosX c + 1))));
    destruct (Z.eqb_spec (lanePosX c + run) (ROAD_WIDTH - 1)); lia.
Qed.

(** What [driveCar] does with a listed car of a well-formed road: with
    [c1] the car after its [drive] step, either the car exits (its commit is
    rejected by the bounds guard, the road stays as [drive] left it and the
    car's index is marked), or the commit, if any, succeeds and the car is at
    the nearer of its desired column and the end of the free space ahead. *)
Lemma driveCar_outcome t id r tr :
  WellFormed t r -> id ∈ cars r ->
  exists c1,
    heap (drive t id r) !! id = Some c1 /\
    OnRoad c1 (drive t id r) /\
    lanePosX c1 <= desiredLaneX c1 (drive t id r) /\
    if exitsGrid c1 (drive t id r)
    then driveCar t id (r, tr)
         = (drive t id r, tr ++ [indexOf (cars r) id])
    else exists r2 c2,
        driveCar t id (r, tr) = (r2, tr) /\
        WellFormed t r2 /\ cars r2 = cars r /\
        heap r2 !! id = Some c2 /\
        laneNumber c2 = laneNumber c1 /\
        lanePosX c2
        = Z.min (desiredLaneX c1 (drive t id r))
                (lanePosX c1 + freeAhead c1 (drive t id r)).
Proof.
  intros Hwf Hin.
  destruct (drive_WellFormed t id r Hwf Hin) as (Hwf1 & Hcars1 & Hsz1).
  assert (Hin1 : id ∈ cars (drive t id r)) by (by rewrite Hcars1).
  destruct (wf_car _ _ Hwf id Hin) as (c & Hc & _).
  destruct (wf_car _ _ Hwf1 id Hin1) as (c1 & Hc1 & Hcell1).
  destruct (wf_progress _ _ Hwf1 id c1 Hin1 Hc1) as (_ & Hx1 & _).
  pose proof (WellFormed_OnRoad _ _ _ _ Hwf1 Hin1 Hc1) as Hon.
  exists c1. split; [done|]. split; [done|]. split; [done|].
  destruct Hon as [Hlane HxR].
  destruct (idx_is_Some (roadSpace (drive t id r)) (laneNumber c1) Hlane)
    as [l Hl].
  pose proof (RoadShape_idx _ _ _ (wf_shape _ _ Hwf1) Hl) as Hlen.
  pose proof (freeAhead_bounds _ _ _ Hl Hlen HxR) as Hfree.
  pose proof (getDistance_All_freeAhead _ _ _ Hl Hlen HxR) as Hscan.
  unfold driveCar. rewrite Hc, Hc1.
  unfold exitsGrid, safeLaneX. rewrite Hscan.
  set (r1 := drive t id r) in *.
  set (desired := desiredLaneX c1 r1) in *.
  set (free := freeAhead c1 r1) in *.
  unfold ROAD_WIDTH in *.
  assert (Hstay : forall x,
    x = lanePosX c1 ->
    exists r2 c2,
    (r1, tr) = (r2, tr) /\ WellFormed t r2 /\ cars r2 = cars r /\
    heap r2 !! id = Some c2 /\ laneNumber c2 = laneNumber c1 /\
    lanePosX c2 = x) by (intros ? ->; exists r1, c1; done).
  destruct (Z.eqb_spec desired (lanePosX c1)) as [Hdx|Hdx]; cbn [negb].
  { destruct (Z.leb_spec 50 desired); [lia|]. cbn [andb].
    apply Hstay. lia. }
  destruct (Z.geb_spec (lanePosX c1 + 1) 50) as [Hlast|Hlast].
  { (* the last column *)
    assert (Hx49 : lanePosX c1 = 49) by lia.
    change (-2 <? 0) with true. cbn iota.
    destruct (Z.eqb_spec (Z.min desired (lanePosX c1 + 50)) (lanePosX c1));
      [lia|]. cbn [negb].
    rewrite (setCarPos_out_of_bounds id c1) by (done || unfold ROAD_WIDTH; lia).
    destruct (Z.leb_spec 50 desired); [|lia].
    destruct (Z.eqb_spec (lanePosX c1 + free) (50 - 1)); [|lia]. done. }
  assert (Hgo : forall x,
    lanePosX c1 < x <= lanePosX c1 + free -> x <= desired ->
    x = Z.min desired (lanePosX c1 + free) ->
    exists r2 c2,
      (let '(result, r2) := setCarPos id (laneNumber c1) x r1 in
       match result with
       | Some (-1) => (r2, tr ++ [indexOf (cars r) id])
       | _ => (r2, tr)
       end) = (r2, tr) /\
      WellFormed t r2 /\ cars r2 = cars r /\
      heap r2 !! id = Some c2 /\ laneNumber c2 = laneNumber c1 /\
      lanePosX c2 = Z.min desired (lanePosX c1 + free)).
  { intros x Hx Hxd Hxm.
    assert (Hcell : cellAt (roadSpace r1) (laneNumber c1) x = Some Null).
    { eapply freeAhead_empty; eauto. lia. }
    destruct (setCarPos_empty t id c1 (laneNumber c1) x r1 Hwf1 Hin1 Hc1
                Hcell Hxd)
      as (r2 & c2 & -> & Hwf2 & Hcars2 & _ & Hc2 & Hl2 & Hx2 & _).
    exists r2, c2. split; [reflexivity|]. split; [done|].
    split; [congruence|]. split; [done|]. split; [done|]. lia. }
  destruct (Z.eqb_spec (lanePosX c1 + free) (50 - 1)) as [Hclear|Hclear].
  { (* the lane is clear to its end *)
    change (100 <? 0) with false. cbn iota.
    destruct (Z.eqb_spec (Z.min desired (lanePosX c1 + 100)) (lanePosX c1));
      [lia|]. cbn [negb].
    destruct (Z.leb_spec 50 desired) as [Hout|Hin50]; cbn [andb].
    - rewrite (setCarPos_out_of_bounds id c1)
        by (done || unfold ROAD_WIDTH; lia). done.
    - replace (Z.min desired (lanePosX c1 + 100)) with desired by lia.
      apply Hgo; lia. }
  (* an obstacle ahead *)
  destruct (Z.ltb_spec free 0); [lia|].
  destruct (Z.eqb_spec (Z.min desired (lanePosX c1 + free)) (lanePosX c1))
    as [H0|H0]; cbn [negb].
  - destruct (Z.leb_spec 50 desired); cbn [andb]; apply Hstay; lia.
  - destruct (Z.leb_spec 50 desired); cbn [andb]; apply Hgo; lia.
Qed.

(** ** The tick *)

Lemma insertSorted_Permutation {A} (cmp : A -> A -> Z) x l :
  insertSorted cmp x l ≡ₚ x :: l.
Proof.
  induction l as [|y l IH]; cbn; [done|].
  destruct (cmp x y <=? 0); [done|]. rewrite IH. apply Permutation_swap.
Qed.

Lemma sortBy_Permutation {A} (cmp : A -> A -> Z) l : sortBy cmp l ≡ₚ l.
Proof.
  unfold sortBy. induction l as [|x l IH]; cbn; [done|].
  by rewrite insertSorted_Permutation, IH.
Qed.

Lemma indexOf_from_spec l x i :
  x ∈ l ->
  i <= indexOf_from l x i < i + len l /\
  l !! Z.to_nat (indexOf_from l x i - i) = Some x.
Proof.
  unfold len. revert i. induction l as [|y l IH]; intros i Hin.
  - by apply not_elem_of_nil in Hin.
  - cbn [indexOf_from length]. destruct (Nat.eqb_spec y x) as [->|Hne].
    + split; [lia|]. by replace (i - i) with 0 by lia.
    + apply elem_of_cons in Hin as [->|Hin]; [done|].
      destruct (IH (i + 1) Hin) as [Hr Hl]. split; [lia|].
      replace (Z.to_nat (indexOf_from l x (i + 1) - i))
        with (S (Z.to_nat (indexOf_from l x (i + 1) - (i + 1)))) by lia.
      done.
Qed.

Lemma indexOf_spec l x :
  x ∈ l -> 0 <= indexOf l x < len l /\ idx l (indexOf l x) = Some x.
Proof.
  intros Hin. destruct (indexOf_from_spec l x 0 Hin) as [Hr Hl].
  unfold indexOf, idx. split; [lia|].
  destruct (Z.ltb_spec (indexOf_from l x 0) 0); [lia|].
  by rewrite Z.sub_0_r in Hl.
Qed.

Lemma indexOf_inj l x y :
  x ∈ l -> y ∈ l -> indexOf l x = indexOf l y -> x = y.
Proof.
  intros Hx Hy Heq.
  destruct (indexOf_spec l x Hx) as [_ H1].
  destruct (indexOf_spec l y Hy) as [_ H2]. congruence.
Qed.

Lemma WellFormed_bookkeeping t r ts cc :
  WellFormed t r -> WellFormed t (withCompleted cc (withTrails ts r)).
Proof. intros [? ? ? ? ? ?]. by constructor. Qed.

Lemma NoDup_delete_elem (l : list nat) i x k :
  NoDup l -> l !! i = Some x -> k ∈ delete i l <-> k ∈ l /\ k <> x.
Proof.
  intros Hnd Hi.
  rewrite <- (take_drop_middle l i x Hi) in Hnd.
  rewrite <- (take_drop_middle l i x Hi) at 2.
  rewrite delete_take_drop.
  apply NoDup_app in Hnd as (_ & Hn1 & Hn2).
  apply NoDup_cons in Hn2 as [Hn2 _].
  rewrite !elem_of_app, elem_of_cons. split.
  - intros [Hk|Hk]; (split; [tauto|]); intros ->.
    + apply (Hn1 x Hk). left.
    + done.
  - intros [[Hk|[->|Hk]] Hne]; tauto.
Qed.

(** The grid, the list and the store after the removal of the car at a
    valid index. *)
Lemma WellFormed_remove t r i id c :
  WellFormed t r -> cars r !! i = Some id -> heap r !! id = Some c ->
  WellFormed t
    (withCars (delete i (cars r))
       (withRoadSpace
          (setCell (roadSpace r) (laneNumber c) (lanePosX c) Null) r)).
Proof.
  intros Hwf Hi Hc.
  assert (Hin : id ∈ cars r) by (by eapply list_elem_of_lookup_2).
  destruct (wf_car _ _ Hwf id Hin) as (c0 & Hc0 & Hcur).
  assert (c0 = c) as -> by congruence. clear Hc0.
  assert (Hnew : forall lane' x',
    cellAt (setCell (roadSpace r) (laneNumber c) (lanePosX c) Null) lane' x'
    = if decide ((lane', x') = (laneNumber c, lanePosX c)) then Some Null
      else cellAt (roadSpace r) lane' x').
  { intros lane' x'. destruct (decide _) as [[= -> ->]|Hne].
    - apply cellAt_setCell_eq. by rewrite Hcur.
    - by rewrite cellAt_setCell_ne by congruence. }
  destruct Hwf as [Hs Hn Hcar Hcell Hsize Hp].
  constructor; cbn [roadSpace cars spaceSize heap withCars withRoadSpace].
  - unfold RoadShape; cbn. by apply RoadShape_setCell.
  - rewrite delete_take_drop.
    rewrite <- (take_drop_middle _ _ _ Hi) in Hn.
    apply NoDup_app in Hn as (Hn0 & Hn1 & Hn2).
    apply NoDup_cons in Hn2 as [_ Hn2].
    apply NoDup_app. split; [done|]. split; [|done].
    intros x Hx1 Hx2. apply (Hn1 x Hx1). by right.
  - intros k Hk. apply (NoDup_delete_elem _ _ id) in Hk as [Hk Hne]; try done.
    destruct (Hcar k Hk) as (ck & Hck & Hclk). exists ck. split; [done|].
    rewrite Hnew. rewrite decide_False; [done|].
    intros [= Hl Hx]. rewrite Hl, Hx in Hclk. congruence.
  - intros lane' x' k. rewrite Hnew.
    destruct (decide _) as [|Hne]; [done|]. intros Hcl.
    destruct (Hcell lane' x' k Hcl) as (Hk & ck & Hck & Hlk & Hxk).
    split; [|eauto].
    apply (NoDup_delete_elem _ _ id); try done. split; [done|].
    intros ->. apply Hne. congruence.
  - intros Hrs. apply Hsize. intros Hnil. apply Hrs.
    rewrite Hnil. unfold setCell, idx. by destruct (_ <? 0).
  - intros k ck Hk Hck.
    apply (NoDup_delete_elem _ _ id) in Hk as [Hk Hne]; try done.
    destruct (Hp k ck Hk Hck) as (? & ? & ?). done.
Qed.

(** One round of the removal loop, at a non-negative index. *)
Lemma removeCar_WellFormed t now r i :
  WellFormed t r -> 0 <= i -> WellFormed t (removeCar now r i).
Proof.
  intros Hwf Hi. unfold removeCar, splice1, idx.
  destruct (Z.ltb_spec i 0); [lia|].
  destruct (cars r !! Z.to_nat i) as [id|] eqn:Hid.
  - assert (Hin : id ∈ cars r) by (by eapply list_elem_of_lookup_2).
    destruct (wf_car _ _ Hwf id Hin) as (c & Hc & _). rewrite Hc.
    pose proof (WellFormed_remove t r _ id c Hwf Hid Hc) as Hwf'.
    destruct Hwf' as [? ? ? ? ? ?].
    destruct (startTime c) as [st|]; [destruct (truthy _)|];
      by constructor.
  - apply lookup_ge_None in Hid.
    rewrite delete_take_drop, take_ge, drop_ge, app_nil_r by lia.
    destruct Hwf as [? ? ? ? ? ?]. by constructor.
Qed.

Lemma removeCar_cars now r i :
  cars (removeCar now r i) = splice1 (cars r) i.
Proof.
  unfold removeCar. destruct (idx (cars r) i) as [id|]; [|done].
  destruct (heap r !! id) as [c|]; [|done].
  destruct (startTime c); [destruct (truthy _)|]; done.
Qed.

(** The driving loop of a tick. *)
Lemma driveAll_fold t r0 ids r tr :
  WellFormed t r -> cars r = cars r0 -> NoDup ids ->
  (forall id, id ∈ ids -> id ∈ cars r0) ->
  NoDup tr ->
  (forall i, i ∈ tr -> exists id, id ∈ cars r0 /\ (id ∉ ids) /\
                                  i = indexOf (cars r0) id) ->
  let res := foldl (fun st car => driveCar t car st) (r, tr) ids in
  WellFormed t res.1 /\ cars res.1 = cars r0 /\ NoDup res.2 /\
  (forall i, i ∈ res.2 ->
     exists id, id ∈ cars r0 /\ i = indexOf (cars r0) id).
Proof.
  revert r tr. induction ids as [|id ids IH]; intros r tr Hwf Hcars Hnd Hsub
    Hndtr Htr; cbn [foldl].
  - split; [done|]. split; [done|]. split; [done|].
    intros i Hi. destruct (Htr i Hi) as (id & ? & _ & ?). eauto.
  - apply NoDup_cons in Hnd as [Hnotin Hnd].
    assert (Hin : id ∈ cars r) by (rewrite Hcars; apply Hsub; left).
    destruct (driveCar_outcome t id r tr Hwf Hin)
      as (c1 & Hc1 & Hon & Hx1 & Hout).
    destruct (drive_WellFormed t id r Hwf Hin) as (Hwf1 & Hcars1 & _).
    destruct (exitsGrid c1 (drive t id r)).
    + rewrite Hout. apply IH; try done.
      * congruence.
      * intros k Hk. apply Hsub. by right.
      * apply NoDup_app. split; [done|]. split; [|apply NoDup_singleton].
        intros i Hi Hi'. apply list_elem_of_singleton in Hi' as ->.
        destruct (Htr _ Hi) as (k & Hk & Hkn & Hidx).
        rewrite Hcars in Hidx.
        apply indexOf_inj in Hidx; [|by rewrite <- Hcars | done].
        subst k. apply Hkn. left.
      * intros i Hi. apply elem_of_app in Hi as [Hi|Hi].
        -- destruct (Htr i Hi) as (k & Hk & Hkn & Hidx).
           exists k. split; [done|]. split; [|done].
           intros Hk'. apply Hkn. by right.
        -- apply list_elem_of_singleton in Hi as ->.
           exists id. rewrite Hcars. split; [by rewrite <- Hcars|].
           split; [done|done].
    + destruct Hout as (r2 & c2 & -> & Hwf2 & Hcars2 & _).
      apply IH; try done.
      * congruence.
      * intros k Hk. apply Hsub. by right.
      * intros i Hi. destruct (Htr i Hi) as (k & Hk & Hkn & Hidx).
        exists k. split; [done|]. split; [|done].
        intros Hk'. apply Hkn. by right.
Qed.

Lemma driveAll_WellFormed t r :
  WellFormed t r ->
  WellFormed t (driveAll t r).1 /\ cars (driveAll t r).1 = cars r /\
  NoDup (driveAll t r).2 /\
  (forall i, i ∈ (driveAll t r).2 ->
     exists id, id ∈ cars r /\ i = indexOf (cars r) id).
Proof.
  intros Hwf. unfold driveAll.
  apply (driveAll_fold t r (sortBy (carOrder r) (cars r)) r []); try done.
  - rewrite sortBy_Permutation. apply Hwf.
  - intros id. by rewrite sortBy_Permutation.
  - apply NoDup_nil_2.
  - intros i Hi. by apply not_elem_of_nil in Hi.
Qed.

(** A tick keeps the road well formed. *)
Lemma driveCars_WellFormed t r :
  WellFormed t r -> WellFormed t (driveCars t r).
Proof.
  intros Hwf. unfold driveCars.
  destruct (driveAll_WellFormed t r Hwf) as (Hwf1 & _ & _ & Hidx).
  destruct (driveAll t r) as [r1 tr]. cbn [fst snd] in *.
  assert (Hpos : Forall (fun i => 0 <= i) (sortBy (fun a b => b - a) tr)).
  { apply Forall_forall. intros i Hi. rewrite sortBy_Permutation in Hi.
    destruct (Hidx i Hi) as (id & Hin & ->).
    apply (indexOf_spec _ _ Hin). }
  revert r1 Hwf1 Hpos. clear Hidx.
  induction (sortBy (fun a b => b - a) tr) as [|i rest IH];
    intros r1 Hwf1 Hpos;
    cbn [foldl]; [done|].
  apply Forall_cons in Hpos as [Hi Hpos].
  apply IH; [|done]. by apply removeCar_WellFormed.
Qed.

(** ** Construction and spawning *)

Lemma fillBlock_loop_cells n lane j :
  Forall (fun cell => cell = Null \/ cell = Block) lane ->
  len (fillBlock_loop n lane j) = len lane /\
  Forall (fun cell => cell = Null \/ cell = Block) (fillBlock_loop n lane j).
Proof.
  revert lane j. induction n as [|n IH]; intros lane j Hlane; cbn; [done|].
  destruct (IH (setIdx lane j Block) (j + 1)) as [Hlen Hcells].
  - unfold setIdx. destruct (j <? 0); [done|].
    apply Forall_insert; [done | by right].
  - split; [|done]. by rewrite Hlen, len_setIdx.
Qed.

Lemma placeBlockage_loop_cells n rs numLanes i :
  Forall (fun l => len l = ROAD_WIDTH
                   /\ Forall (fun cell => cell = Null \/ cell = Block) l) rs ->
  Forall (fun l => len l = ROAD_WIDTH
                   /\ Forall (fun cell => cell = Null \/ cell = Block) l)
         (placeBlockage_loop n rs numLanes i).
Proof.
  revert rs i. induction n as [|n IH]; intros rs i Hrs; cbn; [done|].
  apply IH.
  destruct (idx rs (numLanes - 1 - i)) as [lane|] eqn:Hlane; [|done].
  destruct (len lane >=? BLOCK_START); [|done].
  unfold setIdx, idx in *. destruct (numLanes - 1 - i <? 0); [done|].
  apply Forall_insert; [done|].
  rewrite Forall_forall in Hrs.
  destruct (Hrs lane) as [Hlen Hcells]; [by eapply list_elem_of_lookup_2|].
  destruct (fillBlock_loop_cells (Z.to_nat (len lane - BLOCK_START)) lane
              BLOCK_START Hcells) as [Hlen' Hcells'].
  split; [congruence | done].
Qed.

Lemma newRoad_WellFormed t lanes blocked size :
  (0 < size)%Q -> WellFormed t (newRoad lanes blocked size).
Proof.
  intros Hsize. unfold newRoad.
  destruct ((lanes <? 2) || (blocked >=? lanes)).
  { constructor; cbn;
      first [ done
            | by apply Forall_nil_2
            | by apply NoDup_nil_2
            | by (intros ? Hin; apply not_elem_of_nil in Hin)
            | by (intros ? ? Hin; apply not_elem_of_nil in Hin)
            | by (intros lane x id; unfold cellAt, idx;
                  destruct (lane <? 0)) ]. }
  set (r0 := mkRoad _ _ _ _ _ _ _).
  assert (Hcells : Forall (fun l => len l = ROAD_WIDTH
      /\ Forall (fun cell => cell = Null \/ cell = Block) l)
      (roadSpace (placeBlockage blocked r0))).
  { unfold placeBlockage.
    assert (H0 : Forall (fun l => len l = ROAD_WIDTH
      /\ Forall (fun cell => cell = Null \/ cell = Block) l) (roadSpace r0)).
    { cbn. apply Forall_replicate. split; [done|].
      apply Forall_replicate. by left. }
    destruct (len (roadSpace r0) <=? blocked); [done|]. cbn [roadSpace
      withBlockedLanes withRoadSpace]. by apply placeBlockage_loop_cells. }
  assert (Hrest : cars (placeBlockage blocked r0) = []
                  /\ spaceSize (placeBlockage blocked r0) = size).
  { unfold placeBlockage. by destruct (_ <=? _). }
  destruct Hrest as [Hcars Hsz].
  constructor; rewrite ?Hcars, ?Hsz;
    try first [ done
              | by apply NoDup_nil_2
              | by (intros ? Hin; apply not_elem_of_nil in Hin)
              | by (intros ? ? Hin; apply not_elem_of_nil in Hin) ].
  - unfold RoadShape. eapply Forall_impl; [exact Hcells|]. by intros l [? _].
  - intros lane x id Hcell. exfalso.
    apply cellAt_Some in Hcell as (l & Hl & Hx).
    unfold idx in Hl, Hx. destruct (lane <? 0); [done|].
    destruct (x <? 0); [done|].
    rewrite Forall_forall in Hcells.
    destruct (Hcells l) as [_ Hl']; [by eapply list_elem_of_lookup_2|].
    rewrite Forall_forall in Hl'.
    destruct (Hl' (Ref id)); [by eapply list_elem_of_lookup_2|done|done].
Qed.

Lemma openLanes_loop_elem n rs i acc lane :
  lane ∈ openLanes_loop n rs i acc ->
  lane ∈ acc \/
  exists target, idx rs lane = Some target /\ isNullish (idx target 0) = true.
Proof.
  revert i acc. induction n as [|n IH]; intros i acc; cbn [openLanes_loop];
    [auto|].
  destruct (idx rs i) as [target|] eqn:Htarget; [|apply IH].
  destruct (isNullish (idx target 0)) eqn:Hopen; [|apply IH].
  intros Hin. apply IH in Hin as [Hin|Hin]; [|by right].
  apply elem_of_app in Hin as [Hin|Hin]; [by left|].
  apply list_elem_of_singleton in Hin as ->. right. eauto.
Qed.

Lemma getRandomLane_open u r lane :
  getRandomLane u r = Some lane -> 0 <= lane ->
  exists target,
    idx (roadSpace r) lane = Some target /\ isNullish (idx target 0) = true.
Proof.
  unfold getRandomLane. destruct (_ <=? 0).
  - intros [= <-]. lia.
  - intros Hidx _. unfold idx in Hidx at 1.
    destruct (_ <? 0) in Hidx; [done|].
    apply list_elem_of_lookup_2, openLanes_loop_elem in Hidx
      as [Hin|Hin]; [|done].
    by apply not_elem_of_nil in Hin.
Qed.

(** A spawn keeps the road well formed. *)
Lemma generateRandomCar_WellFormed t mt coop agg u1 u2 id r :
  WellFormed t r -> heap r !! id = None ->
  WellFormed t (generateRandomCar mt coop agg u1 u2 t id r).
Proof.
  intros Hwf Hfresh. unfold generateRandomCar.
  destruct (getRandomLane u1 r) as [laneN|]; [|done].
  destruct (laneN >=? 0); [|done].
  set (c0 := newCar mt coop agg laneN).
  assert (Hnotin : id ∉ cars r).
  { intros Hin. destruct (wf_car _ _ Hwf id Hin) as (c & Hc & _).
    congruence. }
  assert (Hother : forall k, k ∈ cars r -> k <> id) by (intros k ? ->; done).
  assert (Halloc : WellFormed t (withHeap (<[id := c0]> (heap r)) r)).
  { destruct Hwf as [Hs Hn Hcar Hcell Hsize Hp]. constructor; cbn; try done.
    - intros k Hk. rewrite lookup_insert_ne by (by apply not_eq_sym, Hother).
      auto.
    - intros lane x k Hcl. destruct (Hcell lane x k Hcl) as (Hk & Hck).
      split; [done|].
      by rewrite lookup_insert_ne by (by apply not_eq_sym, Hother).
    - intros k ck Hk. rewrite lookup_insert_ne by (by apply not_eq_sym, Hother).
      intros Hck. destruct (Hp k ck Hk Hck) as (? & ? & ?). done. }
  unfold addCar. cbn [heap withHeap]. rewrite lookup_insert_eq.
  change (getRandomLane u2 (withHeap (<[id := c0]> (heap r)) r))
    with (getRandomLane u2 r).
  destruct (getRandomLane u2 r) as [lane|] eqn:Hrand; [|done].
  destruct (Z.ltb_spec lane 0) as [|Hlane]; [done|].
  destruct (getRandomLane_open u2 r lane Hrand Hlane) as (target & Ht & Hopen).
  cbn [roadSpace withHeap]. rewrite Ht.
  pose proof (RoadShape_idx _ _ _ (wf_shape _ _ Hwf) Ht) as Hlen.
  assert (Hnull : cellAt (roadSpace r) lane 0 = Some Null).
  { unfold cellAt. rewrite Ht.
    destruct (idx_is_Some target 0) as [cell Hcell];
      [rewrite Hlen; unfold ROAD_WIDTH; lia|].
    rewrite Hcell in Hopen |- *. by destruct cell. }
  assert (Hgrid : setIdx (roadSpace r) lane (setIdx target 0 (Ref id))
                  = setCell (roadSpace r) lane 0 (Ref id)).
  { unfold setCell. by rewrite Ht. }
  assert (Hnew : forall lane' x',
    cellAt (setCell (roadSpace r) lane 0 (Ref id)) lane' x'
    = if decide ((lane', x') = (lane, 0)) then Some (Ref id)
      else cellAt (roadSpace r) lane' x').
  { intros lane' x'. destruct (decide _) as [[= -> ->]|Hne].
    - apply cellAt_setCell_eq. by rewrite Hnull.
    - by rewrite cellAt_setCell_ne by congruence. }
  destruct Hwf as [Hs Hn Hcar Hcell Hsize Hp].
  constructor; cbn [roadSpace cars spaceSize heap updCar withCars
    withRoadSpace withHeap]; rewrite ?Hgrid.
  - unfold RoadShape; cbn. rewrite ?Hgrid. by apply RoadShape_setCell.
  - apply NoDup_app. split; [done|]. split; [|apply NoDup_singleton].
    intros k Hk Hk'. apply list_elem_of_singleton in Hk' as ->. done.
  - intros k Hk. apply elem_of_app in Hk as [Hk|Hk].
    + rewrite !lookup_alter_ne, lookup_insert_ne
        by (by apply not_eq_sym, Hother).
      destruct (Hcar k Hk) as (ck & Hck & Hclk). exists ck. split; [done|].
      rewrite Hnew, decide_False; [done|].
      intros [= Hl Hx]. rewrite Hl, Hx in Hclk. congruence.
    + apply list_elem_of_singleton in Hk as ->.
      rewrite !lookup_alter_eq, lookup_insert_eq. cbn. eexists.
      split; [done|]. cbn. by rewrite Hnew, decide_True.
  - intros lane' x' k. rewrite Hnew.
    destruct (decide _) as [[= -> ->]|Hne].
    + intros [= <-]. split; [apply elem_of_app; right; left|].
      rewrite !lookup_alter_eq, lookup_insert_eq. cbn. eauto.
    + intros Hcl. destruct (Hcell lane' x' k Hcl) as (Hk & Hck).
      split; [apply elem_of_app; by left|].
      by rewrite !lookup_alter_ne, lookup_insert_ne
        by (by apply not_eq_sym, Hother).
  - intros _. apply Hsize. intros Hnil. rewrite Hnil in Ht.
    unfold idx in Ht. by destruct (lane <? 0).
  - intros k ck Hk. apply elem_of_app in Hk as [Hk|Hk].
    + rewrite !lookup_alter_ne, lookup_insert_ne
        by (by apply not_eq_sym, Hother).
      intros Hck. destruct (Hp k ck Hk Hck) as (? & ? & ?). done.
    + apply list_elem_of_singleton in Hk as ->.
      rewrite !lookup_alter_eq, lookup_insert_eq. cbn. intros [= <-]. cbn.
      split; [discriminate|]. split; [|done].
      apply (desiredLaneX_nonneg (setStart t lane (setLanePos lane 0 c0))).
Qed.

Lemma purgeTrails_WellFormed t r :
  WellFormed t r -> WellFormed t (purgeTrails t r).
Proof. apply WellFormed_bookkeeping. Qed.

Lemma Reachable_WellFormed t r : Reachable t r -> WellFormed t r.
Proof.
  induction 1 as [lanes blocked size t Hsize
                 | t t' r mt coop agg u1 u2 id _ IH Hle Hfresh
                 | t t' r _ IH Hle
                 | t r id _ IH Hin
                 | t t' r _ IH Hle].
  - by apply newRoad_WellFormed.
  - apply generateRandomCar_WellFormed; [|done].
    by apply (WellFormed_mono t).
  - apply driveCars_WellFormed. by apply (WellFormed_mono t).
  - by apply merge_WellFormed.
  - apply purgeTrails_WellFormed. by apply (WellFormed_mono t).
Qed.



(** ** The merge within the tick *)

Lemma getValueFromNormalized_merge_space_pos agg :
  (0 <= agg)%Q ->
  (0 < getValueFromNormalized agg MERGE_SPACE_LOW MERGE_SPACE_MID
                              MERGE_SPACE_HIGH)%Q.
Proof.
  intros Hagg. unfold MERGE_SPACE_LOW, MERGE_SPACE_MID, MERGE_SPACE_HIGH.
  destruct (Q_dec agg 3) as [[Hlt|Hgt]|Heq].
  - rewrite getValueFromNormalized_below_mid by done. lra.
  - rewrite getValueFromNormalized_above_mid by done. lra.
  - unfold getValueFromNormalized. apply Qeqb_eq in Heq. by rewrite Heq.
Qed.

Lemma desiredSpaces_pos c r :
  (0 <= aggressiveness c)%Q -> (0 < desiredSpaces c r)%Q.
Proof.
  intros Hagg. unfold desiredSpaces.
  destruct (_ && _); [reflexivity|].
  unfold getDesiredMergeSpace.
  eapply Qlt_le_trans;
    [apply (getValueFromNormalized_merge_space_pos _ Hagg)|].
  apply Q.le_max_l.
Qed.

(** A positive survey total comes from the branch with an empty beside
    cell. *)
Lemma getLeftOpenSpaces_positive r lane x a b h :
  getLeftOpenSpaces r lane x = SpacesObj a b h -> 0 < a + h + b ->
  exists laneData,
    getLaneData r lane = Some laneData /\ 0 < lane /\
    x < len laneData - 1 /\
    isNullish (cellAt (roadSpace r) (lane - 1) x) = true.
Proof.
  unfold getLeftOpenSpaces, getLaneData, cellAt.
  destruct (idx (roadSpace r) lane) as [laneData|]; [|done].
  destruct (Z.leb_spec lane 0); [intros [= <- <- <-]; lia|].
  destruct (idx (roadSpace r) (lane - 1)) as [left|]; [|done].
  destruct (negb _); [done|].
  destruct (Z.geb_spec x (len laneData - 1)); [intros [= <- <- <-]; lia|].
  destruct (isNullish (idx left x)) eqn:Hb; [|intros [= <- <- <-]; lia].
  intros _ _. exists laneData. repeat split; try done; lia.
Qed.

(** A commit that passes the guards onto a cell that is empty once the
    car's own cell is cleared. *)
Lemma setCarPos_commits id c lane x r :
  heap r !! id = Some c ->
  lane < len (roadSpace r) -> x < ROAD_WIDTH ->
  laneNumber c < len (roadSpace r) -> lanePosX c < ROAD_WIDTH ->
  isNullish (cellAt (setCell (roadSpace r) (laneNumber c) (lanePosX c) Null)
                    lane x) = true ->
  (setCarPos id lane x r).1 = Some 0 /\
  exists c', heap (setCarPos id lane x r).2 !! id = Some c' /\
             laneNumber c' = lane /\ lanePosX c' = x.
Proof.
  intros Hc Hlane Hx Hcl Hcx Hfree. unfold setCarPos. rewrite Hc.
  destruct (Z.geb_spec lane (len (roadSpace r))) as [|_]; [lia|].
  destruct (Z.geb_spec x ROAD_WIDTH) as [|_]; [lia|]. cbn [orb].
  destruct (Z.geb_spec (laneNumber c) (len (roadSpace r))) as [|_]; [lia|].
  destruct (Z.geb_spec (lanePosX c) ROAD_WIDTH) as [|_]; [lia|]. cbn [orb].
  set (r1 := if negb (laneNumber c =? lane)
             then updCar id alertMerge (alertRearDriver c r lane) else r).
  assert (Hsame : sameCoreRoad r r1).
  { subst r1. destruct (negb _);
      [apply sameCoreRoad_alerts | apply sameCoreRoad_refl]. }
  destruct (sameCoreRoad_lookup _ _ _ _ Hsame Hc) as (c1 & Hc1 & _).
  destruct Hsame as (Hrs & _). cbn [roadSpace withRoadSpace].
  rewrite Hrs, Hfree. cbn [negb fst snd]. split; [done|].
  rewrite updCar_lookup_eq with (c := c1) by done. eauto.
Qed.

(** The lane recorded after [setCarPos] is the old one or the
    destination. *)
Lemma setCarPos_lane id c lane x r :
  heap r !! id = Some c ->
  exists c', heap (setCarPos id lane x r).2 !! id = Some c' /\
             (laneNumber c' = laneNumber c \/ laneNumber c' = lane).
Proof.
  intros Hc. unfold setCarPos. rewrite Hc.
  destruct (_ || _); [eauto|]. destruct (_ || _); [eauto|].
  set (r1 := if negb (laneNumber c =? lane)
             then updCar id alertMerge (alertRearDriver c r lane) else r).
  assert (Hsame : sameCoreRoad r r1).
  { subst r1. destruct (negb _);
      [apply sameCoreRoad_alerts | apply sameCoreRoad_refl]. }
  destruct (sameCoreRoad_lookup _ _ _ _ Hsame Hc) as (c1 & Hc1 & Hl1 & _).
  destruct (negb (isNullish _)); cbn [snd].
  - exists c1. split; [done|]. by left.
  - rewrite updCar_lookup_eq with (c := c1) by done.
    eexists. split; [done|]. by right.
Qed.

(** C5: a car that has moved before, on a road of full-width lanes, with a
    non-negative aggressiveness: when after the updates of its [drive] step
    it is in Merge state and [canMerge] holds, the step ends with the car
    recorded one lane to the left, and so does its turn in [driveCar], whose
    forward move stays in the new lane. *)
Theorem drive_merges_same_tick now id c lm r tr c5 :
  RoadShape r ->
  heap r !! id = Some c -> lastMoved c = Some lm ->
  (0 <= aggressiveness c)%Q ->
  heap (driveUpdate now id lm r) !! id = Some c5 ->
  state c5 = Merge ->
  canMerge c5 (driveUpdate now id lm r) = true ->
  laneNumber <$> heap (drive now id r) !! id = Some (laneNumber c - 1) /\
  laneNumber <$> heap (driveCar now id (r, tr)).1 !! id
  = Some (laneNumber c - 1).
Proof.
  intros Hshape Hc Hlm Hagg Hc5 Hstate Hcan.
  destruct (driveUpdate_spec now id lm r c Hc)
    as (c5' & Hr5 & Hl5 & Hx5 & Ha5 & _).
  set (r5 := driveUpdate now id lm r) in *.
  assert (c5' = c5) as ->.
  { rewrite Hr5 in Hc5. cbn in Hc5. rewrite lookup_insert_eq in Hc5.
    congruence. }
  assert (Hshape5 : RoadShape r5) by (by rewrite Hr5).
  (* the survey found the beside cell empty *)
  rewrite canMerge_spacesSuffice in Hcan.
  destruct (getLeftOpenSpaces r5 (laneNumber c5) (lanePosX c5))
    as [|a b h] eqn:Hsp; [done|]. cbn in Hcan.
  destruct (Qleb _ _) eqn:Hle; [|done]. apply Qleb_le in Hle.
  assert (Hpos : 0 < a + h + b).
  { assert (Hq : (0 < inject_Z (a + h + b))%Q).
    { eapply Qlt_le_trans; [|exact Hle]. apply desiredSpaces_pos.
      by rewrite Ha5. }
    change 0%Q with (inject_Z 0) in Hq. by rewrite <- Zlt_Qlt in Hq. }
  destruct (getLeftOpenSpaces_positive _ _ _ _ _ _ Hsp Hpos)
    as (laneData & Hlane & Hlane0 & Hx & Hbeside).
  pose proof (RoadShape_idx _ _ _ Hshape5 Hlane) as Hlen.
  apply idx_Some in Hlane as Hrange.
  (* the merge commits *)
  assert (Hmerge : exists c6,
    heap (merge id r5) !! id = Some c6 /\ laneNumber c6 = laneNumber c - 1).
  { unfold merge. rewrite Hc5.
    destruct (Z.ltb_spec (laneNumber c5 - 1) 0); [lia|].
    rewrite Hbeside.
    destruct (setCarPos_commits id c5 (laneNumber c5 - 1) (lanePosX c5) r5)
      as (_ & c6 & Hc6 & Hl6 & _); try done; try lia.
    - by rewrite cellAt_setCell_ne by (intros [= ?]; lia).
    - exists c6. split; [done|]. lia. }
  destruct Hmerge as (c6 & Hc6 & Hl6).
  assert (Hdrive : drive now id r = merge id r5).
  { unfold drive. rewrite Hc, Hlm. fold r5. rewrite Hc5, Hstate.
    rewrite canMerge_spacesSuffice, Hsp. cbn.
    apply Qleb_le in Hle. by rewrite Hle. }
  split; [by rewrite Hdrive, Hc6; cbn; rewrite Hl6|].
  unfold driveCar. rewrite Hc, Hdrive, Hc6.
  destruct (negb _); [|by cbn; rewrite Hc6; cbn; rewrite Hl6].
  destruct (negb _); [|by cbn; rewrite Hc6; cbn; rewrite Hl6].
  destruct (setCarPos_lane id c6 (laneNumber c6)
              (safeLaneX c6 (merge id r5)) (merge id r5) Hc6)
    as (c7 & Hc7 & Hl7).
  destruct (setCarPos id _ _ _) as [result r7]. cbn [snd] in Hc7.
  assert (Hl7' : laneNumber c7 = laneNumber c - 1) by (destruct Hl7; lia).
  destruct result as [[| |[]]|]; cbn [fst]; rewrite Hc7; cbn; by rewrite Hl7'.
Qed.

Lemma drive_merges_same_tick_witness :
  laneNumber <$> heap roadNearBlockage !! 0%nat = Some 1 /\
  laneNumber <$> heap (drive 1200 0 roadNearBlockage) !! 0%nat = Some (1 - 1).
Proof.
  split; [reflexivity|].
  eapply (drive_merges_same_tick 1200 0 (setLastMoved 1000 (carAtPos 1 36))
            1000 roadNearBlockage []).
  - repeat constructor.
  - reflexivity.
  - reflexivity.
  - discriminate.
  - vm_compute. reflexivity.
  - reflexivity.
  - vm_compute. reflexivity.
Defined.

(** ** The removal loop *)

Lemma insertSorted_desc x l :
  StronglySorted (fun a b => b <= a) l ->
  StronglySorted (fun a b => b <= a) (insertSorted (fun a b => b - a) x l).
Proof.
  induction 1 as [|y l Hs IH Hall]; cbn [insertSorted].
  - repeat constructor.
  - destruct (Z.leb_spec (y - x) 0).
    + constructor; [by constructor|]. constructor; [lia|].
      eapply Forall_impl; [exact Hall|]. cbn. lia.
    + constructor; [done|].
      rewrite insertSorted_Permutation. constructor; [lia | done].
Qed.

Lemma sortBy_desc l :
  StronglySorted (fun a b => b <= a) (sortBy (fun a b => b - a) l).
Proof.
  unfold sortBy. induction l as [|x l IH]; cbn; [constructor|].
  by apply insertSorted_desc.
Qed.

Lemma StronglySorted_strict l :
  StronglySorted (fun a b : Z => b <= a) l -> NoDup l ->
  StronglySorted (fun a b : Z => b < a) l.
Proof.
  induction 1 as [|x l Hs IH Hall]; intros Hnd; [constructor|].
  apply NoDup_cons in Hnd as [Hx Hnd]. constructor; [by apply IH|].
  rewrite Forall_forall in Hall |- *. intros y Hy.
  specialize (Hall y Hy). assert (y <> x) by (by intros ->). lia.
Qed.

Lemma indexOf_unique l x (n : nat) :
  NoDup l -> l !! n = Some x -> indexOf l x = Z.of_nat n.
Proof.
  intros Hnd Hn.
  assert (Hin : x ∈ l) by (by eapply list_elem_of_lookup_2).
  destruct (indexOf_spec l x Hin) as [Hr Hidx].
  unfold idx in Hidx. destruct (Z.ltb_spec (indexOf l x) 0); [lia|].
  pose proof (NoDup_lookup l _ _ x Hnd Hidx Hn). lia.
Qed.

Lemma splice1_delete l i : 0 <= i -> splice1 l i = delete (Z.to_nat i) l.
Proof. intros Hi. unfold splice1. by destruct (Z.ltb_spec i 0); [lia|]. Qed.

(** The removal loop on indices in strictly descending order removes
    exactly the cars at those indices. *)
Lemma removeAll_cars t now items r :
  WellFormed t r ->
  StronglySorted (fun a b => b < a) items ->
  Forall (fun i => 0 <= i < len (cars r)) items ->
  WellFormed t (foldl (removeCar now) r items) /\
  forall id, id ∈ cars (foldl (removeCar now) r items)
             <-> id ∈ cars r /\ indexOf (cars r) id ∉ items.
Proof.
  intros Hwf Hsorted. revert r Hwf.
  induction Hsorted as [|i rest Hs IH Hlt]; intros r Hwf Hvalid;
    cbn [foldl].
  - split; [done|]. intros id. split; [|tauto]. intros Hin.
    split; [done|]. apply not_elem_of_nil.
  - apply Forall_cons in Hvalid as [Hi Hvalid].
    pose proof (wf_nodup _ _ Hwf) as Hnd.
    assert (Hwf' : WellFormed t (removeCar now r i))
      by (apply removeCar_WellFormed; [done | lia]).
    pose proof (removeCar_cars now r i) as Hcars.
    rewrite splice1_delete in Hcars by lia.
    destruct (lookup_lt_is_Some_2 (cars r) (Z.to_nat i)) as [xi Hxi];
      [unfold len in Hi; lia|].
    rewrite Forall_forall in Hlt.
    destruct (IH (removeCar now r i) Hwf') as [Hwf'' Hiff].
    { rewrite Forall_forall in Hvalid |- *. intros j Hj.
      specialize (Hvalid j Hj). specialize (Hlt j Hj).
      rewrite Hcars. unfold len in *. rewrite length_delete by eauto. lia. }
    split; [done|]. intros id. rewrite Hiff, Hcars.
    rewrite (NoDup_delete_elem _ _ xi) by done.
    assert (Hnd' : NoDup (delete (Z.to_nat i) (cars r))).
    { rewrite <- Hcars. apply Hwf'. }
    split.
    + intros [[Hin Hne] Hrest]. split; [done|].
      destruct (indexOf_spec _ _ Hin) as [Hr Hidx].
      unfold idx in Hidx. destruct (Z.ltb_spec (indexOf (cars r) id) 0);
        [lia|].
      intros Hmem. apply elem_of_cons in Hmem as [Heq|Hmem].
      * rewrite Heq in Hidx. congruence.
      * apply Hrest. specialize (Hlt _ Hmem).
        rewrite (indexOf_unique _ id (Z.to_nat (indexOf (cars r) id)));
          [by rewrite Z2Nat.id by lia | done |].
        rewrite list_lookup_delete_lt by lia. done.
    + intros [Hin Hnot].
      destruct (indexOf_spec _ _ Hin) as [Hr Hidx].
      unfold idx in Hidx. destruct (Z.ltb_spec (indexOf (cars r) id) 0);
        [lia|].
      assert (Hne : id <> xi).
      { intros ->. apply Hnot, elem_of_cons. left.
        rewrite (indexOf_unique _ xi (Z.to_nat i)) by done. lia. }
      split; [done|]. intros Hmem. specialize (Hlt _ Hmem) as Hlt'.
      destruct (Z.lt_trichotomy (indexOf (cars r) id) i) as [Hp|[Hp|Hp]].
      * apply Hnot, elem_of_cons. right.
        rewrite (indexOf_unique _ id (Z.to_nat (indexOf (cars r) id)))
          in Hmem; [by rewrite Z2Nat.id in Hmem by lia | done |].
        rewrite list_lookup_delete_lt by lia. done.
      * apply Hnot, elem_of_cons. by left.
      * rewrite (indexOf_unique _ id (Z.to_nat (indexOf (cars r) id) - 1))
          in Hlt'; [lia | done |].
        rewrite list_lookup_delete_ge by lia.
        replace (S (Z.to_nat (indexOf (cars r) id) - 1))
          with (Z.to_nat (indexOf (cars r) id)) by lia.
        done.
Qed.

(** The cars left after a tick are those whose index was not marked. *)
Lemma driveCars_cars t r :
  WellFormed t r ->
  forall id, id ∈ cars (driveCars t r)
             <-> id ∈ cars r /\ indexOf (cars r) id ∉ (driveAll t r).2.
Proof.
  intros Hwf id. unfold driveCars.
  destruct (driveAll_WellFormed t r Hwf) as (Hwf1 & Hcars1 & Hnd & Hidx).
  destruct (driveAll t r) as [r1 tr]. cbn [fst snd] in *.
  destruct (removeAll_cars t t (sortBy (fun a b => b - a) tr) r1 Hwf1)
    as [_ Hiff].
  - apply StronglySorted_strict; [apply sortBy_desc|].
    by rewrite sortBy_Permutation.
  - apply Forall_forall. intros i Hi. rewrite sortBy_Permutation in Hi.
    destruct (Hidx i Hi) as (k & Hk & ->). rewrite Hcars1.
    apply (indexOf_spec _ _ Hk).
  - rewrite Hiff, Hcars1. by rewrite sortBy_Permutation.
Qed.

(** ** A car's turn within the tick *)

Lemma before_split id l :
  id ∈ l -> exists post, l = before id l ++ id :: post /\ id ∉ before id l.
Proof.
  induction l as [|x l IH]; intros Hin; [by apply not_elem_of_nil in Hin|].
  cbn [before]. destruct (Nat.eqb_spec x id) as [->|Hne].
  - exists l. split; [done | apply not_elem_of_nil].
  - apply elem_of_cons in Hin as [->|Hin]; [done|].
    destruct (IH Hin) as (post & Hl & Hnot). exists post.
    split; [cbn; by rewrite <- Hl|].
    intros Hmem. apply elem_of_cons in Hmem as [->|Hmem]; done.
Qed.

(** The driving loop only adds marks, and only the indices of cars it
    drives. *)
Lemma driveCar_fold_marks t r0 ids r tr :
  WellFormed t r -> cars r = cars r0 ->
  (forall id, id ∈ ids -> id ∈ cars r0) ->
  let res := foldl (fun st car => driveCar t car st) (r, tr) ids in
  WellFormed t res.1 /\ cars res.1 = cars r0 /\
  (forall i, i ∈ tr -> i ∈ res.2) /\
  (forall i, i ∈ res.2 ->
     i ∈ tr \/ exists id, id ∈ ids /\ i = indexOf (cars r0) id).
Proof.
  revert r tr. induction ids as [|id ids IH]; intros r tr Hwf Hcars Hsub;
    cbn [foldl].
  - split; [done|]. split; [done|]. split; [done|]. intros i Hi. by left.
  - assert (Hin : id ∈ cars r) by (rewrite Hcars; apply Hsub; left).
    destruct (driveCar_outcome t id r tr Hwf Hin)
      as (c1 & Hc1 & Hon & Hx1 & Hout).
    destruct (drive_WellFormed t id r Hwf Hin) as (Hwf1 & Hcars1 & _).
    destruct (exitsGrid c1 (drive t id r)).
    + rewrite Hout.
      destruct (IH (drive t id r) (tr ++ [indexOf (cars r) id]))
        as (Hw & Hc & Hkeep & Hnew); [done | congruence | |].
      { intros k Hk. apply Hsub. by right. }
      split; [done|]. split; [done|]. split.
      * intros i Hi. apply Hkeep, elem_of_app. by left.
      * intros i Hi. apply Hnew in Hi as [Hi|(k & Hk & ->)].
        -- apply elem_of_app in Hi as [Hi|Hi]; [by left|].
           apply list_elem_of_singleton in Hi as ->. right.
           exists id. rewrite Hcars. split; [left | done].
        -- right. exists k. split; [by right | done].
    + destruct Hout as (r2 & c2 & -> & Hwf2 & Hcars2 & _).
      destruct (IH r2 tr) as (Hw & Hc & Hkeep & Hnew);
        [done | congruence | |].
      { intros k Hk. apply Hsub. by right. }
      split; [done|]. split; [done|]. split; [done|].
      intros i Hi. apply Hnew in Hi as [Hi|(k & Hk & ->)]; [by left|].
      right. exists k. split; [by right | done].
Qed.

(** A car that exits asks for a column beyond the grid. *)
Lemma safeLaneX_exits c r l :
  getLaneData r (laneNumber c) = Some l -> len l = ROAD_WIDTH ->
  0 <= lanePosX c < ROAD_WIDTH ->
  exitsGrid c r = true -> ROAD_WIDTH <= safeLaneX c r.
Proof.
  intros Hl Hlen Hx Hexit. unfold exitsGrid in Hexit.
  apply andb_true_iff in Hexit as [Hd Hf].
  apply Z.leb_le in Hd. apply Z.eqb_eq in Hf.
  unfold safeLaneX. rewrite (getDistance_All_freeAhead _ _ _ Hl Hlen Hx).
  pose proof (freeAhead_bounds _ _ _ Hl Hlen Hx) as Hb.
  unfold ROAD_WIDTH in *.
  destruct (Z.geb_spec (lanePosX c + 1) 50).
  - change (-2 <? 0) with true. cbn iota. lia.
  - destruct (Z.eqb_spec (lanePosX c + freeAhead c r) (50 - 1)); [|lia].
    change (100 <? 0) with false. cbn iota. lia.
Qed.

(** C6: on a road the engine can reach, at the turn of a listed car in the
    driving loop of a tick, with [c1] the car after its [drive] step: the
    desired column is floor(distance / cell length) - 1, at least 0.  Either
    the car exits, its desired column being past the grid with nothing in
    its way: then the commit is rejected, the car's index is marked, and
    after the tick the car is in neither the car list nor any cell.  Or the
    car is committed to the nearer of its desired column and the end of the
    free space ahead, every cell it passes and the one it lands on having
    been empty, and it stays on the road. *)
Theorem driveCar_commit_or_exit t0 t r id :
  Reachable t0 r -> t0 <= t -> id ∈ cars r ->
  let st := turnState t r id in
  let r1 := drive t id st.1 in
  exists c1,
    heap r1 !! id = Some c1 /\
    desiredLaneX c1 r1 = Z.max 0 (Qfloor (distance c1 / spaceSize r1) - 1) /\
    (exitsGrid c1 r1 = true ->
       (setCarPos id (laneNumber c1) (safeLaneX c1 r1) r1).1 = Some (-1) /\
       driveCar t id st = (r1, st.2 ++ [indexOf (cars r) id]) /\
       (id ∉ cars (driveCars t r)) /\
       forall lane x,
         cellAt (roadSpace (driveCars t r)) lane x <> Some (Ref id)) /\
    (exitsGrid c1 r1 = false ->
       exists r2 c2,
         driveCar t id st = (r2, st.2) /\
         heap r2 !! id = Some c2 /\
         laneNumber c2 = laneNumber c1 /\
         lanePosX c2
         = Z.min (desiredLaneX c1 r1) (lanePosX c1 + freeAhead c1 r1) /\
         (forall k, lanePosX c1 < k <= lanePosX c2 ->
            cellAt (roadSpace r1) (laneNumber c1) k = Some Null) /\
         id ∈ cars (driveCars t r)).
Proof.
  intros Hreach Hle Hin st r1.
  assert (Hwf : WellFormed t r).
  { apply (WellFormed_mono t0); [by apply Reachable_WellFormed | done]. }
  pose proof (sortBy_Permutation (carOrder r) (cars r)) as Hperm.
  assert (Hins : id ∈ sortBy (carOrder r) (cars r)) by (by rewrite Hperm).
  assert (Hnds : NoDup (sortBy (carOrder r) (cars r))).
  { rewrite Hperm. apply Hwf. }
  destruct (before_split id _ Hins) as (post & Hsplit & Hpre).
  assert (Hpost : id ∉ post).
  { rewrite Hsplit in Hnds. apply NoDup_app in Hnds as (_ & _ & Hnd).
    by apply NoDup_cons in Hnd as [? _]. }
  assert (Hsub : forall k, k ∈ sortBy (carOrder r) (cars r) -> k ∈ cars r).
  { intros k. by rewrite Hperm. }
  destruct (driveCar_fold_marks t r
              (before id (sortBy (carOrder r) (cars r))) r [])
    as (Hwfst & Hcarsst & _ & Hmarksst); [done | done | |].
  { intros k Hk. apply Hsub. rewrite Hsplit. apply elem_of_app. by left. }
  fold (turnState t r id) in Hwfst, Hcarsst, Hmarksst. fold st in Hwfst,
    Hcarsst, Hmarksst.
  assert (Hinst : id ∈ cars st.1) by (by rewrite Hcarsst).
  destruct (driveCar_outcome t id st.1 st.2 Hwfst Hinst)
    as (c1 & Hc1 & Hon & Hx1 & Hout).
  destruct (drive_WellFormed t id st.1 Hwfst Hinst) as (Hwf1 & Hcars1 & _).
  fold r1 in Hc1, Hon, Hx1, Hout, Hwf1, Hcars1.
  replace (st.1, st.2) with st in Hout by (by destruct st).
  rewrite Hcarsst in Hout.
  assert (Hall : driveAll t r
                 = foldl (fun st car => driveCar t car st)
                         (driveCar t id st) post).
  { unfold driveAll. rewrite Hsplit at 1. by rewrite foldl_app. }
  destruct Hon as [Hlane HxR].
  destruct (idx_is_Some (roadSpace r1) (laneNumber c1) Hlane) as [l Hl].
  pose proof (RoadShape_idx _ _ _ (wf_shape _ _ Hwf1) Hl) as Hlen.
  assert (Hsubpost : forall k, k ∈ post -> k ∈ cars r).
  { intros k Hk. apply Hsub. rewrite Hsplit. apply elem_of_app. right.
    by right. }
  exists c1. split; [done|]. split.
  { unfold desiredLaneX, getSpaceSize.
    destruct (Z.ltb_spec (Qfloor (distance c1 / spaceSize r1) - 1) 0); lia. }
  split.
  - intros Hexit. rewrite Hexit in Hout.
    split.
    { rewrite (setCarPos_out_of_bounds id c1); [done | done |].
      right. by eapply safeLaneX_exits. }
    split; [done|].
    destruct (driveCar_fold_marks t r post r1
                (st.2 ++ [indexOf (cars r) id]))
      as (_ & _ & Hkeep & _); [done | congruence | done |].
    assert (Hmarked : indexOf (cars r) id ∈ (driveAll t r).2).
    { rewrite Hall, Hout. apply Hkeep, elem_of_app. right. left. }
    assert (Hgone : id ∉ cars (driveCars t r)).
    { intros Hmem. apply (driveCars_cars t r Hwf) in Hmem as [_ Hnot].
      done. }
    split; [done|]. intros lane x Hcell.
    apply (wf_cell _ _ (driveCars_WellFormed t r Hwf)) in Hcell as [Hmem _].
    done.
  - intros Hexit. rewrite Hexit in Hout.
    destruct Hout as (r2 & c2 & Hdc & Hwf2 & Hcars2 & Hc2 & Hl2 & Hx2).
    exists r2, c2. split; [done|]. split; [done|]. split; [done|].
    split; [done|]. split.
    { intros k Hk. eapply freeAhead_empty; eauto; lia. }
    apply (driveCars_cars t r Hwf). split; [done|].
    rewrite Hall, Hdc.
    destruct (driveCar_fold_marks t r post r2 st.2)
      as (_ & _ & _ & Hnew); [done | done | done |].
    intros Hmem. apply Hnew in Hmem as [Hmem|(k & Hk & Heq)].
    + apply Hmarksst in Hmem as [Hmem|(k & Hk & Heq)];
        [by apply not_elem_of_nil in Hmem|].
      apply indexOf_inj in Heq; [congruence | done |].
      apply Hsub. rewrite Hsplit. apply elem_of_app. by left.
    + apply indexOf_inj in Heq; [congruence | done | by apply Hsubpost].
Qed.

(** The car of [roadOneCar], driven again a long time later, has travelled
    past the end of the grid: it exits and the tick removes it. *)
Lemma driveCar_commit_or_exit_witness :
  cars roadOneCar = [0%nat] /\ 0%nat ∉ cars (driveCars 2000000 roadOneCar).
Proof.
  assert (Hcars : cars roadOneCar = [0%nat]) by (vm_compute; reflexivity).
  split; [exact Hcars|].
  destruct (driveCar_commit_or_exit 1000 2000000 roadOneCar 0)
    as (c1 & Hc1 & _ & Hexit & _).
  - unfold roadOneCar. apply (reach_tick 1000); [|lia].
    apply (reach_spawn 0); [|lia|reflexivity].
    apply reach_new. reflexivity.
  - lia.
  - rewrite Hcars. left.
  - vm_compute in Hc1. injection Hc1 as <-.
    apply Hexit. vm_compute. reflexivity.
Defined.

(** ** The rejected commit, in general *)

(** Whatever makes [setCarPos] answer [-1], [driveCar] marks the car. *)
Lemma driveCar_rejected_marked t id r tr c c1 :
  heap r !! id = Some c ->
  heap (drive t id r) !! id = Some c1 ->
  desiredLaneX c1 (drive t id r) <> lanePosX c1 ->
  safeLaneX c1 (drive t id r) <> lanePosX c1 ->
  (setCarPos id (laneNumber c1) (safeLaneX c1 (drive t id r))
             (drive t id r)).1 = Some (-1) ->
  (driveCar t id (r, tr)).2 = tr ++ [indexOf (cars r) id].
Proof.
  intros Hc Hc1 Hd Hs Hres. unfold driveCar. rewrite Hc, Hc1.
  destruct (Z.eqb_spec (desiredLaneX c1 (drive t id r)) (lanePosX c1));
    [done|].
  destruct (Z.eqb_spec (safeLaneX c1 (drive t id r)) (lanePosX c1)); [done|].
  cbn [negb]. destruct (setCarPos id _ _ _) as [result r2].
  cbn [fst] in Hres. by rewrite Hres.
Qed.

(** A commit onto an occupied cell answers [-1] with the car's own cell
    already cleared. *)
Lemma setCarPos_occupied id c lane x r v :
  heap r !! id = Some c ->
  lane < len (roadSpace r) -> x < ROAD_WIDTH ->
  laneNumber c < len (roadSpace r) -> lanePosX c < ROAD_WIDTH ->
  is_Some (cellAt (roadSpace r) (laneNumber c) (lanePosX c)) ->
  (lane, x) <> (laneNumber c, lanePosX c) ->
  cellAt (roadSpace r) lane x = Some v -> v <> Null ->
  (setCarPos id lane x r).1 = Some (-1) /\
  cellAt (roadSpace (setCarPos id lane x r).2) (laneNumber c) (lanePosX c)
  = Some Null.
Proof.
  intros Hc Hlane Hx Hcl Hcx Hcur Hne Hdest Hv. unfold setCarPos. rewrite Hc.
  destruct (Z.geb_spec lane (len (roadSpace r))) as [|_]; [lia|].
  destruct (Z.geb_spec x ROAD_WIDTH) as [|_]; [lia|]. cbn [orb].
  destruct (Z.geb_spec (laneNumber c) (len (roadSpace r))) as [|_]; [lia|].
  destruct (Z.geb_spec (lanePosX c) ROAD_WIDTH) as [|_]; [lia|]. cbn [orb].
  set (r1 := if negb (laneNumber c =? lane)
             then updCar id alertMerge (alertRearDriver c r lane) else r).
  assert (Hsame : sameCoreRoad r r1).
  { subst r1. destruct (negb _);
      [apply sameCoreRoad_alerts | apply sameCoreRoad_refl]. }
  destruct Hsame as (Hrs & _). cbn [roadSpace withRoadSpace]. rewrite Hrs.
  rewrite cellAt_setCell_ne by congruence. rewrite Hdest.
  destruct v; [done| |]; cbn [isNullish negb fst snd roadSpace withRoadSpace];
    (split; [done|]); by apply cellAt_setCell_eq.
Qed.

(** ** Travel times on reachable roads *)

Lemma startOf_updCar id f r k :
  (forall c, startTime (f c) = startTime c) ->
  startOf (updCar id f r) k = startOf r k.
Proof.
  intros Hf. unfold startOf. rewrite updCar_lookup.
  destruct (decide (k = id)); [|done].
  destruct (heap r !! k); cbn; [by rewrite Hf | done].
Qed.

Lemma startOf_alertRearDriver c r lane k :
  startOf (alertRearDriver c r lane) k = startOf r k.
Proof.
  rewrite alertRearDriver_nearest.
  destruct (nearestCarBehind r lane (lanePosX c)); [|done].
  by apply startOf_updCar.
Qed.

Lemma setCarPos_times id lane x r :
  (forall k, startOf (setCarPos id lane x r).2 k = startOf r k) /\
  completedCars (setCarPos id lane x r).2 = completedCars r.
Proof.
  unfold setCarPos. destruct (heap r !! id) as [c|]; [|done].
  destruct (_ || _); [done|]. destruct (_ || _); [done|].
  set (r1 := if negb (laneNumber c =? lane)
             then updCar id alertMerge (alertRearDriver c r lane) else r).
  assert (H1 : (forall k, startOf r1 k = startOf r k)
               /\ completedCars r1 = completedCars r).
  { subst r1. destruct (negb _); [|done]. split.
    - intros k. rewrite startOf_updCar by done.
      apply startOf_alertRearDriver.
    - cbn. rewrite alertRearDriver_nearest.
      by destruct (nearestCarBehind _ _ _). }
  destruct H1 as [Hs Hcc].
  destruct (negb (isNullish _)); cbn [snd]; (split; [|done]).
  - intros k. apply (Hs k).
  - intros k. rewrite startOf_updCar by done. apply (Hs k).
Qed.

Lemma merge_times id r :
  (forall k, startOf (merge id r) k = startOf r k) /\
  completedCars (merge id r) = completedCars r.
Proof.
  unfold merge. destruct (heap r !! id) as [c|]; [|done].
  destruct (_ <? 0); [done|]. destruct (isNullish _); [|done].
  apply setCarPos_times.
Qed.

Lemma effectSpeed_times id r :
  (forall k, startOf (effectSpeed id r) k = startOf r k) /\
  completedCars (effectSpeed id r) = completedCars r.
Proof.
  unfold effectSpeed. destruct (heap r !! id) as [c|]; [|done].
  destruct (speedDifference c r) as [d|]; [|done]. split; [|done].
  intros k. apply startOf_updCar. intros c'. unfold adjustSpeedBy.
  by repeat destruct (Qleb _ _).
Qed.

Lemma effectMergeState_times id r :
  (forall k, startOf (effectMergeState id r) k = startOf r k) /\
  completedCars (effectMergeState id r) = completedCars r.
Proof.
  unfold effectMergeState. destruct (heap r !! id) as [c|]; [|done].
  destruct (Qleb _ 0); destruct (negb _); try done;
    (split; [|done]); intros k; by apply startOf_updCar.
Qed.

Lemma driveUpdate_times now id lm r :
  (forall k, startOf (driveUpdate now id lm r) k = startOf r k) /\
  completedCars (driveUpdate now id lm r) = completedCars r.
Proof.
  unfold driveUpdate. split.
  - intros k. rewrite !startOf_updCar by done.
    rewrite (proj1 (effectMergeState_times _ _)).
    rewrite (proj1 (effectSpeed_times _ _)).
    by rewrite startOf_updCar.
  - cbn. rewrite (proj2 (effectMergeState_times _ _)).
    by rewrite (proj2 (effectSpeed_times _ _)).
Qed.

Lemma drive_times now id r :
  (forall k, startOf (drive now id r) k = startOf r k) /\
  completedCars (drive now id r) = completedCars r.
Proof.
  unfold drive. destruct (heap r !! id) as [c|]; [|done].
  destruct (lastMoved c) as [lm|].
  - destruct (driveUpdate_times now id lm r) as [Hs Hcc].
    destruct (heap (driveUpdate now id lm r) !! id) as [c5|]; [|done].
    destruct (_ && _); [|done].
    destruct (merge_times id (driveUpdate now id lm r)) as [Hs' Hcc'].
    split; [|congruence]. intros k. by rewrite Hs'.
  - split; [|done]. intros k. by apply startOf_updCar.
Qed.

Lemma driveCar_times now id st :
  (forall k, startOf (driveCar now id st).1 k = startOf st.1 k) /\
  completedCars (driveCar now id st).1 = completedCars st.1.
Proof.
  destruct st as [r tr]. unfold driveCar. cbn [fst].
  destruct (heap r !! id) as [c0|]; [|done].
  destruct (drive_times now id r) as [Hs Hcc].
  destruct (heap (drive now id r) !! id) as [c|]; [|done].
  destruct (negb _); [|done]. destruct (negb _); [|done].
  destruct (setCarPos_times id (laneNumber c)
              (safeLaneX c (drive now id r)) (drive now id r)) as [Hs' Hcc'].
  destruct (setCarPos id _ _ _) as [result r2]. cbn [snd] in *.
  assert ((forall k, startOf r2 k = startOf r k)
          /\ completedCars r2 = completedCars r) as Hres.
  { split; [|congruence]. intros k. by rewrite Hs'. }
  by destruct result as [[| |[]]|].
Qed.

Lemma driveAll_times now r :
  (forall k, startOf (driveAll now r).1 k = startOf r k) /\
  completedCars (driveAll now r).1 = completedCars r.
Proof.
  unfold driveAll. generalize (sortBy (carOrder r) (cars r)).
  generalize (@nil Z). intros tr ids.
  change r with (r, tr).1 at 2 4. generalize (r, tr). clear.
  induction ids as [|id ids IH]; intros st; cbn [foldl]; [done|].
  destruct (IH (driveCar now id st)) as [Hs Hcc].
  destruct (driveCar_times now id st) as [Hs' Hcc'].
  split; [|congruence]. intros k. by rewrite Hs.
Qed.

Lemma removeCar_times t now r i :
  t <= now -> TimesOk t r -> TimesOk t (removeCar now r i).
Proof.
  intros Hle [Hs Hcc]. unfold removeCar.
  destruct (idx (cars r) i) as [id|]; [|done].
  destruct (heap r !! id) as [c|] eqn:Hc; [|done].
  destruct (startTime c) as [s|] eqn:Hstart; [|done].
  destruct (truthy _); [|done].
  split; [done|]. cbn. apply Forall_app. split; [done|].
  constructor; [|done]. cbn.
  assert (s <= t); [|lia]. apply (Hs id). unfold startOf.
  by rewrite Hc; cbn; rewrite Hstart.
Qed.

Lemma driveCars_times t r : TimesOk t r -> TimesOk t (driveCars t r).
Proof.
  intros [Hs Hcc]. unfold driveCars.
  destruct (driveAll_times t r) as [Hs1 Hcc1].
  destruct (driveAll t r) as [r1 tr]. cbn [fst] in *.
  assert (H1 : TimesOk t r1).
  { split; [|by rewrite Hcc1]. intros id s. rewrite Hs1. apply Hs. }
  clear Hs Hcc Hs1 Hcc1. revert r1 H1.
  induction (sortBy (fun a b => b - a) tr) as [|i rest IH]; intros r1 H1;
    cbn [foldl]; [done|].
  apply IH. apply removeCar_times; [lia | done].
Qed.

Lemma TimesOk_mono t t' r : TimesOk t r -> t <= t' -> TimesOk t' r.
Proof.
  intros [Hs Hcc] Hle. split; [|done]. intros id s Hst.
  specialize (Hs id s Hst). lia.
Qed.

Lemma generateRandomCar_times t mt coop agg u1 u2 id r :
  TimesOk t r -> TimesOk t (generateRandomCar mt coop agg u1 u2 t id r).
Proof.
  intros [Hs Hcc]. unfold generateRandomCar.
  destruct (getRandomLane u1 r) as [laneN|]; [|done].
  destruct (laneN >=? 0); [|done].
  unfold addCar. cbn [heap withHeap]. rewrite lookup_insert_eq.
  change (getRandomLane u2 (withHeap _ r)) with (getRandomLane u2 r).
  assert (H0 : TimesOk t
                 (withHeap (<[id := newCar mt coop agg laneN]> (heap r)) r)).
  { split; [|done]. intros k s. unfold startOf. cbn.
    destruct (decide (k = id)) as [->|Hne].
    - by rewrite lookup_insert_eq.
    - rewrite lookup_insert_ne by done. apply Hs. }
  destruct (getRandomLane u2 r) as [lane|]; [|done].
  destruct (lane <? 0); [done|].
  cbn [roadSpace withHeap].
  destruct (idx (roadSpace r) lane) as [laneArray|]; [|done].
  split; [|done]. intros k s. unfold startOf. cbn.
  destruct (decide (k = id)) as [->|Hne].
  - rewrite !lookup_alter_eq, lookup_insert_eq. cbn. intros [= <-]. lia.
  - rewrite !lookup_alter_ne, lookup_insert_ne by done. apply Hs.
Qed.

Lemma newRoad_times t lanes blocked size :
  TimesOk t (newRoad lanes blocked size).
Proof.
  unfold newRoad. destruct (_ || _); [by split|].
  unfold placeBlockage. destruct (_ <=? _); by split.
Qed.

(** On every reachable road the completion records have non-negative
    travel times. *)
Lemma Reachable_TimesOk t r : Reachable t r -> TimesOk t r.
Proof.
  induction 1 as [lanes blocked size t Hsize
                 | t t' r mt coop agg u1 u2 id _ IH Hle Hfresh
                 | t t' r _ IH Hle
                 | t r id _ IH Hin
                 | t t' r _ IH Hle].
  - apply newRoad_times.
  - apply generateRandomCar_times. by apply (TimesOk_mono t).
  - apply driveCars_times. by apply (TimesOk_mono t).
  - destruct IH as [Hs Hcc]. destruct (merge_times id r) as [Hs' Hcc'].
    split; [|by rewrite Hcc']. intros k s. rewrite Hs'. apply Hs.
  - destruct IH as [Hs Hcc]. split.
    + intros k s Hst. specialize (Hs k s Hst). lia.
    + cbn. apply Forall_forall. intros rec Hrec.
      apply list_elem_of_filter in Hrec as [_ Hrec].
      rewrite Forall_forall in Hcc. by apply Hcc.
Qed.

(** * Further properties of the engine *)

(** ** The road as constructed *)

Lemma fillBlock_loop_idx n lane j x :
  0 <= j -> j + Z.of_nat n <= len lane ->
  len (fillBlock_loop n lane j) = len lane /\
  idx (fillBlock_loop n lane j) x
  = if (j <=? x) && (x <? j + Z.of_nat n) then Some Block else idx lane x.
Proof.
  revert lane j. induction n as [|n IH]; intros lane j Hj Hn;
    cbn [fillBlock_loop].
  - split; [done|].
    destruct (Z.leb_spec j x); destruct (Z.ltb_spec x (j + Z.of_nat 0));
      cbn; try done; lia.
  - destruct (IH (setIdx lane j Block) (j + 1)) as [Hlen Hidx];
      [lia | rewrite len_setIdx; lia |].
    rewrite len_setIdx in Hlen. split; [done|]. rewrite Hidx.
    destruct (Z.leb_spec (j + 1) x); destruct (Z.leb_spec j x);
      destruct (Z.ltb_spec x (j + 1 + Z.of_nat n));
      destruct (Z.ltb_spec x (j + Z.of_nat (S n))); cbn;
      first [ lia | done
            | (assert (x = j) as -> by lia; apply idx_setIdx_eq; lia)
            | by (symmetry; apply idx_setIdx_ne; lia)
            | by (apply idx_setIdx_ne; lia) ].
Qed.

(** The grid after the first [i] rounds of [placeBlockage], and after [n]
    more. *)
Lemma placeBlockage_loop_layout n rs numLanes i :
  0 <= i -> i + Z.of_nat n <= numLanes ->
  len rs = numLanes ->
  Forall (fun l => len l = ROAD_WIDTH) rs ->
  (forall lane x, 0 <= lane < numLanes -> 0 <= x < ROAD_WIDTH ->
     cellAt rs lane x
     = Some (if (numLanes - i <=? lane) && (BLOCK_START <=? x)
             then Block else Null)) ->
  let rs' := placeBlockage_loop n rs numLanes i in
  len rs' = numLanes /\
  Forall (fun l => len l = ROAD_WIDTH) rs' /\
  forall lane x, 0 <= lane < numLanes -> 0 <= x < ROAD_WIDTH ->
    cellAt rs' lane x
    = Some (if (numLanes - (i + Z.of_nat n) <=? lane) && (BLOCK_START <=? x)
            then Block else Null).
Proof.
  revert rs i. induction n as [|n IH]; intros rs i Hi Hn Hlen Hshape Hcells;
    cbn [placeBlockage_loop].
  { cbn zeta. split; [done|]. split; [done|]. intros lane x Hl Hx.
    rewrite Hcells by done. by rewrite Z.add_0_r. }
  assert (Hrow : 0 <= numLanes - 1 - i < len rs) by lia.
  destruct (idx_is_Some rs _ Hrow) as [lane0 Hlane0]. rewrite Hlane0.
  assert (Hlen0 : len lane0 = ROAD_WIDTH).
  { rewrite Forall_forall in Hshape. apply Hshape.
    unfold idx in Hlane0. destruct (_ <? 0) in Hlane0; [done|].
    by eapply list_elem_of_lookup_2. }
  rewrite Hlen0. change (ROAD_WIDTH >=? BLOCK_START) with true. cbn match.
  change (Z.to_nat (ROAD_WIDTH - BLOCK_START)) with 10%nat.
  destruct (fillBlock_loop_idx 10 lane0 BLOCK_START 0) as [Hflen _];
    [done | rewrite Hlen0; done |].
  cbn zeta.
  replace (i + Z.of_nat (S n)) with ((i + 1) + Z.of_nat n) by lia.
  apply IH; [lia | lia | by rewrite len_setIdx | |].
  - unfold setIdx. destruct (_ <? 0); [done|].
    apply Forall_insert; [done | congruence].
  - intros lane x Hl Hx. unfold cellAt.
    destruct (decide (lane = numLanes - 1 - i)) as [->|Hne].
    + rewrite idx_setIdx_eq by done.
      destruct (fillBlock_loop_idx 10 lane0 BLOCK_START x) as [_ ->];
        [done | rewrite Hlen0; done |].
      specialize (Hcells (numLanes - 1 - i) x Hl Hx).
      unfold cellAt in Hcells. rewrite Hlane0 in Hcells. rewrite Hcells.
      unfold BLOCK_START, ROAD_WIDTH in *.
      destruct (Z.leb_spec 40 x); destruct (Z.ltb_spec x (40 + Z.of_nat 10));
        destruct (Z.leb_spec (numLanes - i) (numLanes - 1 - i));
        destruct (Z.leb_spec (numLanes - (i + 1)) (numLanes - 1 - i));
        cbn; try done; lia.
    + rewrite idx_setIdx_ne by done.
      specialize (Hcells lane x Hl Hx). unfold cellAt in Hcells.
      rewrite Hcells.
      destruct (Z.leb_spec (numLanes - i) lane);
        destruct (Z.leb_spec (numLanes - (i + 1)) lane); try done; lia.
Qed.

(** The grid of a road constructed with at least two lanes, not all of
    them blocked. *)
Lemma newRoad_cells lanes blocked size :
  2 <= lanes -> blocked < lanes ->
  len (roadSpace (newRoad lanes blocked size)) = lanes /\
  RoadShape (newRoad lanes blocked size) /\
  forall lane x, 0 <= lane < lanes -> 0 <= x < ROAD_WIDTH ->
    cellAt (roadSpace (newRoad lanes blocked size)) lane x
    = Some (if (lanes - blocked <=? lane) && (BLOCK_START <=? x)
            then Block else Null).
Proof.
  intros Hlanes Hblocked. unfold newRoad.
  destruct (Z.ltb_spec lanes 2) as [|_]; [lia|].
  destruct (Z.geb_spec blocked lanes) as [|_]; [lia|]. cbn [orb].
  set (rs0 := replicate (Z.to_nat lanes)
                        (replicate (Z.to_nat ROAD_WIDTH) Null)).
  assert (Hlen0 : len rs0 = lanes).
  { unfold len, rs0. rewrite length_replicate. lia. }
  unfold placeBlockage. cbn [roadSpace]. fold rs0. rewrite Hlen0.
  destruct (Z.leb_spec lanes blocked) as [|_]; [lia|].
  unfold RoadShape. cbn [roadSpace withBlockedLanes withRoadSpace].
  destruct (placeBlockage_loop_layout (Z.to_nat blocked) rs0 lanes 0)
    as (Hlen & Hshape & Hcells); [lia | lia | done | | |].
  - apply Forall_replicate. unfold len. by rewrite length_replicate.
  - intros lane x Hl Hx. unfold cellAt, rs0, idx.
    destruct (Z.ltb_spec lane 0) as [|_]; [lia|].
    rewrite lookup_replicate_2 by lia.
    destruct (Z.ltb_spec x 0) as [|_]; [lia|].
    rewrite lookup_replicate_2 by (unfold ROAD_WIDTH in *; lia).
    destruct (Z.leb_spec (lanes - 0) lane); [lia | done].
  - repeat (split; [done|]). intros lane x Hl Hx. rewrite Hcells by done.
    destruct (Z.leb_spec (lanes - (0 + Z.of_nat (Z.to_nat blocked))) lane);
      destruct (Z.leb_spec (lanes - blocked) lane); try done; lia.
Qed.

(** X1.  A road constructed with at least two lanes, not all of them
    blocked, has that many lanes of [ROAD_WIDTH] cells, no car, no trail and
    no completion record; a cell holds the blockage exactly when it is in
    one of the [blocked] rightmost lanes at column [BLOCK_START] or beyond,
    and every other cell is empty. *)
Theorem newRoad_layout lanes blocked size :
  2 <= lanes -> blocked < lanes ->
  let r := newRoad lanes blocked size in
  len (roadSpace r) = lanes /\ RoadShape r /\
  cars r = [] /\ trails r = [] /\ completedCars r = [] /\ heap r = ∅ /\
  spaceSize r = size /\
  forall lane x, 0 <= lane < lanes -> 0 <= x < ROAD_WIDTH ->
    (cellAt (roadSpace r) lane x = Some Block
     <-> lanes - blocked <= lane /\ BLOCK_START <= x) /\
    (cellAt (roadSpace r) lane x = Some Null
     <-> ~ (lanes - blocked <= lane /\ BLOCK_START <= x)).
Proof.
  intros Hlanes Hblocked. cbn zeta.
  destruct (newRoad_cells lanes blocked size Hlanes Hblocked)
    as (Hlen & Hshape & Hcells).
  split; [done|]. split; [done|].
  assert (Hbooks : cars (newRoad lanes blocked size) = []
    /\ trails (newRoad lanes blocked size) = []
    /\ completedCars (newRoad lanes blocked size) = []
    /\ heap (newRoad lanes blocked size) = ∅
    /\ spaceSize (newRoad lanes blocked size) = size).
  { unfold newRoad.
    destruct (Z.ltb_spec lanes 2) as [|_]; [lia|].
    destruct (Z.geb_spec blocked lanes) as [|_]; [lia|]. cbn [orb].
    unfold placeBlockage. by destruct (_ <=? _). }
  destruct Hbooks as (-> & -> & -> & -> & ->).
  repeat (split; [done|]). intros lane x Hl Hx. rewrite Hcells by done.
  destruct (Z.leb_spec (lanes - blocked) lane);
    destruct (Z.leb_spec BLOCK_START x); cbn [andb];
    split; split; intros ?; first [done | lia | exfalso; lia].
Qed.

Lemma newRoad_layout_witness :
  cellAt (roadSpace (newRoad 3 1 15)) 2 45 = Some Block /\
  cellAt (roadSpace (newRoad 3 1 15)) 2 39 = Some Null /\
  cellAt (roadSpace (newRoad 3 1 15)) 1 45 = Some Null.
Proof.
  destruct (newRoad_layout 3 1 15) as (_ & _ & _ & _ & _ & _ & _ & Hcells);
    [lia | lia |].
  split; [|split].
  - apply (Hcells 2 45); unfold ROAD_WIDTH, BLOCK_START; lia.
  - apply (Hcells 2 39); unfold ROAD_WIDTH, BLOCK_START; lia.
  - apply (Hcells 1 45); unfold ROAD_WIDTH, BLOCK_START; lia.
Defined.

(** ** The entry lane *)

Lemma openLanes_loop_acc n rs i acc lane :
  lane ∈ acc -> lane ∈ openLanes_loop n rs i acc.
Proof.
  revert i acc. induction n as [|n IH]; intros i acc Hin;
    cbn [openLanes_loop]; [done|].
  destruct (idx rs i) as [target|]; [|by apply IH].
  destruct (isNullish (idx target 0)); apply IH; [|done].
  apply elem_of_app. by left.
Qed.

Lemma openLanes_loop_complete n rs i acc lane target :
  i <= lane < i + Z.of_nat n ->
  idx rs lane = Some target -> isNullish (idx target 0) = true ->
  lane ∈ openLanes_loop n rs i acc.
Proof.
  revert i acc. induction n as [|n IH]; intros i acc Hi Ht Hopen;
    cbn [openLanes_loop]; [lia|].
  destruct (decide (lane = i)) as [->|Hne].
  - rewrite Ht, Hopen. apply openLanes_loop_acc, elem_of_app. right.
    by apply list_elem_of_singleton.
  - destruct (idx rs i) as [target'|]; [|apply IH; [lia|done|done]].
    destruct (isNullish (idx target' 0)); apply IH; solve [lia | done].
Qed.

Lemma Qfloor_scaled_range u n :
  (0 <= u)%Q -> (u < 1)%Q -> 0 < n ->
  0 <= Qfloor (u * inject_Z n)%Q < n.
Proof.
  intros Hu0 Hu1 Hn.
  assert (HnQ : (0 < inject_Z n)%Q).
  { change 0%Q with (inject_Z 0). rewrite <- Zlt_Qlt. lia. }
  split.
  - change 0 with (Qfloor (inject_Z 0)) at 1.
    apply Qfloor_resp_le. change (inject_Z 0) with 0%Q. nra.
  - rewrite Zlt_Qlt. eapply Qle_lt_trans; [apply Qfloor_le|]. nra.
Qed.

(** The lanes [getRandomLane] collects are the lanes with an empty entry
    cell. *)
Lemma openLanes_spec r lane :
  lane ∈ openLanes_loop (Z.to_nat (len (roadSpace r))) (roadSpace r) 0 []
  <-> exists target,
        idx (roadSpace r) lane = Some target /\
        isNullish (idx target 0) = true.
Proof.
  split.
  - intros [Hin|Hin]%openLanes_loop_elem; [|done].
    by apply not_elem_of_nil in Hin.
  - intros (target & Ht & Hopen).
    apply (openLanes_loop_complete _ _ _ _ _ target); [|done|done].
    apply idx_Some in Ht. lia.
Qed.

(** The draw picks one of the collected lanes, when there is one. *)
Lemma getRandomLane_pick u r :
  (0 <= u)%Q -> (u < 1)%Q ->
  let ol :=
    openLanes_loop (Z.to_nat (len (roadSpace r))) (roadSpace r) 0 [] in
  (ol = [] /\ getRandomLane u r = Some (-1))
  \/ (exists lane, lane ∈ ol /\ getRandomLane u r = Some lane).
Proof.
  intros Hu0 Hu1. cbn zeta. unfold getRandomLane.
  set (ol := openLanes_loop _ _ 0 []).
  destruct (Z.leb_spec (len ol) 0) as [Hempty|Hsome].
  - left. split; [|done]. destruct ol; [done|].
    unfold len in Hempty. cbn in Hempty. lia.
  - right.
    pose proof (Qfloor_scaled_range u (len ol) Hu0 Hu1 Hsome) as Hk.
    destruct (idx_is_Some ol _ Hk) as [lane Hlane].
    exists lane. split; [|done].
    unfold idx in Hlane. destruct (_ <? 0) in Hlane; [done|].
    by eapply list_elem_of_lookup_2.
Qed.

(** X2.  With a draw in [0, 1), [getRandomLane] answers [-1] exactly when
    no lane has an empty entry cell; otherwise it answers a lane of the road
    whose entry cell is empty.  It never answers [undefined]. *)
Theorem getRandomLane_draw u r :
  (0 <= u)%Q -> (u < 1)%Q ->
  (getRandomLane u r = Some (-1) /\
   forall lane target, idx (roadSpace r) lane = Some target ->
     isNullish (idx target 0) = false)
  \/
  (exists lane target,
     getRandomLane u r = Some lane /\ 0 <= lane < len (roadSpace r) /\
     idx (roadSpace r) lane = Some target /\
     isNullish (idx target 0) = true).
Proof.
  intros Hu0 Hu1.
  destruct (getRandomLane_pick u r Hu0 Hu1) as [[Hnil Hno]|(lane & Hin & Hyes)].
  - left. split; [done|]. intros lane target Ht.
    destruct (isNullish (idx target 0)) eqn:Hopen; [|done]. exfalso.
    assert (Hin : lane ∈ openLanes_loop (Z.to_nat (len (roadSpace r)))
                           (roadSpace r) 0 []).
    { apply openLanes_spec. eauto. }
    rewrite Hnil in Hin. by apply not_elem_of_nil in Hin.
  - right. apply openLanes_spec in Hin as (target & Ht & Hopen).
    exists lane, target. split; [done|]. split; [|done].
    by apply idx_Some in Ht.
Qed.

Lemma getRandomLane_draw_witness :
  exists lane target,
    getRandomLane (1 # 2) (newRoad 2 1 15) = Some lane /\
    0 <= lane < len (roadSpace (newRoad 2 1 15)) /\
    idx (roadSpace (newRoad 2 1 15)) lane = Some target /\
    isNullish (idx target 0) = true.
Proof.
  destruct (getRandomLane_draw (1 # 2) (newRoad 2 1 15)) as [[Hno _]|Hyes];
    [done | done | discriminate Hno | exact Hyes].
Defined.

(** X3.  Spawning on a road of full-width lanes.  When no entry cell is
    empty the road is returned as it was.  Otherwise the car enters the lane
    of the second draw: that lane's entry cell, empty before, now holds the
    car, no other cell changes, the car comes last in the car list, and its
    object is the constructed one recorded at column 0 of that lane with the
    clock reading as start time, whatever lane the first draw named. *)
Theorem generateRandomCar_spawn mt coop agg u1 u2 now id r :
  (0 <= u1)%Q -> (u1 < 1)%Q -> (0 <= u2)%Q -> (u2 < 1)%Q ->
  RoadShape r ->
  let r' := generateRandomCar mt coop agg u1 u2 now id r in
  ((forall lane, cellAt (roadSpace r) lane 0 <> Some Null) /\ r' = r)
  \/
  (exists lane,
     getRandomLane u2 r = Some lane /\
     cellAt (roadSpace r) lane 0 = Some Null /\
     (forall lane' x',
        cellAt (roadSpace r') lane' x'
        = if decide ((lane', x') = (lane, 0)) then Some (Ref id)
          else cellAt (roadSpace r) lane' x') /\
     cars r' = cars r ++ [id] /\
     heap r' !! id = Some (setStart now lane (newCar mt coop agg lane)) /\
     (forall k, k <> id -> heap r' !! k = heap r !! k) /\
     trails r' = trails r /\ completedCars r' = completedCars r /\
     blockedLanes r' = blockedLanes r /\ spaceSize r' = spaceSize r).
Proof.
  intros Hu1 Hu1' Hu2 Hu2' Hshape. cbn zeta. unfold generateRandomCar.
  destruct (getRandomLane_pick u1 r Hu1 Hu1')
    as [[Hnil Hno]|(lane1 & Hin1 & ->)].
  - left. rewrite Hno. split; [|done]. intros lane Hcell.
    apply cellAt_Some in Hcell as (l & Hl & Hx).
    assert (Hin : lane ∈ openLanes_loop (Z.to_nat (len (roadSpace r)))
                           (roadSpace r) 0 []).
    { apply openLanes_spec. exists l. by rewrite Hx. }
    rewrite Hnil in Hin. by apply not_elem_of_nil in Hin.
  - right.
    pose proof Hin1 as (target1 & [Hlane1 _]%idx_Some & _)%openLanes_spec.
    destruct (Z.geb_spec lane1 0) as [_|]; [|lia].
    destruct (getRandomLane_pick u2 r Hu2 Hu2')
      as [[Hnil _]|(lane & Hin & Hrand)].
    { rewrite Hnil in Hin1. by apply not_elem_of_nil in Hin1. }
    apply openLanes_spec in Hin as (target & Ht & Hopen).
    pose proof Ht as [Hlane _]%idx_Some.
    exists lane. split; [done|].
    pose proof (RoadShape_idx _ _ _ Hshape Ht) as Hlen.
    assert (Hnull : cellAt (roadSpace r) lane 0 = Some Null).
    { unfold cellAt. rewrite Ht.
      destruct (idx_is_Some target 0) as [cell Hcell];
        [rewrite Hlen; unfold ROAD_WIDTH; lia|].
      rewrite Hcell in Hopen |- *. by destruct cell. }
    split; [done|].
    unfold addCar. cbn [heap withHeap]. rewrite lookup_insert_eq.
    change (getRandomLane u2 (withHeap _ r)) with (getRandomLane u2 r).
    rewrite Hrand. destruct (Z.ltb_spec lane 0) as [|_]; [lia|].
    cbn [roadSpace withHeap]. rewrite Ht.
    assert (Hgrid : setIdx (roadSpace r) lane (setIdx target 0 (Ref id))
                    = setCell (roadSpace r) lane 0 (Ref id)).
    { unfold setCell. by rewrite Ht. }
    cbn [roadSpace cars spaceSize heap updCar withCars withRoadSpace withHeap
         trails completedCars blockedLanes].
    rewrite Hgrid. split; [|split; [done|split; [|split; [|done]]]].
    + intros lane' x'. destruct (decide _) as [[= -> ->]|Hne].
      * apply cellAt_setCell_eq. by rewrite Hnull.
      * by rewrite cellAt_setCell_ne by congruence.
    + by rewrite !lookup_alter_eq, lookup_insert_eq.
    + intros k Hk. by rewrite !lookup_alter_ne, lookup_insert_ne.
Qed.

Lemma generateRandomCar_spawn_witness :
  let r := newRoad 2 1 15 in
  let r' := generateRandomCar (9 # 10) 1 (1 # 2) 0 (1 # 2) 1000 0%nat r in
  ((forall lane, cellAt (roadSpace r) lane 0 <> Some Null) /\ r' = r)
  \/
  (exists lane,
     getRandomLane (1 # 2) r = Some lane /\
     cellAt (roadSpace r) lane 0 = Some Null /\
     (forall lane' x',
        cellAt (roadSpace r') lane' x'
        = if decide ((lane', x') = (lane, 0)) then Some (Ref 0%nat)
          else cellAt (roadSpace r) lane' x') /\
     cars r' = cars r ++ [0%nat] /\
     heap r' !! 0%nat
     = Some (setStart 1000 lane (newCar (9 # 10) 1 (1 # 2) lane)) /\
     (forall k, k <> 0%nat -> heap r' !! k = heap r !! k) /\
     trails r' = trails r /\ completedCars r' = completedCars r /\
     blockedLanes r' = blockedLanes r /\ spaceSize r' = spaceSize r).
Proof.
  apply generateRandomCar_spawn; [done | done | done | done |].
  exact (wf_shape 0 _ (newRoad_WellFormed 0 2 1 15 eq_refl)).
Defined.

(** ** The distance scan *)

Lemma getDistance_loop_scan n r l target i d :
  let res := getDistance_loop n r l target i d in
  (res = 100 /\
   forall k, i <= k < i + Z.of_nat n -> scanHit r target (idx l k) = false)
  \/
  (exists j, 0 <= j < Z.of_nat n /\ res = d + j /\
     scanHit r target (idx l (i + j)) = true /\
     forall k, i <= k < i + j -> scanHit r target (idx l k) = false).
Proof.
  revert i d. induction n as [|n IH]; intros i d; cbn [getDistance_loop].
  { left. split; [done|]. lia. }
  cbn zeta. destruct (scanHit r target (idx l i)) eqn:Hhit.
  - right. exists 0. rewrite !Z.add_0_r. repeat split; [lia..|done|lia].
  - destruct (IH (i + 1) (d + 1))
      as [[Hres Hnone]|(j & Hj & Hres & Hj' & Hnone)].
    + left. split; [done|]. intros k Hk.
      destruct (decide (k = i)) as [->|]; [done|]. apply Hnone. lia.
    + right. exists (j + 1). split; [lia|]. split; [lia|].
      replace (i + (j + 1)) with (i + 1 + j) by lia. split; [done|].
      intros k Hk. destruct (decide (k = i)) as [->|]; [done|].
      apply Hnone. lia.
Qed.

(** X4.  The contract of the distance scan.  [getDistance] answers [-1] for
    a lane that is not on the road and [-2] from the last column of a lane
    or beyond.  Otherwise it answers the number of cells between the
    starting column and the first cell ahead that matches the target kind,
    every cell before that one not matching; when no cell ahead matches it
    answers the far value 100. *)
Theorem getDistance_scan r lane x target :
  match getLaneData r lane with
  | None => getDistance r lane x target = -1
  | Some l =>
      if len l <=? x + 1 then getDistance r lane x target = -2
      else
        let d := getDistance r lane x target in
        (d = 100 /\
         forall k, x < k < len l -> scanHit r target (idx l k) = false)
        \/
        (0 <= d < len l - x - 1 /\
         scanHit r target (idx l (x + 1 + d)) = true /\
         forall k, x < k < x + 1 + d -> scanHit r target (idx l k) = false)
  end.
Proof.
  unfold getDistance. destruct (getLaneData r lane) as [l|]; [|done].
  cbn zeta. destruct (Z.leb_spec (len l) (x + 1)) as [Hlast|Hin];
    destruct (Z.geb_spec (x + 1) (len l)) as [Hlast'|Hin']; try lia.
  destruct (getDistance_loop_scan (Z.to_nat (len l - (x + 1))) r l target
              (x + 1) 0) as [[Hres Hnone]|(j & Hj & Hres & Hhit & Hnone)].
  - left. split; [done|]. intros k Hk. apply Hnone. lia.
  - right. rewrite Hres. cbn. split; [lia|]. split; [done|].
    intros k Hk. apply Hnone. lia.
Qed.

(** ** Merge urgency *)

(** Integer comparisons with a constant, as comparisons of rationals; a
    strict upper bound is taken to the integer below it first. *)
Ltac z2q :=
  repeat match goal with
         | H : _ /\ _ |- _ => destruct H
         | H : (?a < Z.pos ?p)%Z |- _ =>
             let k := eval compute in (Z.pos p - 1) in
             assert (a <= k)%Z by lia; clear H
         | H : (_ <= _)%Z |- _ => rewrite Zle_Qle in H
         | H : (_ < _)%Z |- _ => rewrite Zlt_Qlt in H
         end;
  repeat match goal with
         | H : context [inject_Z (Z.pos ?p)] |- _ =>
             change (inject_Z (Z.pos p)) with (Z.pos p # 1) in H
         | H : context [inject_Z 0] |- _ => change (inject_Z 0) with 0%Q in H
         end.

(** The urgency factor as a function of the distance to the blockage. *)
Lemma mergeUrgency_profile (d1 d2 : Z) (f : Z -> Q) :
  (forall d, f d =
     if (d <? 0) || (d >=? 100) then 1%Q
     else if d >=? 20 then 1%Q
     else if d >=? 10 then ((7 # 10) + inject_Z (d - 10) * (3 # 100))%Q
     else if d >=? 5 then ((5 # 10) + inject_Z (d - 5) * (4 # 100))%Q
     else Qmax (3 # 10) ((3 # 10) + inject_Z (d - 2) * (67 # 1000))%Q) ->
  (3 # 10 <= f d1 <= 1)%Q /\
  (0 <= d1 <= d2 -> (f d1 <= f d2)%Q).
Proof.
  intros Hf.
  assert (Hval : forall d,
    (d < 0 \/ 20 <= d) /\ (f d == 1)%Q \/
    (10 <= d < 20) /\ (f d == (7 # 10) + (inject_Z d - 10) * (3 # 100))%Q \/
    (5 <= d < 10) /\ (f d == (5 # 10) + (inject_Z d - 5) * (4 # 100))%Q \/
    (2 <= d < 5) /\ (f d == (3 # 10) + (inject_Z d - 2) * (67 # 1000))%Q \/
    (0 <= d < 2) /\ (f d == 3 # 10)%Q).
  { intros d. rewrite Hf.
    pose proof (inject_Z_sub d 10) as E10. pose proof (inject_Z_sub d 5) as E5.
    pose proof (inject_Z_sub d 2) as E2.
    change (inject_Z 10) with 10%Q in E10. change (inject_Z 5) with 5%Q in E5.
    change (inject_Z 2) with 2%Q in E2.
    destruct (Z.ltb_spec d 0) as [|H0]; [left; split; [lia|done]|].
    destruct (Z.geb_spec d 100) as [|H100]; [left; split; [lia|done]|].
    cbn [orb].
    destruct (Z.geb_spec d 20) as [|H20]; [left; split; [lia|done]|].
    destruct (Z.geb_spec d 10) as [H10|H10];
      [right; left; split; [lia|]; by rewrite E10|].
    destruct (Z.geb_spec d 5) as [H5|H5];
      [right; right; left; split; [lia|]; by rewrite E5|].
    right; right; right.
    destruct (Z.le_gt_cases 2 d) as [H2|H2].
    - left. split; [lia|]. clear H0 H100 H20 H10 H5. z2q.
      rewrite Q.max_r; [by rewrite E2|]. rewrite E2. lra.
    - right. split; [lia|]. clear H0 H100 H20 H10 H5. z2q.
      rewrite Q.max_l; [done|]. rewrite E2. lra. }
  split.
  - destruct (Hval d1) as [[H E]|[[H E]|[[H E]|[[H E]|[H E]]]]]; rewrite E;
      try lra; z2q; lra.
  - intros [H0 Hle].
    destruct (Hval d1) as [[H1 E1]|[[H1 E1]|[[H1 E1]|[[H1 E1]|[H1 E1]]]]];
      destruct (Hval d2) as [[H2 E2]|[[H2 E2]|[[H2 E2]|[[H2 E2]|[H2 E2]]]]];
      rewrite E1, E2; try lia; try lra; z2q; lra.
Qed.

(** X5.  The urgency factor lies between 0.3 and 1, and it does not
    decrease with the distance to the blockage: of two cars that both have
    the blockage ahead in their lane, the nearer one has the smaller or
    equal factor, hence the smaller or equal merge space requirement
    scale. *)
Theorem getMergeUrgency_bounds_monotone c r c' r' :
  (3 # 10 <= getMergeUrgency c r <= 1)%Q /\
  (0 <= getDistance r (laneNumber c) (lanePosX c) BlockageSpace
     <= getDistance r' (laneNumber c') (lanePosX c') BlockageSpace ->
   (getMergeUrgency c r <= getMergeUrgency c' r')%Q).
Proof.
  set (f := fun d : Z =>
     if (d <? 0) || (d >=? 100) then 1%Q
     else if d >=? 20 then 1%Q
     else if d >=? 10 then ((7 # 10) + inject_Z (d - 10) * (3 # 100))%Q
     else if d >=? 5 then ((5 # 10) + inject_Z (d - 5) * (4 # 100))%Q
     else Qmax (3 # 10) ((3 # 10) + inject_Z (d - 2) * (67 # 1000))%Q).
  change (getMergeUrgency c r)
    with (f (getDistance r (laneNumber c) (lanePosX c) BlockageSpace)).
  change (getMergeUrgency c' r')
    with (f (getDistance r' (laneNumber c') (lanePosX c') BlockageSpace)).
  by apply mergeUrgency_profile.
Qed.

Lemma getMergeUrgency_bounds_monotone_witness :
  (getMergeUrgency (carAtPos 1 36) roadNearBlockage
   <= getMergeUrgency (carAtPos 1 30) roadNearBlockage)%Q.
Proof.
  apply (proj2 (getMergeUrgency_bounds_monotone
                  (carAtPos 1 36) roadNearBlockage
                  (carAtPos 1 30) roadNearBlockage)).
  vm_compute. split; discriminate.
Defined.

(** ** What the engine never changes in a car object *)

Lemma carKept_refl c : carKept c c.
Proof. unfold carKept. repeat split; first [done | lia | by left]. Qed.

Lemma carKept_trans c1 c2 c3 :
  carKept c1 c2 -> carKept c2 c3 -> carKept c1 c3.
Proof.
  intros (? & ? & ? & ? & ? & ? & ? & Hv) (? & ? & ? & ? & ? & ? & ? & Hv').
  unfold carKept. repeat split; try congruence; [lia|].
  destruct Hv' as [->|?]; [done | by right].
Qed.

Lemma roadKept_refl r : roadKept r r.
Proof. intros k. destruct (heap r !! k); constructor. apply carKept_refl. Qed.

Lemma roadKept_trans r1 r2 r3 :
  roadKept r1 r2 -> roadKept r2 r3 -> roadKept r1 r3.
Proof.
  intros Ha Hb k. specialize (Ha k). specialize (Hb k).
  destruct Ha as [c1 c2 H12|]; inversion Hb as [? c3 H23|]; subst;
    constructor. by eapply carKept_trans.
Qed.

Lemma roadKept_heap r r' : heap r' = heap r -> roadKept r r'.
Proof. intros E k. rewrite E. apply roadKept_refl. Qed.

Lemma roadKept_updCar r k f :
  (forall c, carKept c (f c)) -> roadKept r (updCar k f r).
Proof.
  intros Hf j. rewrite updCar_lookup.
  destruct (decide (j = k)) as [->|Hne].
  - destruct (heap r !! k); constructor. apply Hf.
  - destruct (heap r !! j); constructor. apply carKept_refl.
Qed.

(** The assignments of the engine, one by one. *)
Lemma carKept_fields c :
  (forall lane x, carKept c (setLanePos lane x c)) /\
  (forall s, carKept c (setState s c)) /\
  (forall b, carKept c (setIndicator b c)) /\
  (forall t, carKept c (setLastMoved t c)) /\
  (forall d, carKept c (setDistance d c)) /\
  carKept c (alertMerge c) /\
  (forall d, carKept c (adjustSpeedBy d c)).
Proof.
  repeat split; try done; cbn; try lia; try (by left).
  all: try (unfold adjustSpeedBy; repeat destruct (Qleb _ _); done).
  right. apply adjustSpeedBy_speed.
Qed.

Lemma roadKept_alertRearDriver c r lane :
  roadKept r (alertRearDriver c r lane).
Proof.
  rewrite alertRearDriver_nearest.
  destruct (nearestCarBehind r lane (lanePosX c)).
  - apply roadKept_updCar. intros c'. apply carKept_fields.
  - apply roadKept_refl.
Qed.

Lemma roadKept_setCarPos id lane x r : roadKept r (setCarPos id lane x r).2.
Proof.
  unfold setCarPos. destruct (heap r !! id) as [c|]; [|apply roadKept_refl].
  destruct (_ || _); [apply roadKept_refl|].
  destruct (_ || _); [apply roadKept_refl|].
  set (r1 := if negb (laneNumber c =? lane)
             then updCar id alertMerge (alertRearDriver c r lane) else r).
  assert (H1 : roadKept r r1).
  { subst r1. destruct (negb _); [|apply roadKept_refl].
    eapply roadKept_trans; [apply roadKept_alertRearDriver|].
    apply roadKept_updCar. intros c'. apply carKept_fields. }
  destruct (negb (isNullish _)); cbn [snd].
  - by apply (roadKept_trans _ r1); [|apply roadKept_heap].
  - eapply roadKept_trans; [exact H1|].
    eapply roadKept_trans; [|apply roadKept_updCar; intros c';
                              apply carKept_fields].
    by apply roadKept_heap.
Qed.

Lemma roadKept_merge id r : roadKept r (merge id r).
Proof.
  unfold merge. destruct (heap r !! id) as [c|]; [|apply roadKept_refl].
  destruct (_ <? 0); [apply roadKept_refl|].
  destruct (isNullish _); [|apply roadKept_refl]. apply roadKept_setCarPos.
Qed.

Lemma roadKept_effectSpeed id r : roadKept r (effectSpeed id r).
Proof.
  unfold effectSpeed. destruct (heap r !! id) as [c|]; [|apply roadKept_refl].
  destruct (speedDifference c r) as [d|]; [|apply roadKept_refl].
  apply roadKept_updCar. intros c'. apply carKept_fields.
Qed.

Lemma roadKept_effectMergeState id r : roadKept r (effectMergeState id r).
Proof.
  unfold effectMergeState.
  destruct (heap r !! id) as [c|]; [|apply roadKept_refl].
  destruct (Qleb _ 0); destruct (negb _);
    first [ apply roadKept_refl
          | apply roadKept_updCar; intros c'; apply carKept_fields ].
Qed.

Lemma roadKept_driveUpdate now id lm r : roadKept r (driveUpdate now id lm r).
Proof.
  unfold driveUpdate.
  repeat (eapply roadKept_trans;
          [|apply roadKept_updCar; intros c'; apply carKept_fields]).
  eapply roadKept_trans; [|apply roadKept_effectMergeState].
  eapply roadKept_trans; [|apply roadKept_effectSpeed].
  apply roadKept_updCar. intros c'. apply carKept_fields.
Qed.

Lemma roadKept_drive now id r : roadKept r (drive now id r).
Proof.
  unfold drive. destruct (heap r !! id) as [c|]; [|apply roadKept_refl].
  destruct (lastMoved c) as [lm|].
  - pose proof (roadKept_driveUpdate now id lm r) as H5.
    destruct (heap (driveUpdate now id lm r) !! id) as [c5|]; [|done].
    destruct (_ && _); [|done].
    eapply roadKept_trans; [exact H5 | apply roadKept_merge].
  - apply roadKept_updCar. intros c'. apply carKept_fields.
Qed.

Lemma roadKept_driveCar now id st : roadKept st.1 (driveCar now id st).1.
Proof.
  destruct st as [r tr]. unfold driveCar. cbn [fst].
  destruct (heap r !! id) as [c0|]; [|apply roadKept_refl].
  pose proof (roadKept_drive now id r) as H1.
  destruct (heap (drive now id r) !! id) as [c|]; [|done].
  destruct (negb _); [|done]. destruct (negb _); [|done].
  pose proof (roadKept_setCarPos id (laneNumber c)
                (safeLaneX c (drive now id r)) (drive now id r)) as H2.
  destruct (setCarPos id _ _ _) as [result r2]. cbn [snd] in *.
  assert (roadKept r r2) by (by eapply roadKept_trans).
  by destruct result as [[| |[]]|].
Qed.

Lemma roadKept_driveAll now r : roadKept r (driveAll now r).1.
Proof.
  unfold driveAll. generalize (sortBy (carOrder r) (cars r)).
  generalize (@nil Z). intros tr ids.
  change r with (r, tr).1 at 1. generalize (r, tr). clear.
  induction ids as [|id ids IH]; intros st; cbn [foldl];
    [apply roadKept_refl|].
  eapply roadKept_trans; [apply roadKept_driveCar | apply IH].
Qed.

Lemma removeCar_heap now r i : heap (removeCar now r i) = heap r.
Proof.
  unfold removeCar. destruct (idx (cars r) i) as [id|]; [|done].
  destruct (heap r !! id) as [c|]; [|done].
  destruct (startTime c); [|done]. by destruct (truthy _).
Qed.

Lemma removeAll_heap now items r :
  heap (foldl (removeCar now) r items) = heap r.
Proof.
  revert r. induction items as [|i items IH]; intros r; cbn [foldl]; [done|].
  by rewrite IH, removeCar_heap.
Qed.

Lemma roadKept_driveCars now r : roadKept r (driveCars now r).
Proof.
  unfold driveCars. pose proof (roadKept_driveAll now r) as H1.
  destruct (driveAll now r) as [r1 tr]. cbn [fst] in H1.
  eapply roadKept_trans; [exact H1|]. apply roadKept_heap.
  apply removeAll_heap.
Qed.

(** X6.  A tick keeps every car object in the store, the removed ones
    included, and never touches what the constructor set: the three traits,
    the following distance derived from the aggressiveness, and the entry
    time and lane are the same after the tick.  The cars-let-in counter has
    not gone down, and the speed is what it was or has been set within the
    range from 0 to [MAX_SPEED]. *)
Theorem driveCars_keeps_traits now r k :
  match heap r !! k, heap (driveCars now r) !! k with
  | Some c, Some c' =>
      mergeTendency c' = mergeTendency c /\
      cooperation c' = cooperation c /\
      aggressiveness c' = aggressiveness c /\
      followingDistance c' = followingDistance c /\
      startTime c' = startTime c /\
      startLane c' = startLane c /\
      carsLetIn c <= carsLetIn c' /\
      (speed c' = speed c \/ (0 <= speed c' <= MAX_SPEED)%Q)
  | None, None => True
  | _, _ => False
  end.
Proof.
  pose proof (roadKept_driveCars now r k) as H.
  destruct H as [c c' (? & ? & ? & ? & ? & ? & ? & ?)|]; [|done].
  repeat split; done.
Qed.

(** ** Car objects on reachable roads *)

Lemma newRoad_heap lanes blocked size : heap (newRoad lanes blocked size) = ∅.
Proof.
  unfold newRoad. destruct (_ || _); [done|].
  unfold placeBlockage. by destruct (_ <=? _).
Qed.

(** The store after a spawn: the objects it had, and the constructed one. *)
Lemma generateRandomCar_heap mt coop agg u1 u2 now id r k c' :
  heap (generateRandomCar mt coop agg u1 u2 now id r) !! k = Some c' ->
  heap r !! k = Some c' \/
  (k = id /\ exists lane0 lane x s,
     c' = mkCar mt coop agg lane x Default MAX_SPEED 0
                (getValueFromNormalized agg FOLLOWING_DISTANCE_LOW
                   FOLLOWING_DISTANCE_MID FOLLOWING_DISTANCE_HIGH)
                false None 0%Q s lane0).
Proof.
  unfold generateRandomCar.
  destruct (getRandomLane u1 r) as [laneN|]; [|by left].
  destruct (laneN >=? 0); [|by left].
  unfold addCar. cbn [heap withHeap]. rewrite lookup_insert_eq.
  change (getRandomLane u2 (withHeap _ r)) with (getRandomLane u2 r).
  assert (H0 :
    (<[id := newCar mt coop agg laneN]> (heap r)) !! k = Some c' ->
    heap r !! k = Some c' \/
    (k = id /\ exists lane0 lane x s,
       c' = mkCar mt coop agg lane x Default MAX_SPEED 0
                  (getValueFromNormalized agg FOLLOWING_DISTANCE_LOW
                     FOLLOWING_DISTANCE_MID FOLLOWING_DISTANCE_HIGH)
                  false None 0%Q s lane0)).
  { destruct (decide (k = id)) as [->|Hne].
    - rewrite lookup_insert_eq. intros [= <-]. right. split; [done|].
      by exists laneN, laneN, 0, None.
    - rewrite lookup_insert_ne by done. by left. }
  destruct (getRandomLane u2 r) as [lane|]; [|exact H0].
  destruct (lane <? 0); [exact H0|].
  cbn [roadSpace withHeap].
  destruct (idx (roadSpace r) lane) as [laneArray|]; [|exact H0].
  cbn [heap updCar withHeap withCars withRoadSpace].
  destruct (decide (k = id)) as [->|Hne].
  - rewrite !lookup_alter_eq, lookup_insert_eq. cbn. intros [= <-].
    right. split; [done|]. by exists lane, lane, 0, (Some now).
  - rewrite !lookup_alter_ne, lookup_insert_ne by done. by left.
Qed.

(** X7.  On every road the engine can reach, every car object has a speed
    between 0 and [MAX_SPEED], a cars-let-in counter that is not negative,
    and the following distance that the constructor derived from its
    aggressiveness. *)
Theorem Reachable_car_ranges t r k c :
  Reachable t r -> heap r !! k = Some c ->
  (0 <= speed c <= MAX_SPEED)%Q /\
  0 <= carsLetIn c /\
  followingDistance c
  = getValueFromNormalized (aggressiveness c) FOLLOWING_DISTANCE_LOW
      FOLLOWING_DISTANCE_MID FOLLOWING_DISTANCE_HIGH.
Proof.
  intros Hreach. revert k c.
  assert (Hkept : forall r r' : Road,
    roadKept r r' ->
    (forall k c, heap r !! k = Some c ->
       (0 <= speed c <= MAX_SPEED)%Q /\ 0 <= carsLetIn c /\
       followingDistance c
       = getValueFromNormalized (aggressiveness c) FOLLOWING_DISTANCE_LOW
           FOLLOWING_DISTANCE_MID FOLLOWING_DISTANCE_HIGH) ->
    forall k c, heap r' !! k = Some c ->
       (0 <= speed c <= MAX_SPEED)%Q /\ 0 <= carsLetIn c /\
       followingDistance c
       = getValueFromNormalized (aggressiveness c) FOLLOWING_DISTANCE_LOW
           FOLLOWING_DISTANCE_MID FOLLOWING_DISTANCE_HIGH).
  { intros r0 r' Hk IH k c' Hc'. specialize (Hk k). rewrite Hc' in Hk.
    inversion Hk as [c0 ? Hcc Hc0|]; subst. symmetry in Hc0.
    destruct (IH k c0 Hc0) as (Hv & Hn & Hfd).
    destruct Hcc as (_ & _ & Hagg & Hfd' & _ & _ & Hn' & Hv').
    split; [|split; [lia | congruence]].
    destruct Hv' as [->|Hv']; done. }
  induction Hreach as [lanes blocked size t Hsize
                      | t t' r mt coop agg u1 u2 id _ IH Hle Hfresh
                      | t t' r _ IH Hle
                      | t r id _ IH Hin
                      | t t' r _ IH Hle]; intros k c Hc.
  - by rewrite newRoad_heap in Hc.
  - apply generateRandomCar_heap in Hc
      as [Hc|[_ (lane0 & lane & x & s & ->)]]; [by apply (IH k)|].
    cbn. split; [|done]. split; [discriminate | apply Qle_refl].
  - by apply (Hkept r (driveCars t' r) (roadKept_driveCars t' r) IH k).
  - by apply (Hkept r (merge id r) (roadKept_merge id r) IH k).
  - by apply (IH k).
Qed.

Lemma Reachable_car_ranges_witness :
  exists c,
    heap roadOneCar !! 0%nat = Some c /\
    (0 <= speed c <= MAX_SPEED)%Q /\
    0 <= carsLetIn c /\
    followingDistance c
    = getValueFromNormalized (aggressiveness c) FOLLOWING_DISTANCE_LOW
        FOLLOWING_DISTANCE_MID FOLLOWING_DISTANCE_HIGH.
Proof.
  eexists. split; [vm_compute; reflexivity|].
  apply (Reachable_car_ranges 1000 roadOneCar 0%nat).
  - unfold roadOneCar. apply (reach_tick 1000); [|lia].
    apply (reach_spawn 0); [|lia|reflexivity].
    apply reach_new. reflexivity.
  - vm_compute. reflexivity.
Defined.

(** ** Progress within a tick *)

Lemma sameCoreBut_refl id r : sameCoreBut id r r.
Proof.
  intros k _. destruct (heap r !! k); constructor. apply sameCore_refl.
Qed.

Lemma sameCoreBut_trans id r1 r2 r3 :
  sameCoreBut id r1 r2 -> sameCoreBut id r2 r3 -> sameCoreBut id r1 r3.
Proof.
  intros Ha Hb k Hk. specialize (Ha k Hk). specialize (Hb k Hk).
  destruct Ha as [c1 c2 H12|]; inversion Hb as [? c3 H23|]; subst;
    constructor.
  destruct H12 as (? & ? & ? & ? & ?), H23 as (? & ? & ? & ? & ?).
  repeat split; congruence.
Qed.

Lemma sameCoreBut_heap id r r' : heap r' = heap r -> sameCoreBut id r r'.
Proof. intros E k Hk. rewrite E. by apply (sameCoreBut_refl id r k). Qed.

Lemma sameCoreBut_updCar id f r : sameCoreBut id r (updCar id f r).
Proof.
  intros k Hk. rewrite updCar_lookup_ne by done.
  by apply (sameCoreBut_refl id r k).
Qed.

Lemma sameCoreBut_sameCoreRoad id r r' :
  sameCoreRoad r r' -> sameCoreBut id r r'.
Proof. intros (_ & _ & _ & H) k _. apply H. Qed.

Lemma sameCoreBut_lookup id r r' k c :
  sameCoreBut id r r' -> k <> id -> heap r !! k = Some c ->
  exists c', heap r' !! k = Some c' /\ sameCore c c'.
Proof.
  intros H Hk Hc. specialize (H k Hk). rewrite Hc in H.
  inversion H; subst. eauto.
Qed.

(** What [setCarPos] does to the object of the car it moves: the recorded
    place is the old one or the destination, and the rest of what the
    stepper reads is as before. *)
Lemma setCarPos_self id c lane x r :
  heap r !! id = Some c ->
  exists c', heap (setCarPos id lane x r).2 !! id = Some c' /\
    speed c' = speed c /\ distance c' = distance c /\
    lastMoved c' = lastMoved c /\ state c' = state c /\
    indicator c' = indicator c /\
    (((setCarPos id lane x r).1 = Some (-1) /\
      laneNumber c' = laneNumber c /\ lanePosX c' = lanePosX c)
     \/ ((setCarPos id lane x r).1 = Some 0 /\
         laneNumber c' = lane /\ lanePosX c' = x)).
Proof.
  intros Hc. unfold setCarPos. rewrite Hc.
  destruct (_ || _); [exists c; by auto 10|].
  destruct (_ || _); [exists c; by auto 10|].
  set (r1 := if negb (laneNumber c =? lane)
             then updCar id alertMerge (alertRearDriver c r lane) else r).
  assert (H1 : exists c1, heap r1 !! id = Some c1 /\
    speed c1 = speed c /\ distance c1 = distance c /\
    lastMoved c1 = lastMoved c /\ state c1 = state c /\
    indicator c1 = indicator c /\
    laneNumber c1 = laneNumber c /\ lanePosX c1 = lanePosX c).
  { subst r1. destruct (negb _); [|exists c; by auto 10].
    rewrite alertRearDriver_nearest.
    destruct (nearestCarBehind r lane (lanePosX c)) as [k|].
    - rewrite !updCar_lookup, decide_True by done.
      destruct (decide (id = k)); rewrite Hc; cbn; eexists;
        (split; [done|]); cbn; by auto 10.
    - rewrite updCar_lookup_eq with (c := c) by done.
      eexists; (split; [done|]); cbn; by auto 10. }
  destruct H1 as (c1 & Hc1 & ? & ? & ? & ? & ? & ? & ?).
  destruct (negb (isNullish _)); cbn [fst snd].
  - exists c1. split; [done|]. by auto 10.
  - rewrite updCar_lookup_eq with (c := c1) by done.
    eexists. split; [done|]. cbn. by auto 10.
Qed.

Lemma sameCoreBut_setCarPos id lane x r :
  sameCoreBut id r (setCarPos id lane x r).2.
Proof.
  unfold setCarPos. destruct (heap r !! id) as [c|];
    [|apply sameCoreBut_refl].
  destruct (_ || _); [apply sameCoreBut_refl|].
  destruct (_ || _); [apply sameCoreBut_refl|].
  set (r1 := if negb (laneNumber c =? lane)
             then updCar id alertMerge (alertRearDriver c r lane) else r).
  assert (H1 : sameCoreBut id r r1).
  { subst r1. destruct (negb _); [|apply sameCoreBut_refl].
    apply sameCoreBut_sameCoreRoad, sameCoreRoad_alerts. }
  destruct (negb (isNullish _)); cbn [snd].
  - eapply sameCoreBut_trans; [exact H1|]. by apply sameCoreBut_heap.
  - eapply sameCoreBut_trans; [exact H1|].
    eapply sameCoreBut_trans; [|apply sameCoreBut_updCar].
    by apply sameCoreBut_heap.
Qed.

Lemma sameCoreBut_merge id r : sameCoreBut id r (merge id r).
Proof.
  unfold merge. destruct (heap r !! id) as [c|]; [|apply sameCoreBut_refl].
  destruct (_ <? 0); [apply sameCoreBut_refl|].
  destruct (isNullish _); [|apply sameCoreBut_refl].
  apply sameCoreBut_setCarPos.
Qed.

Lemma sameCoreBut_drive now id r : sameCoreBut id r (drive now id r).
Proof.
  unfold drive. destruct (heap r !! id) as [c|] eqn:Hc;
    [|apply sameCoreBut_refl].
  destruct (lastMoved c) as [lm|]; [|apply sameCoreBut_updCar].
  destruct (driveUpdate_spec now id lm r c Hc) as (c5 & -> & _).
  assert (H5 : sameCoreBut id r (withHeap (<[id := c5]> (heap r)) r)).
  { intros k Hk. cbn. rewrite lookup_insert_ne by done.
    by apply (sameCoreBut_refl id r k). }
  cbn [heap withHeap]. rewrite lookup_insert_eq.
  destruct (_ && _); [|done].
  eapply sameCoreBut_trans; [exact H5 | apply sameCoreBut_merge].
Qed.

Lemma sameCoreBut_driveCar now id st :
  sameCoreBut id st.1 (driveCar now id st).1.
Proof.
  destruct st as [r tr]. unfold driveCar. cbn [fst].
  destruct (heap r !! id) as [c0|]; [|apply sameCoreBut_refl].
  pose proof (sameCoreBut_drive now id r) as H1.
  destruct (heap (drive now id r) !! id) as [c|]; [|done].
  destruct (negb _); [|done]. destruct (negb _); [|done].
  pose proof (sameCoreBut_setCarPos id (laneNumber c)
                (safeLaneX c (drive now id r)) (drive now id r)) as H2.
  destruct (setCarPos id _ _ _) as [result r2]. cbn [snd] in *.
  assert (sameCoreBut id r r2) by (by eapply sameCoreBut_trans).
  by destruct result as [[| |[]]|].
Qed.

Lemma carMoved_refl c : carMoved c c.
Proof. unfold carMoved. split; [lia|]. split; [lia | apply Qle_refl]. Qed.

Lemma carMoved_sameCore_l c c' c'' :
  sameCore c c' -> carMoved c' c'' -> carMoved c c''.
Proof.
  intros (Hl & Hx & _ & Hd & _) (? & ? & ?). unfold carMoved.
  rewrite <- Hl, <- Hx, <- Hd. done.
Qed.

Lemma carMoved_sameCore_r c c' c'' :
  carMoved c c' -> sameCore c' c'' -> carMoved c c''.
Proof.
  intros (? & ? & ?) (Hl & Hx & _ & Hd & _). unfold carMoved.
  rewrite Hl, Hx, Hd. done.
Qed.

(** The [drive] step of a listed car: it stays in its column, keeps its
    lane or goes one to the left, and its distance does not go down. *)
Lemma drive_moved t id r c :
  WellFormed t r -> id ∈ cars r -> heap r !! id = Some c ->
  exists c1, heap (drive t id r) !! id = Some c1 /\
    laneNumber c - 1 <= laneNumber c1 <= laneNumber c /\
    lanePosX c1 = lanePosX c /\ (distance c <= distance c1)%Q.
Proof.
  intros Hwf Hin Hc. unfold drive. rewrite Hc.
  destruct (wf_progress _ _ Hwf id c Hin Hc) as (Hsp & _ & Hlm).
  destruct (lastMoved c) as [lm|] eqn:Hlast.
  - destruct (driveUpdate_spec t id lm r c Hc)
      as (c5 & -> & Hl5 & Hx5 & _ & Hd5 & _).
    assert (Hd : (distance c <= distance c5)%Q).
    { rewrite Hd5. rewrite <- (Qplus_0_r (distance c)) at 1.
      apply Qplus_le_r. apply Qmult_le_0_compat; [done|].
      specialize (Hlm lm eq_refl).
      apply Qle_shift_div_l; [reflexivity|]. rewrite Qmult_0_l.
      change 0%Q with (inject_Z 0). rewrite <- Zle_Qle. lia. }
    cbn [heap withHeap]. rewrite lookup_insert_eq.
    set (r5 := withHeap (<[id := c5]> (heap r)) r).
    assert (Hc5 : heap r5 !! id = Some c5) by apply lookup_insert_eq.
    destruct (_ && _).
    + unfold merge. rewrite Hc5.
      destruct (_ <? 0);
        [exists c5; split; [done|]; split; [lia|]; split; [lia|done]|].
      destruct (isNullish _);
        [|exists c5; split; [done|]; split; [lia|]; split; [lia|done]].
      destruct (setCarPos_self id c5 (laneNumber c5 - 1) (lanePosX c5) r5 Hc5)
        as (c' & Hc' & _ & Hd' & _ & _ & _ & Hplace).
      exists c'. split; [done|]. rewrite Hd'.
      destruct Hplace as [(_ & -> & ->)|(_ & -> & ->)];
        (split; [lia|]; split; [lia|done]).
    + exists c5. split; [done|]. split; [lia|]. split; [lia|done].
  - rewrite updCar_lookup_eq with (c := c) by done.
    eexists. split; [done|]. cbn. split; [lia|]. split; [done|].
    apply Qle_refl.
Qed.

(** The turn of a listed car in the driving loop. *)
Lemma driveCar_moved t id r tr c :
  WellFormed t r -> id ∈ cars r -> heap r !! id = Some c ->
  exists c', heap (driveCar t id (r, tr)).1 !! id = Some c' /\ carMoved c c'.
Proof.
  intros Hwf Hin Hc.
  destruct (drive_moved t id r c Hwf Hin Hc) as (c1 & Hc1 & Hl1 & Hx1 & Hd1).
  destruct (drive_WellFormed t id r Hwf Hin) as (Hwf1 & Hcars1 & _).
  assert (Hin1 : id ∈ cars (drive t id r)) by (by rewrite Hcars1).
  destruct (wf_progress _ _ Hwf1 id c1 Hin1 Hc1) as (_ & Hdes & _).
  unfold driveCar. rewrite Hc, Hc1.
  assert (Hstay : carMoved c c1).
  { unfold carMoved. split; [done|]. split; [lia | done]. }
  destruct (negb _); [|by exists c1].
  destruct (negb _); [|by exists c1].
  destruct (setCarPos_self id c1 (laneNumber c1)
              (safeLaneX c1 (drive t id r)) (drive t id r) Hc1)
    as (c' & Hc' & _ & Hd' & _ & _ & _ & Hplace).
  assert (Hsafe : lanePosX c1 <= safeLaneX c1 (drive t id r)).
  { unfold safeLaneX.
    set (d := getDistance _ _ _ All).
    assert (0 <= (if d <? 0 then ROAD_WIDTH else d)).
    { destruct (Z.ltb_spec d 0); [unfold ROAD_WIDTH|]; lia. }
    lia. }
  destruct (setCarPos id _ _ _) as [result r2]. cbn [fst snd] in *.
  assert (Hres : exists c', heap r2 !! id = Some c' /\ carMoved c c').
  { exists c'. split; [done|]. unfold carMoved. rewrite Hd'.
    destruct Hplace as [(_ & -> & ->)|(_ & -> & ->)]; (split; [lia|]);
      (split; [lia | done]). }
  by destruct result as [[| |[]]|].
Qed.

(** The driving loop over cars of the list, each taking one turn. *)
Lemma driveAll_progress t ids :
  forall r tr, WellFormed t r -> NoDup ids ->
  (forall id, id ∈ ids -> id ∈ cars r) ->
  forall k c, heap r !! k = Some c ->
  exists c',
    heap (foldl (fun st car => driveCar t car st) (r, tr) ids).1 !! k
    = Some c' /\
    carMoved c c' /\ (k ∉ ids -> sameCore c c').
Proof.
  induction ids as [|id ids IH]; intros r tr Hwf Hnd Hsub k c Hc;
    cbn [foldl].
  { exists c. split; [done|]. split; [apply carMoved_refl|].
    intros _. apply sameCore_refl. }
  apply NoDup_cons in Hnd as [Hnotin Hnd].
  assert (Hin : id ∈ cars r) by (apply Hsub; left).
  assert (Hstep : WellFormed t (driveCar t id (r, tr)).1
                  /\ cars (driveCar t id (r, tr)).1 = cars r).
  { destruct (driveCar_outcome t id r tr Hwf Hin) as (c1 & _ & _ & _ & Hout).
    destruct (drive_WellFormed t id r Hwf Hin) as (Hwf1 & Hcars1 & _).
    destruct (exitsGrid c1 (drive t id r)).
    - by rewrite Hout.
    - destruct Hout as (r2 & c2 & -> & Hwf2 & Hcars2 & _). done. }
  destruct Hstep as [Hwf' Hcars'].
  destruct (driveCar t id (r, tr)) as [r' tr'] eqn:Hdc. cbn [fst] in *.
  assert (Hsub' : forall j, j ∈ ids -> j ∈ cars r').
  { intros j Hj. rewrite Hcars'. apply Hsub. by right. }
  destruct (decide (k = id)) as [->|Hne].
  - destruct (driveCar_moved t id r tr c Hwf Hin Hc) as (c1 & Hc1 & Hm1).
    rewrite Hdc in Hc1. cbn [fst] in Hc1.
    destruct (IH r' tr' Hwf' Hnd Hsub' id c1 Hc1) as (c' & Hc' & _ & Hsame).
    exists c'. split; [done|]. split.
    + eapply carMoved_sameCore_r; [exact Hm1 | by apply Hsame].
    + intros Hk. exfalso. apply Hk. left.
  - pose proof (sameCoreBut_driveCar t id (r, tr)) as Hothers.
    rewrite Hdc in Hothers. cbn [fst] in Hothers.
    destruct (sameCoreBut_lookup id r r' k c Hothers Hne Hc)
      as (c1 & Hc1 & Hs1).
    destruct (IH r' tr' Hwf' Hnd Hsub' k c1 Hc1) as (c' & Hc' & Hm & Hsame).
    exists c'. split; [done|]. split.
    + by eapply carMoved_sameCore_l.
    + intros Hk. assert (Hk' : k ∉ ids).
      { intros Hk'. apply Hk. by right. }
      specialize (Hsame Hk').
      destruct Hs1 as (? & ? & ? & ? & ?), Hsame as (? & ? & ? & ? & ?).
      repeat split; congruence.
Qed.

(** X8.  Progress within a tick.  On a road the engine can reach, a tick
    at a clock reading that is not in the past moves no car backwards: every
    car object keeps its lane or ends one lane to the left, never more, its
    column does not go down and neither does its travelled distance.  A car
    object that is not on the car list stays as it is in all of these. *)
Theorem driveCars_progress t t' r k c :
  Reachable t r -> t <= t' -> heap r !! k = Some c ->
  exists c', heap (driveCars t' r) !! k = Some c' /\
    laneNumber c - 1 <= laneNumber c' <= laneNumber c /\
    lanePosX c <= lanePosX c' /\
    (distance c <= distance c')%Q /\
    (k ∉ cars r ->
     laneNumber c' = laneNumber c /\ lanePosX c' = lanePosX c /\
     distance c' = distance c /\ speed c' = speed c).
Proof.
  intros Hreach Hle Hc.
  pose proof (WellFormed_mono t t' r (Reachable_WellFormed t r Hreach) Hle)
    as Hwf.
  destruct (driveAll_progress t' (sortBy (carOrder r) (cars r)) r [] Hwf)
    with (k := k) (c := c) as (c' & Hc' & (Hl & Hx & Hd) & Hsame).
  - rewrite sortBy_Permutation. apply Hwf.
  - intros id. by rewrite sortBy_Permutation.
  - done.
  - exists c'. split.
    + unfold driveCars. fold (driveAll t' r) in Hc'.
      destruct (driveAll t' r) as [r1 tr]. cbn [fst] in Hc'.
      by rewrite removeAll_heap.
    + split; [done|]. split; [done|]. split; [done|]. intros Hk.
      destruct Hsame as (? & ? & ? & ? & _); [|done].
      by rewrite sortBy_Permutation.
Qed.

Lemma driveCars_progress_witness :
  exists c',
    heap (driveCars 3000 roadOneCar) !! 0%nat = Some c' /\
    lanePosX (setLastMoved 1000 (carAtPos 0 0)) <= lanePosX c'.
Proof.
  destruct (driveCars_progress 1000 3000 roadOneCar 0%nat
              (setLastMoved 1000
                 (setStart 1000 0 (newCar (9 # 10) 1 (1 # 2) 0))))
    as (c' & Hc' & _ & Hx & _).
  - unfold roadOneCar. apply (reach_tick 1000); [|lia].
    apply (reach_spawn 0); [|lia|reflexivity].
    apply reach_new. reflexivity.
  - lia.
  - vm_compute. reflexivity.
  - exists c'. split; [exact Hc' | exact Hx].
Defined.

(** ** The books of the road *)

Lemma sameBooks_refl r : sameBooks r r.
Proof. by repeat split. Qed.

Lemma sameBooks_trans r1 r2 r3 :
  sameBooks r1 r2 -> sameBooks r2 r3 -> sameBooks r1 r3.
Proof.
  intros (? & ? & ? & ? & ? & ?) (? & ? & ? & ? & ? & ?).
  repeat split; congruence.
Qed.

Lemma sameBooks_updCar id f r : sameBooks r (updCar id f r).
Proof. by repeat split. Qed.

Lemma sameBooks_alertRearDriver c r lane :
  sameBooks r (alertRearDriver c r lane).
Proof.
  rewrite alertRearDriver_nearest.
  destruct (nearestCarBehind r lane (lanePosX c)); by repeat split.
Qed.

Lemma sameBooks_setCarPos id lane x r : sameBooks r (setCarPos id lane x r).2.
Proof.
  unfold setCarPos. destruct (heap r !! id) as [c|]; [|apply sameBooks_refl].
  destruct (_ || _); [apply sameBooks_refl|].
  destruct (_ || _); [apply sameBooks_refl|].
  set (r1 := if negb (laneNumber c =? lane)
             then updCar id alertMerge (alertRearDriver c r lane) else r).
  assert (H1 : sameBooks r r1).
  { subst r1. destruct (negb _); [|apply sameBooks_refl].
    eapply sameBooks_trans; [apply sameBooks_alertRearDriver|].
    apply sameBooks_updCar. }
  destruct H1 as (? & ? & ? & ? & ? & ?).
  destruct (negb (isNullish _)); cbn [snd]; repeat split; cbn; try done;
    by rewrite ?len_setCell.
Qed.

Lemma sameBooks_merge id r : sameBooks r (merge id r).
Proof.
  unfold merge. destruct (heap r !! id) as [c|]; [|apply sameBooks_refl].
  destruct (_ <? 0); [apply sameBooks_refl|].
  destruct (isNullish _); [|apply sameBooks_refl]. apply sameBooks_setCarPos.
Qed.

Lemma sameBooks_effectSpeed id r : sameBooks r (effectSpeed id r).
Proof.
  unfold effectSpeed. destruct (heap r !! id) as [c|]; [|apply sameBooks_refl].
  destruct (speedDifference c r); [apply sameBooks_updCar|].
  apply sameBooks_refl.
Qed.

Lemma sameBooks_effectMergeState id r : sameBooks r (effectMergeState id r).
Proof.
  unfold effectMergeState.
  destruct (heap r !! id) as [c|]; [|apply sameBooks_refl].
  destruct (Qleb _ 0); destruct (negb _);
    first [apply sameBooks_refl | apply sameBooks_updCar].
Qed.

Lemma sameBooks_driveUpdate now id lm r :
  sameBooks r (driveUpdate now id lm r).
Proof.
  unfold driveUpdate.
  repeat (eapply sameBooks_trans; [|apply sameBooks_updCar]).
  eapply sameBooks_trans; [|apply sameBooks_effectMergeState].
  eapply sameBooks_trans; [|apply sameBooks_effectSpeed].
  apply sameBooks_updCar.
Qed.

Lemma sameBooks_drive now id r : sameBooks r (drive now id r).
Proof.
  unfold drive. destruct (heap r !! id) as [c|]; [|apply sameBooks_refl].
  destruct (lastMoved c) as [lm|]; [|apply sameBooks_updCar].
  pose proof (sameBooks_driveUpdate now id lm r) as H5.
  destruct (heap _ !! id); [|done]. destruct (_ && _); [|done].
  eapply sameBooks_trans; [exact H5 | apply sameBooks_merge].
Qed.

Lemma sameBooks_driveCar now id st : sameBooks st.1 (driveCar now id st).1.
Proof.
  destruct st as [r tr]. unfold driveCar. cbn [fst].
  destruct (heap r !! id) as [c0|]; [|apply sameBooks_refl].
  pose proof (sameBooks_drive now id r) as H1.
  destruct (heap (drive now id r) !! id) as [c|]; [|done].
  destruct (negb _); [|done]. destruct (negb _); [|done].
  pose proof (sameBooks_setCarPos id (laneNumber c)
                (safeLaneX c (drive now id r)) (drive now id r)) as H2.
  destruct (setCarPos id _ _ _) as [result r2]. cbn [snd] in *.
  assert (sameBooks r r2) by (by eapply sameBooks_trans).
  by destruct result as [[| |[]]|].
Qed.

Lemma sameBooks_driveAll now r : sameBooks r (driveAll now r).1.
Proof.
  unfold driveAll. generalize (sortBy (carOrder r) (cars r)).
  generalize (@nil Z). intros tr ids.
  change r with (r, tr).1 at 1. generalize (r, tr). clear.
  induction ids as [|id ids IH]; intros st; cbn [foldl];
    [apply sameBooks_refl|].
  eapply sameBooks_trans; [apply sameBooks_driveCar | apply IH].
Qed.

(** One round of the removal loop at an index of the car list. *)
Lemma removeCar_account t now r i :
  WellFormed t r -> 0 <= i < len (cars r) ->
  cars (removeCar now r i) = delete (Z.to_nat i) (cars r) /\
  trails (removeCar now r i) = trails r ++ [now + CAR_TRAIL_LIFESPAN] /\
  (exists recs,
     completedCars (removeCar now r i) = completedCars r ++ recs /\
     (length recs <= 1)%nat /\
     Forall (fun rec => expirationTime rec = now + CAR_TRAIL_LIFESPAN) recs) /\
  blockedLanes (removeCar now r i) = blockedLanes r /\
  spaceSize (removeCar now r i) = spaceSize r /\
  len (roadSpace (removeCar now r i)) = len (roadSpace r).
Proof.
  intros Hwf Hi. rewrite removeCar_cars, splice1_delete by lia.
  split; [done|]. unfold removeCar.
  destruct (idx_is_Some (cars r) i Hi) as [id Hid]. rewrite Hid.
  assert (Hin : id ∈ cars r).
  { unfold idx in Hid. destruct (_ <? 0) in Hid; [done|].
    by eapply list_elem_of_lookup_2. }
  destruct (wf_car _ _ Hwf id Hin) as (c & Hc & _). rewrite Hc.
  assert (Hrest : forall recs : list Completed,
    (length recs <= 1)%nat ->
    Forall (fun rec => expirationTime rec = now + CAR_TRAIL_LIFESPAN) recs ->
    trails r ++ [now + CAR_TRAIL_LIFESPAN]
    = trails r ++ [now + CAR_TRAIL_LIFESPAN] /\
    (exists recs',
       completedCars r ++ recs = completedCars r ++ recs' /\
       (length recs' <= 1)%nat /\
       Forall (fun rec => expirationTime rec = now + CAR_TRAIL_LIFESPAN)
              recs') /\
    blockedLanes r = blockedLanes r /\ spaceSize r = spaceSize r /\
    len (setCell (roadSpace r) (laneNumber c) (lanePosX c) Null)
    = len (roadSpace r)).
  { intros recs Hn Hexp. split; [done|]. split; [by exists recs|].
    by rewrite len_setCell. }
  destruct (startTime c) as [s|]; [destruct (truthy _)|]; cbn.
  - apply Hrest; [done|]. by repeat constructor.
  - split; [done|]. split; [|by rewrite len_setCell].
    exists []. split; [by rewrite app_nil_r|]. split; [cbn; lia | done].
  - split; [done|]. split; [|by rewrite len_setCell].
    exists []. split; [by rewrite app_nil_r|]. split; [cbn; lia | done].
Qed.

(** The removal loop on valid indices in strictly descending order. *)
Lemma removeAll_account t now items r :
  WellFormed t r ->
  StronglySorted (fun a b => b < a) items ->
  Forall (fun i => 0 <= i < len (cars r)) items ->
  let r' := foldl (removeCar now) r items in
  sublist (cars r') (cars r) /\
  (length (cars r') + length items = length (cars r))%nat /\
  trails r'
  = trails r ++ replicate (length items) (now + CAR_TRAIL_LIFESPAN) /\
  (exists recs,
     completedCars r' = completedCars r ++ recs /\
     (length recs <= length items)%nat /\
     Forall (fun rec => expirationTime rec = now + CAR_TRAIL_LIFESPAN) recs) /\
  blockedLanes r' = blockedLanes r /\ spaceSize r' = spaceSize r /\
  len (roadSpace r') = len (roadSpace r).
Proof.
  intros Hwf Hsorted. revert r Hwf.
  induction Hsorted as [|i rest Hs IH Hlt]; intros r Hwf Hvalid;
    cbn [foldl].
  { cbn. rewrite app_nil_r. split; [done|]. split; [lia|]. split; [done|].
    split; [|done]. exists []. by rewrite app_nil_r. }
  apply Forall_cons in Hvalid as [Hi Hvalid].
  destruct (removeCar_account t now r i Hwf Hi)
    as (Hcars & Htr & (recs1 & Hcc & Hn1 & Hexp1) & Hb & Hsz & Hlen).
  assert (Hwf' : WellFormed t (removeCar now r i))
    by (apply removeCar_WellFormed; [done | lia]).
  assert (Hdel : (S (length (delete (Z.to_nat i) (cars r)))
                  = length (cars r))%nat).
  { rewrite length_delete; [unfold len in Hi; lia|].
    apply lookup_lt_is_Some_2. unfold len in Hi. lia. }
  rewrite Forall_forall in Hlt.
  destruct (IH (removeCar now r i) Hwf')
    as (Hsub & Hcount & Htr' & (recs & Hcc' & Hn & Hexp) & Hb' & Hsz' & Hlen').
  { rewrite Forall_forall in Hvalid |- *. intros j Hj.
    specialize (Hvalid j Hj). specialize (Hlt j Hj).
    rewrite Hcars. unfold len in *. lia. }
  cbn zeta. split; [|split; [|split; [|split; [|by repeat split; congruence]]]].
  - etransitivity; [exact Hsub|]. rewrite Hcars. apply sublist_delete.
  - rewrite Hcars in Hcount. cbn [length]. lia.
  - rewrite Htr', Htr, <- app_assoc. done.
  - exists (recs1 ++ recs). rewrite Hcc', Hcc, <- app_assoc.
    split; [done|]. split; [rewrite length_app; cbn; lia|].
    by apply Forall_app.
Qed.

(** A sublist of a list without duplicates is the list filtered by
    membership in it. *)
Lemma sublist_filter_eq {A} (P : A -> Prop) `{!forall x, Decision (P x)}
    (l' l : list A) :
  sublist l' l -> NoDup l -> (forall x, x ∈ l' <-> x ∈ l /\ P x) ->
  l' = filter P l.
Proof.
  induction 1 as [|x l1 l2 Hsub IH|x l1 l2 Hsub IH]; intros Hnd Hiff.
  - done.
  - apply NoDup_cons in Hnd as [Hx Hnd].
    assert (HP : P x) by (apply Hiff; left).
    rewrite filter_cons_True by done. f_equal. apply IH; [done|].
    intros y. split.
    + intros Hy. assert (Hy2 : y ∈ l2) by (by eapply elem_of_sublist).
      split; [done|]. apply Hiff. by right.
    + intros [Hy HPy].
      assert (Hy' : y ∈ x :: l1) by (apply Hiff; split; [by right | done]).
      apply elem_of_cons in Hy' as [->|Hy']; done.
  - apply NoDup_cons in Hnd as [Hx Hnd].
    assert (Hx1 : x ∉ l1).
    { intros Hx1. apply Hx. by eapply elem_of_sublist. }
    assert (HP : ~ P x).
    { intros HP. apply Hx1, Hiff. split; [left | done]. }
    rewrite filter_cons_False by done. apply IH; [done|].
    intros y. split.
    + intros Hy. destruct (proj1 (Hiff y) Hy) as [Hy2 HPy].
      split; [|done]. apply elem_of_cons in Hy2 as [->|Hy2]; done.
    + intros [Hy HPy]. apply Hiff. split; [by right | done].
Qed.

(** X9.  The accounts of a tick on a road the engine can reach.  The marks
    of the driving loop are indices of cars of the list, no index twice.
    The car list after the tick is the list before with exactly the cars at
    the marked indices taken out, order kept; every marked car leaves
    exactly one trail record, which expires [CAR_TRAIL_LIFESPAN] after the
    clock reading of the tick, and at most one completion record with that
    expiry.  The blocked-lane count, the cell length and the number of lanes
    stay as they were. *)
Theorem driveCars_accounting t t' r :
  Reachable t r -> t <= t' ->
  let marks := (driveAll t' r).2 in
  let r' := driveCars t' r in
  NoDup marks /\
  (forall i, i ∈ marks ->
     exists id, id ∈ cars r /\ idx (cars r) i = Some id) /\
  cars r' = filter (fun id => indexOf (cars r) id ∉ marks) (cars r) /\
  (forall id,
     id ∈ cars r' <-> id ∈ cars r /\ indexOf (cars r) id ∉ marks) /\
  sublist (cars r') (cars r) /\
  (length (cars r') + length marks = length (cars r))%nat /\
  trails r'
  = trails r ++ replicate (length marks) (t' + CAR_TRAIL_LIFESPAN) /\
  (exists recs,
     completedCars r' = completedCars r ++ recs /\
     (length recs <= length marks)%nat /\
     Forall (fun rec => expirationTime rec = t' + CAR_TRAIL_LIFESPAN) recs) /\
  blockedLanes r' = blockedLanes r /\ spaceSize r' = spaceSize r /\
  len (roadSpace r') = len (roadSpace r).
Proof.
  intros Hreach Hle.
  pose proof (WellFormed_mono t t' r (Reachable_WellFormed t r Hreach) Hle)
    as Hwf.
  cbn zeta.
  pose proof (driveCars_cars t' r Hwf) as Hiff.
  unfold driveCars in *.
  destruct (driveAll_WellFormed t' r Hwf) as (Hwf1 & Hcars1 & Hnd & Hidx).
  destruct (sameBooks_driveAll t' r) as (_ & Htr1 & Hcc1 & Hb1 & Hsz1 & Hlen1).
  destruct (driveAll t' r) as [r1 tr]. cbn [fst snd] in *.
  destruct (removeAll_account t' t' (sortBy (fun a b => b - a) tr) r1 Hwf1)
    as (Hsub & Hcount & Htr & Hcc & Hb & Hsz & Hlen).
  - apply StronglySorted_strict; [apply sortBy_desc|].
    by rewrite sortBy_Permutation.
  - apply Forall_forall. intros i Hi. rewrite sortBy_Permutation in Hi.
    destruct (Hidx i Hi) as (k & Hk & ->). rewrite Hcars1.
    apply (indexOf_spec _ _ Hk).
  - rewrite (Permutation_length (sortBy_Permutation _ tr)) in Hcount, Htr, Hcc.
    rewrite Hcars1, Htr1, Hcc1 in *.
    split; [done|]. split.
    { intros i Hi. destruct (Hidx i Hi) as (k & Hk & ->). exists k.
      split; [done|]. apply (indexOf_spec _ _ Hk). }
    split.
    { apply sublist_filter_eq; [done | apply Hwf | done]. }
    split; [done|].
    repeat split; try done; congruence.
Qed.

(** Of the three cars of [roadThreeEntered], a tick a long time later
    takes out car 0, whose index is the one marked, and keeps cars 1 and 2
    in their order. *)
Lemma driveCars_accounting_witness :
  cars roadThreeEntered = [0%nat; 1%nat; 2%nat] /\
  (driveAll 2000000 roadThreeEntered).2 = [0] /\
  cars (driveCars 2000000 roadThreeEntered) = [1%nat; 2%nat] /\
  trails (driveCars 2000000 roadThreeEntered)
  = trails roadThreeEntered
    ++ replicate (length (driveAll 2000000 roadThreeEntered).2)
                 (2000000 + CAR_TRAIL_LIFESPAN).
Proof.
  destruct (driveCars_accounting 2000 2000000 roadThreeEntered)
    as (_ & _ & Hlist & _ & _ & _ & Htrails & _).
  - unfold roadThreeEntered, roadTwoEntered, roadOneCar.
    apply (reach_spawn 2000); [|lia|vm_compute; reflexivity].
    apply (reach_spawn 2000); [|lia|vm_compute; reflexivity].
    apply (reach_tick 1000); [|lia].
    apply (reach_tick 1000); [|lia].
    apply (reach_spawn 0); [|lia|reflexivity].
    apply reach_new. reflexivity.
  - lia.
  - split; [vm_compute; reflexivity|]. split; [vm_compute; reflexivity|].
    split; [|exact Htrails].
    rewrite Hlist. vm_compute. reflexivity.
Defined.

(** ** Reset *)

Lemma placeBlockage_loop_len n rs numLanes i :
  len (placeBlockage_loop n rs numLanes i) = len rs.
Proof.
  revert rs i. induction n as [|n IH]; intros rs i; cbn [placeBlockage_loop];
    [done|].
  cbn zeta. rewrite IH. destruct (idx rs (numLanes - 1 - i)); [|done].
  destruct (_ >=? _); [apply len_setIdx | done].
Qed.

(** The configuration of a road as constructed. *)
Lemma newRoad_config lanes blocked size :
  (2 <= lanes /\ blocked < lanes /\
   len (roadSpace (newRoad lanes blocked size)) = lanes /\
   blockedLanes (newRoad lanes blocked size) = blocked /\
   spaceSize (newRoad lanes blocked size) = size)
  \/
  ((lanes < 2 \/ lanes <= blocked) /\
   newRoad lanes blocked size = mkRoad [] [] 0 [] [] 0%Q ∅).
Proof.
  unfold newRoad.
  destruct (Z.ltb_spec lanes 2) as [|Hl]; [right; split; [lia|done]|].
  destruct (Z.geb_spec blocked lanes) as [|Hb]; [right; split; [lia|done]|].
  left. cbn [orb]. split; [done|]. split; [done|].
  set (rs0 := replicate (Z.to_nat lanes)
                        (replicate (Z.to_nat ROAD_WIDTH) Null)).
  assert (Hlen0 : len rs0 = lanes).
  { unfold len, rs0. rewrite length_replicate. lia. }
  unfold placeBlockage. cbn [roadSpace]. rewrite Hlen0.
  destruct (Z.leb_spec lanes blocked) as [|_]; [lia|].
  cbn. by rewrite placeBlockage_loop_len.
Qed.

Lemma removeAll_config now items r :
  blockedLanes (foldl (removeCar now) r items) = blockedLanes r /\
  spaceSize (foldl (removeCar now) r items) = spaceSize r /\
  len (roadSpace (foldl (removeCar now) r items)) = len (roadSpace r).
Proof.
  revert r. induction items as [|i items IH]; intros r; cbn [foldl]; [done|].
  destruct (IH (removeCar now r i)) as (-> & -> & ->).
  unfold removeCar. destruct (idx (cars r) i) as [id|]; [|done].
  destruct (heap r !! id) as [c|]; [|done].
  destruct (startTime c); [destruct (truthy _)|]; cbn;
    by rewrite len_setCell.
Qed.

(** A tick and a spawn keep the configuration of the road. *)
Lemma driveCars_config now r :
  blockedLanes (driveCars now r) = blockedLanes r /\
  spaceSize (driveCars now r) = spaceSize r /\
  len (roadSpace (driveCars now r)) = len (roadSpace r).
Proof.
  unfold driveCars.
  destruct (sameBooks_driveAll now r) as (_ & _ & _ & Hb & Hs & Hl).
  destruct (driveAll now r) as [r1 tr]. cbn [fst] in *.
  destruct (removeAll_config now (sortBy (fun a b => b - a) tr) r1)
    as (-> & -> & ->). done.
Qed.

Lemma generateRandomCar_config mt coop agg u1 u2 now id r :
  blockedLanes (generateRandomCar mt coop agg u1 u2 now id r)
  = blockedLanes r /\
  spaceSize (generateRandomCar mt coop agg u1 u2 now id r) = spaceSize r /\
  len (roadSpace (generateRandomCar mt coop agg u1 u2 now id r))
  = len (roadSpace r).
Proof.
  unfold generateRandomCar.
  destruct (getRandomLane u1 r) as [laneN|]; [|done].
  destruct (laneN >=? 0); [|done]. unfold addCar.
  destruct (heap _ !! id); [|done].
  destruct (getRandomLane u2 _) as [lane|]; [|done].
  destruct (lane <? 0); [done|]. cbn [roadSpace withHeap].
  destruct (idx (roadSpace r) lane) as [laneArray|]; [|done].
  cbn. by rewrite len_setIdx.
Qed.

(** X10.  [Simulation.reset] installs a new road of the configuration the
    current road has.  A road as constructed is its own reset, so resetting
    twice is resetting once; and a tick, a spawn, a merge and a purge leave
    the configuration alone: the reset after any of them is the reset
    before it. *)
Theorem resetRoad_restores :
  (forall lanes blocked size,
     resetRoad (newRoad lanes blocked size) = newRoad lanes blocked size) /\
  (forall r, resetRoad (resetRoad r) = resetRoad r) /\
  (forall now r, resetRoad (driveCars now r) = resetRoad r) /\
  (forall mt coop agg u1 u2 now id r,
     resetRoad (generateRandomCar mt coop agg u1 u2 now id r) = resetRoad r) /\
  (forall id r, resetRoad (merge id r) = resetRoad r) /\
  (forall now r, resetRoad (purgeTrails now r) = resetRoad r).
Proof.
  assert (Hnew : forall lanes blocked size,
    resetRoad (newRoad lanes blocked size) = newRoad lanes blocked size).
  { intros lanes blocked size. unfold resetRoad.
    destruct (newRoad_config lanes blocked size)
      as [(_ & _ & -> & -> & ->)|[_ ->]]; done. }
  split; [exact Hnew|]. split; [intros r; apply Hnew|].
  split; [|split; [|split]].
  - intros now r. unfold resetRoad.
    by destruct (driveCars_config now r) as (-> & -> & ->).
  - intros mt coop agg u1 u2 now id r. unfold resetRoad.
    by destruct (generateRandomCar_config mt coop agg u1 u2 now id r)
      as (-> & -> & ->).
  - intros id r. unfold resetRoad.
    destruct (sameBooks_merge id r) as (_ & _ & _ & -> & -> & ->). done.
  - done.
Qed.

(** ** The purge and the throughput *)

(** X11.  [purgeTrails] keeps, in order, exactly the trail and completion
    records that expire after the clock reading, and touches nothing else:
    the grid, the car list, the car objects and the configuration stay.
    The throughput figure does not go up by a purge.  A purge at a clock
    reading that is not later than the last one changes nothing, and a purge
    at a later reading gives what that purge alone would have given. *)
Theorem purgeTrails_purges now now' r :
  let r' := purgeTrails now r in
  (forall t, t ∈ trails r' <-> t ∈ trails r /\ now < t) /\
  (forall rec, rec ∈ completedCars r'
               <-> rec ∈ completedCars r /\ now < expirationTime rec) /\
  sublist (trails r') (trails r) /\
  sublist (completedCars r') (completedCars r) /\
  roadSpace r' = roadSpace r /\ cars r' = cars r /\ heap r' = heap r /\
  blockedLanes r' = blockedLanes r /\ spaceSize r' = spaceSize r /\
  (getCarsPerSecond r' <= getCarsPerSecond r)%Q /\
  (now' <= now -> purgeTrails now' r' = r') /\
  (now <= now' -> purgeTrails now' r' = purgeTrails now' r).
Proof.
  cbn zeta. unfold purgeTrails. cbn [trails completedCars roadSpace cars heap
    blockedLanes spaceSize withCompleted withTrails].
  split; [intros t; rewrite list_elem_of_filter; tauto|].
  split.
  { intros rec. rewrite list_elem_of_filter. tauto. }
  split; [apply sublist_filter|]. split; [apply sublist_filter|].
  split; [done|]. split; [done|]. split; [done|].
  split; [done|]. split; [done|]. split.
  { unfold getCarsPerSecond. cbn [trails withCompleted withTrails].
    unfold Qdiv. apply Qmult_le_compat_r; [|done].
    rewrite <- Zle_Qle. unfold len.
    pose proof (length_filter (fun t => now < t) (trails r)). lia. }
  split.
  - intros Hle. unfold withCompleted, withTrails. cbn.
    rewrite !list_filter_filter. f_equal.
    + apply list_filter_iff. intros t. lia.
    + apply list_filter_iff. intros rec. lia.
  - intros Hle. unfold withCompleted, withTrails. cbn.
    rewrite !list_filter_filter. f_equal.
    + apply list_filter_iff. intros rec. lia.
    + apply list_filter_iff. intros t. lia.
Qed.

Lemma purgeTrails_purges_witness :
  purgeTrails 20500 (purgeTrails 20000 roadThreeCompleted)
  = purgeTrails 20500 roadThreeCompleted.
Proof.
  destruct (purgeTrails_purges 20000 20500 roadThreeCompleted)
    as (_ & _ & _ & _ & _ & _ & _ & _ & _ & _ & _ & Hlater).
  apply Hlater. lia.
Defined.

(** ** The driving order *)

Lemma insertSorted_sorted {A} (cmp : A -> A -> Z) (P : A -> Prop) x l :
  (forall a b, P a -> P b -> 0 < cmp a b -> cmp b a <= 0) ->
  (forall a b c, P a -> P b -> P c ->
     cmp a b <= 0 -> cmp b c <= 0 -> cmp a c <= 0) ->
  P x -> Forall P l ->
  StronglySorted (fun a b => cmp a b <= 0) l ->
  StronglySorted (fun a b => cmp a b <= 0) (insertSorted cmp x l).
Proof.
  intros Htot Htrans Hx HP Hs. revert HP.
  induction Hs as [|y l Hs IH Hall]; intros HP; cbn [insertSorted].
  - repeat constructor.
  - apply Forall_cons in HP as [Hy HP].
    destruct (Z.leb_spec (cmp x y) 0) as [Hle|Hgt].
    + constructor; [by constructor|]. constructor; [done|].
      rewrite Forall_forall in Hall, HP |- *. intros z Hz.
      apply (Htrans x y z); auto.
    + constructor; [by apply IH|].
      rewrite insertSorted_Permutation. constructor; [by apply Htot | done].
Qed.

Lemma StronglySorted_lookup_lt {A} (R : A -> A -> Prop) l (i j : nat) a b :
  StronglySorted R l -> l !! i = Some a -> l !! j = Some b -> (i < j)%nat ->
  R a b.
Proof.
  intros Hs. revert i j. induction Hs as [|y l Hs IH Hall]; intros i j;
    [done|].
  destruct i as [|i], j as [|j]; cbn; try lia.
  - intros [= <-] Hb _. rewrite Forall_forall in Hall. apply Hall.
    by eapply list_elem_of_lookup_2.
  - intros Ha Hb Hlt. apply (IH i j); [done | done | lia].
Qed.

(** The comparator on car objects of the store. *)
Lemma carOrder_le r a b ca cb :
  heap r !! a = Some ca -> heap r !! b = Some cb ->
  carOrder r a b <= 0
  <-> laneNumber ca < laneNumber cb
      \/ (laneNumber ca = laneNumber cb /\ lanePosX ca <= lanePosX cb).
Proof.
  intros Ha Hb. unfold carOrder. rewrite Ha, Hb.
  destruct (Z.eqb_spec (laneNumber ca) (laneNumber cb)); cbn [negb]; lia.
Qed.

(** X12.  The order in which a tick drives the cars.  When every car of
    the list has its object in the store, the snapshot the tick drives is a
    rearrangement of the car list in which a car comes before another only
    if it is in a lane further left, or in the same lane and not ahead of
    it: leftmost lane first, and within a lane from the back to the front. *)
Theorem driveCars_order r (i j : nat) a b ca cb :
  (forall id, id ∈ cars r -> is_Some (heap r !! id)) ->
  sortBy (carOrder r) (cars r) !! i = Some a ->
  sortBy (carOrder r) (cars r) !! j = Some b ->
  (i < j)%nat ->
  heap r !! a = Some ca -> heap r !! b = Some cb ->
  sortBy (carOrder r) (cars r) ≡ₚ cars r /\
  (laneNumber ca < laneNumber cb
   \/ (laneNumber ca = laneNumber cb /\ lanePosX ca <= lanePosX cb)).
Proof.
  intros Hbound Hi Hj Hlt Ha Hb. split; [apply sortBy_Permutation|].
  apply (carOrder_le r a b ca cb Ha Hb).
  assert (Hsorted : StronglySorted (fun a b => carOrder r a b <= 0)
                      (sortBy (carOrder r) (cars r))).
  { clear Hi Hj. unfold sortBy.
    induction (cars r) as [|x l IH]; cbn [foldr]; [constructor|].
    apply (insertSorted_sorted _ (fun k => is_Some (heap r !! k))).
    - intros k1 k2 [c1 H1] [c2 H2]. unfold carOrder. rewrite H1, H2.
      destruct (Z.eqb_spec (laneNumber c1) (laneNumber c2));
        destruct (Z.eqb_spec (laneNumber c2) (laneNumber c1));
        cbn [negb]; lia.
    - intros k1 k2 k3 [c1 H1] [c2 H2] [c3 H3].
      rewrite (carOrder_le r k1 k2 c1 c2), (carOrder_le r k2 k3 c2 c3),
        (carOrder_le r k1 k3 c1 c3) by done. lia.
    - apply Hbound. left.
    - fold (sortBy (carOrder r) l). apply Forall_forall. intros k Hk.
      rewrite sortBy_Permutation in Hk. apply Hbound. by right.
    - apply IH. intros k Hk. apply Hbound. by right. }
  by apply (StronglySorted_lookup_lt _ _ i j a b Hsorted).
Qed.

Lemma driveCars_order_witness :
  sortBy (carOrder roadGapOfTwo) (cars roadGapOfTwo) ≡ₚ cars roadGapOfTwo /\
  (laneNumber (carAtPos 0 3) < laneNumber (carAtPos 0 8)
   \/ (laneNumber (carAtPos 0 3) = laneNumber (carAtPos 0 8)
       /\ lanePosX (carAtPos 0 3) <= lanePosX (carAtPos 0 8))).
Proof.
  apply (driveCars_order roadGapOfTwo 0 1 2%nat 1%nat).
  - intros id Hid. cbn in Hid.
    repeat (apply elem_of_cons in Hid as [->|Hid]; [by eexists|]).
    by apply not_elem_of_nil in Hid.
  - vm_compute. reflexivity.
  - vm_compute. reflexivity.
  - lia.
  - vm_compute. reflexivity.
  - vm_compute. reflexivity.
Defined.

(** ** The contract of setCarPos and merge *)

(** The number [setCarPos] returns and the grid it leaves, for a car object
    of the store. *)
Lemma setCarPos_grid id c lane x r :
  heap r !! id = Some c ->
  let cleared :=
    setCell (roadSpace r) (laneNumber c) (lanePosX c) Null in
  setCarPos id lane x r
  = (Some (-1), r) /\
    (len (roadSpace r) <= lane \/ ROAD_WIDTH <= x \/
     len (roadSpace r) <= laneNumber c \/ ROAD_WIDTH <= lanePosX c)
  \/
  (lane < len (roadSpace r) /\ x < ROAD_WIDTH /\
   laneNumber c < len (roadSpace r) /\ lanePosX c < ROAD_WIDTH) /\
  ((isNullish (cellAt cleared lane x) = false /\
    (setCarPos id lane x r).1 = Some (-1) /\
    roadSpace (setCarPos id lane x r).2 = cleared)
   \/
   (isNullish (cellAt cleared lane x) = true /\
    (setCarPos id lane x r).1 = Some 0 /\
    roadSpace (setCarPos id lane x r).2 = setCell cleared lane x (Ref id))).
Proof.
  intros Hc. cbn zeta. unfold setCarPos. rewrite Hc.
  destruct (Z.geb_spec lane (len (roadSpace r)));
    [left; split; [done|lia]|].
  destruct (Z.geb_spec x ROAD_WIDTH); [left; split; [done|lia]|].
  cbn [orb].
  destruct (Z.geb_spec (laneNumber c) (len (roadSpace r)));
    [left; split; [done|lia]|].
  destruct (Z.geb_spec (lanePosX c) ROAD_WIDTH); [left; split; [done|lia]|].
  cbn [orb]. right. split; [lia|].
  set (r1 := if negb (laneNumber c =? lane)
             then updCar id alertMerge (alertRearDriver c r lane) else r).
  assert (Hrs : roadSpace r1 = roadSpace r).
  { subst r1. destruct (negb _); [|done].
    by destruct (sameCoreRoad_alerts id c r lane) as (-> & _). }
  cbn [roadSpace withRoadSpace]. rewrite Hrs.
  destruct (isNullish _); cbn [negb fst snd roadSpace withRoadSpace updCar
    withHeap]; [right | left]; done.
Qed.

(** X13.  The contract of [setCarPos] for a car that is on a road of
    full-width lanes and a destination that is not negative.  The call
    succeeds exactly when the destination is a cell of the grid that is
    empty or is the car's own cell.  On success the destination holds the
    car, the car is recorded there, and the cell it left is empty; on a
    rejection the record is unchanged.  Either way no cell other than the
    car's own and the destination changes. *)
Theorem setCarPos_contract id c lane x r :
  RoadShape r -> heap r !! id = Some c -> OnRoad c r ->
  0 <= lane -> 0 <= x ->
  let res := setCarPos id lane x r in
  (res.1 = Some 0
   <-> lane < len (roadSpace r) /\ x < ROAD_WIDTH /\
       (cellAt (roadSpace r) lane x = Some Null
        \/ (lane, x) = (laneNumber c, lanePosX c))) /\
  (res.1 = Some 0 \/ res.1 = Some (-1)) /\
  (res.1 = Some 0 ->
   cellAt (roadSpace res.2) lane x = Some (Ref id) /\
   ((lane, x) <> (laneNumber c, lanePosX c) ->
    cellAt (roadSpace res.2) (laneNumber c) (lanePosX c) = Some Null)) /\
  (exists c', heap res.2 !! id = Some c' /\
     if decide (res.1 = Some 0)
     then laneNumber c' = lane /\ lanePosX c' = x
     else laneNumber c' = laneNumber c /\ lanePosX c' = lanePosX c) /\
  (forall lane' x',
     (lane', x') <> (laneNumber c, lanePosX c) -> (lane', x') <> (lane, x) ->
     cellAt (roadSpace res.2) lane' x' = cellAt (roadSpace r) lane' x').
Proof.
  intros Hshape Hc Hon Hlane Hx. cbn zeta.
  destruct (setCarPos_self id c lane x r Hc)
    as (c' & Hc' & _ & _ & _ & _ & _ & Hplace).
  assert (Hown : is_Some (cellAt (roadSpace r) (laneNumber c) (lanePosX c))).
  { destruct Hon. by apply cellAt_in_range. }
  destruct (setCarPos_grid id c lane x r Hc)
    as [[-> Hout]|[(Hl & Hx' & _ & _) Hres]].
  { cbn [fst snd]. destruct Hon as [Hon1 Hon2].
    split; [split; [done | lia]|]. split; [by right|].
    split; [done|]. split; [|done].
    exists c. split; [done|]. by rewrite decide_False. }
  assert (Hdest : is_Some (cellAt (roadSpace r) lane x)).
  { apply cellAt_in_range; [done | lia | lia]. }
  assert (Hcleared :
    cellAt (setCell (roadSpace r) (laneNumber c) (lanePosX c) Null) lane x
    = if decide ((lane, x) = (laneNumber c, lanePosX c)) then Some Null
      else cellAt (roadSpace r) lane x).
  { destruct (decide _) as [[= -> ->]|Hne].
    - by apply cellAt_setCell_eq.
    - apply cellAt_setCell_ne. congruence. }
  rewrite Hcleared in Hres.
  destruct Hres as [(Hocc & Hr & Hrs)|(Hfree & Hr & Hrs)]; rewrite Hr, Hrs.
  - split.
    { split; [done|]. intros (_ & _ & [Hnull|Heq]).
      - destruct (decide _); [done|]. by rewrite Hnull in Hocc.
      - by rewrite decide_True in Hocc. }
    split; [by right|]. split; [done|]. split.
    { exists c'. split; [done|]. rewrite decide_False by done.
      destruct Hplace as [(_ & ? & ?)|(Hr' & _)]; [done | congruence]. }
    intros lane' x' Hne _. apply cellAt_setCell_ne. congruence.
  - split.
    { split; [|done]. intros _. split; [done|]. split; [done|].
      destruct (decide _) as [Heq|Hne]; [by right|]. left.
      destruct Hdest as [[| |k] Hcell]; rewrite Hcell in Hfree |- *; done. }
    split; [by left|]. split.
    { intros _. split.
      - apply cellAt_setCell_eq. rewrite Hcleared.
        destruct (decide _); [done | exact Hdest].
      - intros Hne. rewrite cellAt_setCell_ne by congruence.
        by apply cellAt_setCell_eq. }
    split.
    { exists c'. split; [done|]. rewrite decide_True by done.
      destruct Hplace as [(Hr' & _)|(_ & ? & ?)]; [congruence | done]. }
    intros lane' x' Hne Hne'.
    rewrite cellAt_setCell_ne by congruence.
    apply cellAt_setCell_ne. congruence.
Qed.

Lemma setCarPos_contract_witness :
  (setCarPos 0%nat 0 5 roadTwoInLane).1 = Some 0
  <-> 0 < len (roadSpace roadTwoInLane) /\ 5 < ROAD_WIDTH /\
      (cellAt (roadSpace roadTwoInLane) 0 5 = Some Null
       \/ (0, 5) = (laneNumber (carAtPos 0 3), lanePosX (carAtPos 0 3))).
Proof.
  apply (setCarPos_contract 0%nat (carAtPos 0 3) 0 5 roadTwoInLane).
  - unfold RoadShape. cbn. repeat constructor.
  - vm_compute. reflexivity.
  - unfold OnRoad. vm_compute. repeat split; discriminate.
  - lia.
  - lia.
Defined.

(** X14.  The contract of [merge] for a car that is on a road of
    full-width lanes.  In lane 0, or beside a cell that is not empty, the
    call changes nothing.  Otherwise the car ends one lane to the left in
    the same column: that cell holds it, the cell it left is empty, and no
    other cell changes. *)
Theorem merge_contract id c r :
  RoadShape r -> heap r !! id = Some c -> OnRoad c r ->
  (laneNumber c = 0
   \/ cellAt (roadSpace r) (laneNumber c - 1) (lanePosX c) <> Some Null ->
   merge id r = r) /\
  (0 < laneNumber c ->
   cellAt (roadSpace r) (laneNumber c - 1) (lanePosX c) = Some Null ->
   (exists c', heap (merge id r) !! id = Some c' /\
      laneNumber c' = laneNumber c - 1 /\ lanePosX c' = lanePosX c) /\
   cellAt (roadSpace (merge id r)) (laneNumber c - 1) (lanePosX c)
   = Some (Ref id) /\
   cellAt (roadSpace (merge id r)) (laneNumber c) (lanePosX c) = Some Null /\
   forall lane' x',
     (lane', x') <> (laneNumber c, lanePosX c) ->
     (lane', x') <> (laneNumber c - 1, lanePosX c) ->
     cellAt (roadSpace (merge id r)) lane' x' = cellAt (roadSpace r) lane' x').
Proof.
  intros Hshape Hc [Hlane Hx]. unfold merge. rewrite Hc. split.
  - intros [H0|Hocc].
    + destruct (Z.ltb_spec (laneNumber c - 1) 0); [done | lia].
    + destruct (Z.ltb_spec (laneNumber c - 1) 0); [done|].
      destruct (cellAt_in_range r (laneNumber c - 1) (lanePosX c))
        as [cell Hcell]; [done | lia | done |].
      rewrite Hcell in Hocc |- *. by destruct cell.
  - intros Hpos Hnull. destruct (Z.ltb_spec (laneNumber c - 1) 0); [lia|].
    rewrite Hnull. cbn [isNullish].
    assert (Hown : is_Some (cellAt (roadSpace r) (laneNumber c) (lanePosX c)))
      by (by apply cellAt_in_range).
    assert (Hcleared :
      cellAt (setCell (roadSpace r) (laneNumber c) (lanePosX c) Null)
             (laneNumber c - 1) (lanePosX c) = Some Null).
    { rewrite cellAt_setCell_ne; [done|]. intros [= ?]. lia. }
    destruct (setCarPos_self id c (laneNumber c - 1) (lanePosX c) r Hc)
      as (c' & Hc' & _ & _ & _ & _ & _ & Hplace).
    destruct (setCarPos_grid id c (laneNumber c - 1) (lanePosX c) r Hc)
      as [[_ Hout]|[_ Hres]]; [lia|].
    rewrite Hcleared in Hres.
    destruct Hres as [(? & _)|(_ & Hr & ->)]; [done|].
    split; [|split; [|split]].
    + exists c'. split; [done|].
      destruct Hplace as [(Hr' & _)|(_ & ? & ?)]; [congruence | done].
    + apply cellAt_setCell_eq. by rewrite Hcleared.
    + rewrite cellAt_setCell_ne by (intros [= ?]; lia).
      by apply cellAt_setCell_eq.
    + intros lane' x' Hne Hne'. rewrite cellAt_setCell_ne by congruence.
      apply cellAt_setCell_ne. congruence.
Qed.

Lemma merge_contract_witness :
  cellAt (roadSpace (merge 0%nat roadNearBlockage)) 0 36 = Some (Ref 0%nat) /\
  cellAt (roadSpace (merge 0%nat roadNearBlockage)) 1 36 = Some Null.
Proof.
  destruct (merge_contract 0%nat (setLastMoved 1000 (carAtPos 1 36))
              roadNearBlockage) as [_ Hmerge].
  - unfold RoadShape. cbn. repeat constructor.
  - vm_compute. reflexivity.
  - unfold OnRoad. vm_compute. repeat split; discriminate.
  - destruct Hmerge as (_ & Hnew & Hold & _);
      [reflexivity | vm_compute; reflexivity |].
    split; [exact Hnew | exact Hold].
Defined.

(** ** The drive step *)



Lemma getDistance_loop_Block n r1 r2 l i d :
  getDistance_loop n r1 l BlockageSpace i d
  = getDistance_loop n r2 l BlockageSpace i d.
Proof.
  revert i d. induction n as [|n IH]; intros i d; cbn [getDistance_loop];
    [done|].
  cbn [scanHit]. by rewrite IH.
Qed.

(** The scan for the blockage reads the grid only. *)
Lemma getDistance_Block r1 r2 lane x :
  roadSpace r1 = roadSpace r2 ->
  getDistance r1 lane x BlockageSpace = getDistance r2 lane x BlockageSpace.
Proof.
  intros Hrs. unfold getDistance, getLaneData. rewrite Hrs.
  destruct (idx (roadSpace r2) lane) as [l|]; [|done].
  destruct (_ >=? _); [done|]. apply getDistance_loop_Block.
Qed.

(** The state [effectMergeState] leaves the car in. *)
Lemma effectMergeState_state id r c :
  heap r !! id = Some c ->
  exists c', effectMergeState id r = withHeap (<[id := c']> (heap r)) r /\
    (c' = c \/ c' = setState (state c') c) /\
    state c'
    = if Qleb (inject_Z (getDistance r (laneNumber c) (lanePosX c)
                                     BlockageSpace)
               - getDesiredMergingDistance c) 0
      then Merge else Default.
Proof.
  intros Hc. unfold effectMergeState. rewrite Hc.
  destruct (Qleb _ 0); destruct (state c) eqn:Hst; cbn [State_eqb negb];
    first [ exists c; split; [by rewrite withHeap_same|];
            split; [by left | done]
          | eexists; split; [by apply updCar_insert|];
            split; [by right | done] ].
Qed.

(** X16.  The merge state after a drive step of a car that has moved
    before.  The car ends in the Merge state exactly when the blockage scan
    from its cell (which answers a negative code from the last column) is
    not beyond its desired merging distance, and in the Default state
    otherwise, whatever state it was in; its indicator is on exactly in the
    Merge state, and its clock is the clock reading of the tick. *)
Theorem drive_sets_state now id c lm r :
  heap r !! id = Some c -> lastMoved c = Some lm ->
  exists c', heap (drive now id r) !! id = Some c' /\
    (state c' = Merge
     <-> (inject_Z (getDistance r (laneNumber c) (lanePosX c) BlockageSpace)
          <= getDesiredMergingDistance c)%Q) /\
    (state c' = Default
     <-> (getDesiredMergingDistance c
          < inject_Z (getDistance r (laneNumber c) (lanePosX c)
                                  BlockageSpace))%Q) /\
    (indicator c' = true <-> state c' = Merge) /\
    lastMoved c' = Some now.
Proof.
  intros Hc Hlast. unfold drive. rewrite Hc, Hlast. unfold driveUpdate.
  rewrite (updCar_insert _ _ _ _ Hc).
  set (c1 := setDistance _ c).
  destruct (effectSpeed_local id (withHeap (<[id := c1]> (heap r)) r) c1)
    as (c2 & -> & H2); [apply lookup_insert_eq|].
  rewrite withHeap_insert_insert.
  destruct (effectMergeState_state id (withHeap (<[id := c2]> (heap r)) r) c2)
    as (c3 & -> & H3 & Hst3); [apply lookup_insert_eq|].
  rewrite withHeap_insert_insert.
  rewrite (updCar_insert id (setLastMoved now) _ c3)
    by apply lookup_insert_eq.
  rewrite withHeap_insert_insert.
  rewrite (updCar_insert _ _ _ (setLastMoved now c3))
    by apply lookup_insert_eq.
  rewrite withHeap_insert_insert.
  set (c5 := setIndicator _ (setLastMoved now c3)).
  set (r5 := withHeap (<[id := c5]> (heap r)) r).
  assert (Hc5 : heap r5 !! id = Some c5) by apply lookup_insert_eq.
  assert (Hc2 : laneNumber c2 = laneNumber c /\ lanePosX c2 = lanePosX c /\
                mergeTendency c2 = mergeTendency c).
  { destruct H2 as [->|[d ->]]; [done|]. unfold adjustSpeedBy.
    by repeat destruct (Qleb _ _). }
  destruct Hc2 as (Hl2 & Hx2 & Hmt2).
  rewrite Hl2, Hx2 in Hst3.
  rewrite (getDistance_Block _ r) in Hst3 by done.
  unfold getDesiredMergingDistance in Hst3 at 1. rewrite Hmt2 in Hst3.
  fold (getDesiredMergingDistance c) in Hst3.
  set (d := getDistance r (laneNumber c) (lanePosX c) BlockageSpace) in *.
  assert (Hfinal : state c5 = state c3 /\
                   indicator c5 = State_eqb (state c3) Merge /\
                   lastMoved c5 = Some now) by done.
  destruct Hfinal as (Hs5 & Hi5 & Hlm5).
  assert (Hres : exists c',
    heap (if State_eqb (state c5) Merge && canMerge c5 r5
          then merge id r5 else r5) !! id = Some c' /\
    state c' = state c3 /\ indicator c' = State_eqb (state c3) Merge /\
    lastMoved c' = Some now).
  { destruct (_ && _); [|by exists c5].
    unfold merge. rewrite Hc5.
    destruct (_ <? 0); [by exists c5|].
    destruct (isNullish _); [|by exists c5].
    destruct (setCarPos_self id c5 (laneNumber c5 - 1) (lanePosX c5) r5 Hc5)
      as (c' & Hc' & _ & _ & Hlm' & Hs' & Hi' & _).
    exists c'. split; [done|]. by rewrite Hs', Hi', Hlm'. }
  rewrite Hc5. destruct Hres as (c' & Hc' & Hs' & Hi' & Hlm').
  exists c'. split; [done|]. rewrite Hi', Hs', Hst3.
  destruct (Qleb (inject_Z d - getDesiredMergingDistance c) 0) eqn:Hq.
  - apply Qleb_le in Hq. cbn.
    repeat split; try done; try (intros _; lra). intros Hlt. lra.
  - apply Qleb_gt in Hq. cbn.
    repeat split; try done; try (intros _; lra). intros Hle. lra.
Qed.

Lemma drive_sets_state_witness :
  exists c', heap (drive 2000 0%nat roadNearBlockage) !! 0%nat = Some c' /\
    (state c' = Merge
     <-> (inject_Z (getDistance roadNearBlockage 1 36 BlockageSpace)
          <= getDesiredMergingDistance (setLastMoved 1000 (carAtPos 1 36)))%Q).
Proof.
  destruct (drive_sets_state 2000 0%nat (setLastMoved 1000 (carAtPos 1 36))
              1000 roadNearBlockage) as (c' & Hc' & Hm & _).
  - vm_compute. reflexivity.
  - reflexivity.
  - exists c'. split; [exact Hc' | exact Hm].
Defined.

(** ** Yielding and the speed of the left lane *)

Lemma left10_loop_range n r l i total count lo hi :
  (forall k ck, heap r !! k = Some ck -> (lo <= speed ck <= hi)%Q) ->
  0 <= count ->
  (lo * inject_Z count <= total <= hi * inject_Z count)%Q ->
  let res := left10_loop n r l i total count in
  count <= res.2 /\
  (lo * inject_Z res.2 <= res.1 <= hi * inject_Z res.2)%Q.
Proof.
  intros Hsp. revert i total count.
  induction n as [|n IH]; intros i total count Hcount Htotal;
    cbn [left10_loop]; [cbn; split; [lia | done]|].
  destruct (carAt r (idx l i)) as [[k ck]|] eqn:Hcar.
  - assert (Hck : (lo <= speed ck <= hi)%Q).
    { unfold carAt in Hcar. destruct (idx l i) as [[| |k']|]; try done.
      destruct (heap r !! k') as [c'|] eqn:Hk'; [|done].
      injection Hcar as <- <-. by apply (Hsp k'). }
    destruct (IH (i + 1) (total + speed ck)%Q (count + 1)) as [Hc Hr];
      [lia | rewrite inject_Z_plus; change (inject_Z 1) with 1%Q; lra |].
    cbn zeta. split; [lia | done].
  - by apply IH.
Qed.

(** X17.  The average speed of the left lane is [-1], which stands for no
    car found, or lies within any bounds that hold for the speed of every
    car object; on a road the engine can reach that is between 0 and
    [MAX_SPEED]. *)
Theorem getLeft10AverageSpeed_range c r lo hi :
  (forall k ck, heap r !! k = Some ck -> (lo <= speed ck <= hi)%Q) ->
  getLeft10AverageSpeed c r = (-1)%Q
  \/ (lo <= getLeft10AverageSpeed c r <= hi)%Q.
Proof.
  intros Hsp. unfold getLeft10AverageSpeed.
  destruct (_ <=? 0); [by left|].
  destruct (idx (roadSpace r) (laneNumber c - 1)) as [leftLane|]; [|by left].
  cbn zeta.
  pose proof (left10_loop_range
    (Z.to_nat (Z.min (len leftLane) (lanePosX c + 5)
               - Z.max 0 (lanePosX c - 5)))
    r leftLane (Z.max 0 (lanePosX c - 5)) 0%Q 0 lo hi Hsp) as Hloop.
  destruct (left10_loop _ r leftLane _ 0%Q 0) as [total count].
  cbn [fst snd] in Hloop.
  destruct Hloop as [Hcount Htotal];
    [lia | change (inject_Z 0) with 0%Q; lra |].
  destruct (Z.eqb_spec count 0) as [|Hne]; [by left|]. right.
  assert (Hpos : (0 < inject_Z count)%Q).
  { change 0%Q with (inject_Z 0). rewrite <- Zlt_Qlt. lia. }
  split.
  - apply Qle_shift_div_l; [done | lra].
  - apply Qle_shift_div_r; [done | lra].
Qed.

Lemma getLeft10AverageSpeed_range_witness :
  getLeft10AverageSpeed (carWantsFive 1 5) roadGapOfTwo = (-1)%Q
  \/ (0 <= getLeft10AverageSpeed (carWantsFive 1 5) roadGapOfTwo
      <= MAX_SPEED)%Q.
Proof.
  apply getLeft10AverageSpeed_range. intros k ck Hk.
  unfold roadGapOfTwo in Hk. cbn [heap] in Hk.
  repeat (apply lookup_insert_Some in Hk as [[<- <-]|[_ Hk]];
          [vm_compute; split; discriminate|]).
  by rewrite lookup_empty in Hk.
Defined.

Lemma letIn_loop_sound n r next i :
  letIn_loop n r next i = true ->
  exists j k ck, i <= j < i + Z.of_nat n /\ idx next j = Some (Ref k) /\
    heap r !! k = Some ck /\ indicator ck = true.
Proof.
  revert i. induction n as [|n IH]; intros i; cbn [letIn_loop]; [done|].
  destruct (carAt r (idx next i)) as [[k ck]|] eqn:Hcar.
  - destruct (indicator ck) eqn:Hind.
    + intros _. exists i, k, ck. split; [lia|].
      unfold carAt in Hcar. destruct (idx next i) as [[| |k']|]; try done.
      destruct (heap r !! k') as [c'|] eqn:Hk'; [|done].
      injection Hcar as <- <-. done.
    + intros (j & k' & ck' & Hj & ?)%IH. exists j, k', ck'.
      split; [lia | done].
  - intros (j & k' & ck' & Hj & ?)%IH. exists j, k', ck'.
    split; [lia | done].
Qed.

(** X18.  Whom a car yields to.  The scan of [shouldLetCarIn] runs from the
    column after the car's own up to the column before the first occupied
    cell beyond it, so the only cell of the right lane in which it can find
    a car is the one diagonally ahead.  A car decides to let a car in
    exactly when it has let in fewer cars than its quota and that cell,
    which is not the last cell of its lane, holds a car whose indicator is
    on. *)
Theorem shouldLetCarIn_diagonal c r :
  shouldLetCarIn c r = true
  <-> carsLetIn c < getCarQuota c r /\
      laneNumber c + 1 < len (roadSpace r) /\
      exists next k ck,
        idx (roadSpace r) (laneNumber c + 1) = Some next /\
        lanePosX c + 2 < len next /\
        idx next (lanePosX c + 1) = Some (Ref k) /\
        heap r !! k = Some ck /\ indicator ck = true.
Proof.
  unfold shouldLetCarIn.
  destruct (Z.geb_spec (carsLetIn c) (getCarQuota c r)) as [Hq|Hq].
  { split; [done|]. intros [? _]. lia. }
  destruct (Z.geb_spec (laneNumber c) (len (roadSpace r) - 1)) as [Hl|Hl].
  { split; [done|]. intros (_ & ? & _). lia. }
  destruct (idx (roadSpace r) (laneNumber c + 1)) as [next|] eqn:Hnext.
  2: { split; [done|]. by intros (_ & _ & ? & ? & ? & ? & _). }
  destruct (Z.geb_spec (lanePosX c + 1) (len next - 1)) as [Hw|Hw].
  { split; [done|]. intros (_ & _ & n' & ? & ? & [= <-] & ? & _). lia. }
  cbn zeta.
  set (d := getDistance r (laneNumber c + 1) (lanePosX c + 1) All).
  assert (Hd : d = getDistance_loop (Z.to_nat (len next - (lanePosX c + 2)))
                     r next All (lanePosX c + 2) 0).
  { subst d. unfold getDistance, getLaneData. rewrite Hnext. cbn zeta.
    destruct (Z.geb_spec (lanePosX c + 1 + 1) (len next)); [lia|].
    by replace (lanePosX c + 1 + 1) with (lanePosX c + 2) by lia. }
  assert (Hd0 : 0 <= d) by (rewrite Hd; apply getDistance_loop_nonneg; lia).
  destruct (Z.ltb_spec d 0) as [|_]; [lia|].
  split.
  - intros (j & k & ck & Hj & Hcell & Hk & Hind)%letIn_loop_sound.
    split; [lia|]. split; [lia|]. exists next, k, ck. split; [done|].
    split; [lia|]. split; [|done].
    destruct (decide (j = lanePosX c + 1)) as [->|Hne]; [done|]. exfalso.
    assert (Hrange : lanePosX c + 2 <= j <= len next /\
                     j <= lanePosX c + 1 + d) by lia.
    assert (Hnohit : scanHit r All (idx next j) = false).
    { destruct (getDistance_loop_scan
                  (Z.to_nat (len next - (lanePosX c + 2))) r next All
                  (lanePosX c + 2) 0)
        as [[_ Hnone]|(j0 & Hj0 & Hres & _ & Hnone)].
      - destruct (decide (j = len next)) as [->|];
          [|apply Hnone; lia].
        apply idx_Some in Hcell. lia.
      - apply Hnone. rewrite <- Hd in Hres. lia. }
    rewrite Hcell in Hnohit. done.
  - intros (_ & _ & next' & k & ck & [= <-] & _ & Hcell & Hk & Hind).
    set (n0 := Z.to_nat (Z.min (len next) (lanePosX c + 1 + d)
                         - (lanePosX c + 1) + 1)).
    assert (Hn : n0 = S (Nat.pred n0)) by (subst n0; lia). rewrite Hn.
    cbn [letIn_loop]. unfold carAt. by rewrite Hcell, Hk, Hind.
Qed.

Lemma shouldLetCarIn_diagonal_witness :
  shouldLetCarIn (carAtPos 0 3) roadYielding = true.
Proof.
  apply shouldLetCarIn_diagonal. split; [vm_compute; reflexivity|].
  split; [vm_compute; reflexivity|].
  exists (<[4%nat := Ref 1]> blockedLane), 1%nat,
    (setIndicator true (setState Merge (carAtPos 1 4))).
  repeat split; vm_compute; reflexivity.
Defined.

(** X19.  A car in a lane whose number is at least the blocked-lane count
    has a quota of zero or less, so with a cooperation and a cars-let-in
    counter that are not negative it never lets a car in and follows at its
    speed times its following distance. *)
Theorem shouldLetCarIn_beyond_blocked c r :
  (0 <= cooperation c)%Q -> 0 <= carsLetIn c ->
  blockedLanes r <= laneNumber c ->
  getCarQuota c r <= 0 /\ shouldLetCarIn c r = false /\
  getDesiredDistance c r = (speed c * followingDistance c)%Q.
Proof.
  intros Hcoop Hlet Hlane.
  assert (Hq : getCarQuota c r <= 0).
  { unfold getCarQuota, Qround.
    assert (Hp : (inject_Z (blockedLanes r - laneNumber c) <= 0)%Q).
    { change 0%Q with (inject_Z 0). rewrite <- Zle_Qle. lia. }
    assert (Hlt : (cooperation c * inject_Z (blockedLanes r - laneNumber c)
                   + (1 # 2) < inject_Z 1)%Q).
    { change (inject_Z 1) with 1%Q. nra. }
    pose proof (Qfloor_le (cooperation c
      * inject_Z (blockedLanes r - laneNumber c) + (1 # 2))) as Hfl.
    assert (Hz : (inject_Z (Qfloor (cooperation c
      * inject_Z (blockedLanes r - laneNumber c) + (1 # 2))) < inject_Z 1)%Q)
      by (eapply Qle_lt_trans; [exact Hfl | exact Hlt]).
    rewrite <- Zlt_Qlt in Hz. lia. }
  assert (Hno : shouldLetCarIn c r = false).
  { unfold shouldLetCarIn.
    destruct (Z.geb_spec (carsLetIn c) (getCarQuota c r)); [done | lia]. }
  split; [done|]. split; [done|]. unfold getDesiredDistance. by rewrite Hno.
Qed.

Lemma shouldLetCarIn_beyond_blocked_witness :
  getCarQuota (carWantsFive 1 5) roadGapOfTwo <= 0 /\
  shouldLetCarIn (carWantsFive 1 5) roadGapOfTwo = false /\
  getDesiredDistance (carWantsFive 1 5) roadGapOfTwo
  = (speed (carWantsFive 1 5) * followingDistance (carWantsFive 1 5))%Q.
Proof.
  apply shouldLetCarIn_beyond_blocked; [done | done | cbn; lia].
Defined.

(** ** Traits in effect *)

(** X20.  The traits of a spawned car are samples clamped to the range from
    0 to 1, and every anchor [mid] of the program is above 1, so all the
    quantities derived from them come from the first segment of the
    transform: the following distance is [0.2 + 5.6 * aggressiveness], the
    desired merging distance [50 - 50 * mergeTendency], the merge gap
    [0.8 + 1.4 * aggressiveness], each linear in the trait over the whole
    range. *)
Theorem newCar_derived_traits vm vc va lane :
  let c := newCar (randomBoundedNormal vm) (randomBoundedNormal vc)
                  (randomBoundedNormal va) lane in
  (0 <= mergeTendency c <= 1)%Q /\
  (0 <= cooperation c <= 1)%Q /\
  (0 <= aggressiveness c <= 1)%Q /\
  (followingDistance c == (2 # 10) + (56 # 10) * aggressiveness c)%Q /\
  (getDesiredMergingDistance c == 50 - 50 * mergeTendency c)%Q /\
  (getDesiredMergeGap c == (8 # 10) + (14 # 10) * aggressiveness c)%Q /\
  ((2 # 10) <= followingDistance c <= (58 # 10))%Q /\
  (0 <= getDesiredMergingDistance c <= 50)%Q /\
  ((8 # 10) <= getDesiredMergeGap c <= (22 # 10))%Q.
Proof.
  assert (Hclamp : forall v, (0 <= randomBoundedNormal v <= 1)%Q).
  { intros v. unfold randomBoundedNormal. split; [apply Q.le_max_l|].
    apply Q.max_lub; [discriminate | apply Q.le_min_l]. }
  cbn zeta. unfold getDesiredMergingDistance, getDesiredMergeGap.
  cbn [newCar mergeTendency cooperation aggressiveness followingDistance].
  pose proof (Hclamp vm) as Hm. pose proof (Hclamp vc) as Hc.
  pose proof (Hclamp va) as Ha.
  set (mt := randomBoundedNormal vm) in *.
  set (agg := randomBoundedNormal va) in *.
  assert (Hfd : (getValueFromNormalized agg FOLLOWING_DISTANCE_LOW
                   FOLLOWING_DISTANCE_MID FOLLOWING_DISTANCE_HIGH
                 == (2 # 10) + (56 # 10) * agg)%Q).
  { rewrite getValueFromNormalized_below_mid
      by (unfold FOLLOWING_DISTANCE_MID; lra).
    unfold FOLLOWING_DISTANCE_LOW, FOLLOWING_DISTANCE_MID. lra. }
  assert (Hmd : (getValueFromNormalized mt MERGE_DISTANCE_LOW
                   MERGE_DISTANCE_MID MERGE_DISTANCE_HIGH
                 == 50 - 50 * mt)%Q).
  { rewrite getValueFromNormalized_below_mid
      by (unfold MERGE_DISTANCE_MID; lra).
    unfold MERGE_DISTANCE_LOW, MERGE_DISTANCE_MID. lra. }
  assert (Hmg : (getValueFromNormalized agg MERGE_GAP_LOW MERGE_GAP_MID
                   MERGE_GAP_HIGH
                 == (8 # 10) + (14 # 10) * agg)%Q).
  { rewrite getValueFromNormalized_below_mid
      by (unfold MERGE_GAP_MID; lra).
    unfold MERGE_GAP_LOW, MERGE_GAP_MID. lra. }
  repeat split; first [done | tauto | lra].
Qed.

(** ** The following law *)

(** X21.  The speed law of a car that is not in the Merge state, is not
    yielding and is outside the rubbernecking zone.  With the scan ahead
    answering a distance, the new speed is the old speed plus the gap to the
    obstacle ahead in feet minus the speed times the following distance,
    clamped to the range from 0 to [MAX_SPEED]; nothing but the speed of
    that car changes.  From the last column, where the scan answers an
    error code, the speed is left as it is. *)
Theorem effectSpeed_following id c r :
  heap r !! id = Some c ->
  state c <> Merge -> shouldLetCarIn c r = false ->
  isInRubberneckZone c r = false ->
  let gap := (inject_Z (getActualDistance c r) * spaceSize r)%Q in
  let target := (speed c + (gap - speed c * followingDistance c))%Q in
  (getActualDistance c r < 0 -> effectSpeed id r = r) /\
  (0 <= getActualDistance c r ->
   exists v,
     effectSpeed id r = updCar id (setSpeed v) r /\
     heap (effectSpeed id r) !! id = Some (setSpeed v c) /\
     (v == Qmax 0 (Qmin MAX_SPEED target))%Q /\
     ((gap <= speed c * followingDistance c)%Q -> (v <= Qmax 0 (speed c))%Q)).
Proof.
  intros Hc Hstate Hyield Hzone. cbn zeta.
  unfold effectSpeed, speedDifference. rewrite Hc, Hzone.
  destruct (Z.ltb_spec (getActualDistance c r) 0) as [Hneg|Hpos].
  { split; [done | lia]. }
  split; [lia|]. intros _.
  assert (Hdiff : followDifference c r
                  = (inject_Z (getActualDistance c r) * spaceSize r
                     - speed c * followingDistance c)%Q).
  { unfold followDifference, getDesiredDistance. rewrite Hyield.
    by destruct (state c). }
  rewrite Hdiff.
  set (gap := (inject_Z (getActualDistance c r) * spaceSize r)%Q).
  set (d := (gap - speed c * followingDistance c)%Q).
  assert (Hupd : forall v, adjustSpeedBy d c = setSpeed v c ->
    updCar id (adjustSpeedBy d) r = updCar id (setSpeed v) r /\
    heap (updCar id (adjustSpeedBy d) r) !! id = Some (setSpeed v c)).
  { intros v Hv. rewrite (updCar_insert _ _ _ _ Hc), Hv.
    rewrite (updCar_insert _ (setSpeed v) _ _ Hc). split; [done|].
    apply lookup_insert_eq. }
  destruct (Qleb MAX_SPEED (speed c + d)) eqn:E1.
  - assert (Hv : adjustSpeedBy d c = setSpeed MAX_SPEED c)
      by (unfold adjustSpeedBy; by rewrite E1).
    apply Qleb_le in E1. exists MAX_SPEED.
    destruct (Hupd MAX_SPEED Hv) as [H1 H2].
    split; [exact H1|]. split; [exact H2|]. split.
    + rewrite Q.min_l by done. rewrite Q.max_r; [done | discriminate].
    + intros Hclose. subst d. apply Q.max_le_iff. right. lra.
  - destruct (Qleb (speed c + d) 0) eqn:E2.
    + assert (Hv : adjustSpeedBy d c = setSpeed 0%Q c)
        by (unfold adjustSpeedBy; by rewrite E1, E2).
      apply Qleb_le in E2. exists 0%Q.
      destruct (Hupd 0%Q Hv) as [H1 H2].
      split; [exact H1|]. split; [exact H2|]. split.
      * apply Qleb_gt in E1.
        rewrite Q.min_r by lra. by rewrite Q.max_l.
      * intros _. apply Q.le_max_l.
    + assert (Hv : adjustSpeedBy d c = setSpeed (speed c + d)%Q c)
        by (unfold adjustSpeedBy; by rewrite E1, E2).
      apply Qleb_gt in E1, E2. exists (speed c + d)%Q.
      destruct (Hupd (speed c + d)%Q Hv) as [H1 H2].
      split; [exact H1|]. split; [exact H2|]. split.
      * rewrite Q.min_r by lra. rewrite Q.max_r by lra. done.
      * intros Hclose. subst d. apply Q.max_le_iff. right. lra.
Qed.

Lemma effectSpeed_following_witness :
  exists v,
    effectSpeed 0%nat roadTwoInLane = updCar 0%nat (setSpeed v) roadTwoInLane /\
    (v == Qmax 0 (Qmin MAX_SPEED
                    (speed (carAtPos 0 3)
                     + (inject_Z (getActualDistance (carAtPos 0 3)
                                                    roadTwoInLane)
                        * spaceSize roadTwoInLane
                        - speed (carAtPos 0 3)
                          * followingDistance (carAtPos 0 3)))))%Q.
Proof.
  destruct (effectSpeed_following 0%nat (carAtPos 0 3) roadTwoInLane)
    as [_ Hlaw].
  - vm_compute. reflexivity.
  - discriminate.
  - vm_compute. reflexivity.
  - vm_compute. reflexivity.
  - destruct Hlaw as (v & Hupd & _ & Hv & _); [vm_compute; discriminate|].
    exists v. split; [exact Hupd | exact Hv].
Defined.

(** ** Perfect fairness *)

Lemma fold_right_Rplus_zero l :
  Forall (fun t => (0 <= t)%R) l -> fold_right Rplus 0%R l = 0%R ->
  Forall (fun t => t = 0%R) l.
Proof.
  induction 1 as [|t l Ht Hl IH]; cbn; [constructor|]. intros Hsum.
  pose proof (fold_right_Rplus_nonneg l Hl).
  constructor; [lra|]. apply IH. lra.
Qed.

Lemma fold_right_Rplus_const (a : R) l :
  Forall (fun t => t = a) l ->
  fold_right Rplus 0%R l = (INR (length l) * a)%R.
Proof.
  induction 1 as [|t l -> Hl IH]; [cbn; lra|].
  cbn [fold_right]. rewrite IH. change (length (a :: l)) with (S (length l)).
  rewrite S_INR. lra.
Qed.

Lemma meanOf_const (a : R) l :
  l <> [] -> Forall (fun t => t = a) l -> meanOf l = a.
Proof.
  intros Hne Hall. unfold meanOf. rewrite (fold_right_Rplus_const a) by done.
  assert (INR (length l) <> 0)%R.
  { apply not_0_INR. by destruct l. }
  by field.
Qed.

(** With non-negative travel times the fairness is at most 1. *)
Lemma getFairness_le_1 r :
  Forall (fun car => 0 <= travelTime car) (completedCars r) ->
  (getFairness r <= 1)%R.
Proof.
  intros Hpos. rewrite getFairness_unfold.
  destruct (_ <? 2)%nat; [lra|]. destruct (Req_EM_T _ 0) as [|Hne]; [lra|].
  assert (Hmean : (0 <= meanOf (travelTimes r))%R).
  { unfold meanOf.
    assert (Hs : (0 <= fold_right Rplus 0 (travelTimes r))%R).
    { apply fold_right_Rplus_nonneg. unfold travelTimes.
      induction Hpos; cbn; constructor; [by apply IZR_le | done]. }
    destruct (length (travelTimes r)) as [|n] eqn:En.
    - cbn. unfold Rdiv. rewrite Rinv_0. lra.
    - apply Rle_mult_inv_pos; [done|]. apply lt_0_INR. lia. }
  assert (0 <= popStdDev (travelTimes r))%R by apply sqrt_pos.
  assert (0 <= popStdDev (travelTimes r) / meanOf (travelTimes r))%R.
  { apply Rle_mult_inv_pos; [done | lra]. }
  unfold Rdiv at 1. rewrite Rmult_1_l, <- Rinv_1.
  apply Rinv_le_contravar; lra.
Qed.

(** X22.  Perfect fairness.  On completion records with non-negative
    travel times, the fairness score is 1 exactly when all the travel times
    on record are equal; any two different travel times bring it below 1. *)
Theorem getFairness_perfect r :
  Forall (fun car => 0 <= travelTime car) (completedCars r) ->
  (getFairness r = 1%R
   <-> forall rec1 rec2, rec1 ∈ completedCars r -> rec2 ∈ completedCars r ->
         travelTime rec1 = travelTime rec2) /\
  ((exists rec1 rec2,
      rec1 ∈ completedCars r /\ rec2 ∈ completedCars r /\
      travelTime rec1 <> travelTime rec2) ->
   (getFairness r < 1)%R).
Proof.
  intros Hpos.
  assert (Hiff : getFairness r = 1%R
    <-> forall rec1 rec2,
          rec1 ∈ completedCars r -> rec2 ∈ completedCars r ->
          travelTime rec1 = travelTime rec2).
  { rewrite getFairness_unfold.
    set (l := travelTimes r).
    assert (Hl : Forall (fun t => (0 <= t)%R) l).
    { subst l. unfold travelTimes.
      induction Hpos; cbn; constructor; [by apply IZR_le | done]. }
    assert (Hlen : length l = length (completedCars r))
      by (subst l; unfold travelTimes; apply length_map).
    assert (Hequal : (exists a, Forall (fun t => t = a) l)
      <-> forall rec1 rec2,
            rec1 ∈ completedCars r -> rec2 ∈ completedCars r ->
            travelTime rec1 = travelTime rec2).
    { subst l. unfold travelTimes. split.
      - intros [a Ha] rec1 rec2 H1 H2. rewrite Forall_forall in Ha.
        apply eq_IZR. transitivity a; [|symmetry]; apply Ha;
          apply list_elem_of_fmap; eauto.
      - intros Heq. destruct (completedCars r) as [|rec0 recs] eqn:Hrecs.
        + exists 0%R. constructor.
        + exists (IZR (travelTime rec0)). apply Forall_forall.
          intros t (rec & -> & Hrec)%list_elem_of_fmap. f_equal.
          apply Heq; [done | left]. }
    rewrite <- Hequal. clear Hequal. rewrite <- Hlen.
    destruct (Nat.ltb_spec (length l) 2) as [Hshort|Hlong].
    { split; [|done]. intros _. destruct l as [|a [|b l]]; cbn in Hshort.
      - exists 0%R. constructor.
      - exists a. by repeat constructor.
      - lia. }
    assert (Hne : l <> []) by (intros ->; cbn in Hlong; lia).
    assert (Hn : (0 < INR (length l))%R) by (apply lt_0_INR; lia).
    destruct (Req_EM_T (meanOf l) 0) as [Hzero|Hmean].
    { split; [|done]. intros _. exists 0%R.
      apply fold_right_Rplus_zero; [done|].
      unfold meanOf in Hzero.
      replace (fold_right Rplus 0%R l)
        with (fold_right Rplus 0 l / INR (length l) * INR (length l))%R
        by (field; lra).
      rewrite Hzero. lra. }
    set (sq := map (fun t => ((t - meanOf l) * (t - meanOf l))%R) l).
    assert (Hsq : Forall (fun t => (0 <= t)%R) sq).
    { subst sq. apply Forall_forall.
      intros t (t0 & -> & _)%list_elem_of_fmap.
      apply (Rle_0_sqr (t0 - meanOf l)). }
    assert (Hvar : (0 <= fold_right Rplus 0 sq / INR (length l))%R).
    { apply Rle_mult_inv_pos; [by apply fold_right_Rplus_nonneg | done]. }
    unfold popStdDev. fold sq.
    split.
    - intros Hone. exists (meanOf l).
      assert (Hsd : (sqrt (fold_right Rplus 0 sq / INR (length l)) = 0)%R).
      { set (sd := sqrt _) in *.
        assert (Hsd0 : (0 <= sd)%R) by apply sqrt_pos.
        assert (Hden : (1 + sd / meanOf l <> 0)%R).
        { intros H0. rewrite H0 in Hone. unfold Rdiv in Hone.
          rewrite Rinv_0 in Hone. lra. }
        assert (Hcv : (sd / meanOf l = 0)%R).
        { apply (Rmult_eq_compat_r (1 + sd / meanOf l)) in Hone.
          unfold Rdiv at 1 in Hone.
          rewrite Rmult_1_l, Rinv_l in Hone by done. lra. }
        apply (Rmult_eq_compat_r (meanOf l)) in Hcv.
        unfold Rdiv in Hcv. rewrite Rmult_assoc, Rinv_l in Hcv by done. lra. }
      apply sqrt_eq_0 in Hsd; [|done].
      assert (Hsum : fold_right Rplus 0%R sq = 0%R).
      { replace (fold_right Rplus 0%R sq)
          with (fold_right Rplus 0 sq / INR (length l) * INR (length l))%R
          by (field; lra).
        rewrite Hsd. lra. }
      pose proof (fold_right_Rplus_zero sq Hsq Hsum) as Hall.
      subst sq. rewrite Forall_forall in Hall. apply Forall_forall.
      intros t Ht.
      assert (H0 : ((t - meanOf l) * (t - meanOf l) = 0)%R).
      { apply Hall. apply list_elem_of_fmap. eauto. }
      apply Rmult_integral in H0. lra.
    - intros [a Ha]. pose proof (meanOf_const a l Hne Ha) as Hm.
      assert (Hsum : fold_right Rplus 0%R sq = 0%R).
      { subst sq. rewrite (fold_right_Rplus_const 0%R); [lra|].
        apply Forall_forall. intros t (t0 & -> & Ht0)%list_elem_of_fmap.
        rewrite Forall_forall in Ha. rewrite (Ha t0 Ht0), Hm. ring. }
      rewrite Hsum.
      replace (0 / INR (length l))%R with 0%R by (field; lra).
      rewrite sqrt_0.
      replace (0 / meanOf l)%R with 0%R by (by field).
      rewrite Rplus_0_r. lra. }
  split; [exact Hiff|]. intros (rec1 & rec2 & H1 & H2 & Hne).
  pose proof (getFairness_le_1 r Hpos) as Hle.
  assert (Hne1 : getFairness r <> 1%R).
  { intros Hone. apply Hne. by apply (proj1 Hiff Hone). }
  lra.
Qed.

Lemma getFairness_perfect_witness :
  (getFairness roadThreeCompleted < 1)%R.
Proof.
  destruct (getFairness_perfect roadThreeCompleted) as [_ Hbelow].
  - repeat constructor; discriminate.
  - apply Hbelow.
    exists (mkCompleted 0 4000 20000), (mkCompleted 1 6000 21000).
    split; [apply elem_of_cons; by left|].
    split; [apply elem_of_cons; right; apply elem_of_cons; by left|].
    discriminate.
Defined.

(** ** The blockage stays, and no car is in it *)

Lemma sameBlocks_refl r : sameBlocks r r.
Proof. by intros lane x. Qed.

Lemma sameBlocks_trans r1 r2 r3 :
  sameBlocks r1 r2 -> sameBlocks r2 r3 -> sameBlocks r1 r3.
Proof.
  intros H12 H23 lane x. etransitivity; [apply H23 | apply H12].
Qed.

Lemma sameBlocks_grid r r' : roadSpace r' = roadSpace r -> sameBlocks r r'.
Proof. intros E lane x. by rewrite E. Qed.

Lemma cellAt_setCell_None rs lane x v :
  cellAt rs lane x = None -> cellAt (setCell rs lane x v) lane x = None.
Proof.
  unfold cellAt, setCell. destruct (idx rs lane) as [l|] eqn:Hl.
  - intros Hx. rewrite idx_setIdx_eq by (eapply idx_Some; eauto).
    apply idx_None. rewrite len_setIdx. by apply idx_None.
  - by rewrite Hl.
Qed.

(** A write over a cell that is not the blockage, of a value that is not
    the blockage, leaves the blockage as it is. *)
Lemma cellAt_setCell_Block rs lane x v lane' x' :
  v <> Block -> cellAt rs lane x <> Some Block ->
  cellAt (setCell rs lane x v) lane' x' = Some Block
  <-> cellAt rs lane' x' = Some Block.
Proof.
  intros Hv Hold.
  destruct (decide ((lane, x) = (lane', x'))) as [[= <- <-]|Hne].
  - destruct (cellAt rs lane x) as [cell|] eqn:Hcell.
    + rewrite cellAt_setCell_eq by (by rewrite Hcell).
      split; [by intros [= ?] | done].
    + by rewrite cellAt_setCell_None.
  - by rewrite cellAt_setCell_ne.
Qed.

Lemma sameBlocks_setCarPos id c lane x r :
  heap r !! id = Some c ->
  cellAt (roadSpace r) (laneNumber c) (lanePosX c) <> Some Block ->
  sameBlocks r (setCarPos id lane x r).2.
Proof.
  intros Hc Hown.
  destruct (setCarPos_grid id c lane x r Hc) as [[-> _]|[_ Hres]];
    [apply sameBlocks_refl|].
  destruct Hres as [(_ & _ & Hrs)|(Hfree & _ & Hrs)]; intros lane' x';
    rewrite Hrs.
  - by apply cellAt_setCell_Block.
  - rewrite cellAt_setCell_Block; [by apply cellAt_setCell_Block | done |].
    intros Hb. by rewrite Hb in Hfree.
Qed.

Lemma sameBlocks_merge t id r :
  WellFormed t r -> id ∈ cars r -> sameBlocks r (merge id r).
Proof.
  intros Hwf Hin. unfold merge.
  destruct (wf_car _ _ Hwf id Hin) as (c & Hc & Hcell). rewrite Hc.
  destruct (_ <? 0); [apply sameBlocks_refl|].
  destruct (isNullish _); [|apply sameBlocks_refl].
  apply (sameBlocks_setCarPos id c); [done|]. by rewrite Hcell.
Qed.

Lemma sameBlocks_drive t id r :
  WellFormed t r -> id ∈ cars r -> sameBlocks r (drive t id r).
Proof.
  intros Hwf Hin. unfold drive.
  destruct (wf_car _ _ Hwf id Hin) as (c & Hc & Hcell). rewrite Hc.
  destruct (lastMoved c) as [lm|]; [|by apply sameBlocks_grid].
  destruct (driveUpdate_spec t id lm r c Hc) as (c5 & -> & Hl5 & Hx5 & _).
  cbn [heap withHeap]. rewrite lookup_insert_eq.
  destruct (_ && _); [|by apply sameBlocks_grid].
  set (r5 := withHeap (<[id := c5]> (heap r)) r).
  assert (Hc5 : heap r5 !! id = Some c5) by apply lookup_insert_eq.
  unfold merge. rewrite Hc5.
  destruct (_ <? 0); [by apply sameBlocks_grid|].
  destruct (isNullish _); [|by apply sameBlocks_grid].
  apply (sameBlocks_trans _ r5); [by apply sameBlocks_grid|].
  apply (sameBlocks_setCarPos id c5); [done|].
  cbn [roadSpace r5 withHeap]. by rewrite Hl5, Hx5, Hcell.
Qed.

Lemma sameBlocks_driveCar t id r tr :
  WellFormed t r -> id ∈ cars r -> sameBlocks r (driveCar t id (r, tr)).1.
Proof.
  intros Hwf Hin.
  pose proof (sameBlocks_drive t id r Hwf Hin) as H1.
  destruct (drive_WellFormed t id r Hwf Hin) as (Hwf1 & Hcars1 & _).
  assert (Hin1 : id ∈ cars (drive t id r)) by (by rewrite Hcars1).
  destruct (wf_car _ _ Hwf1 id Hin1) as (c1 & Hc1 & Hcell1).
  destruct (wf_car _ _ Hwf id Hin) as (c & Hc & _).
  unfold driveCar. rewrite Hc, Hc1.
  destruct (negb _); [|done]. destruct (negb _); [|done].
  pose proof (sameBlocks_setCarPos id c1 (laneNumber c1)
                (safeLaneX c1 (drive t id r)) (drive t id r) Hc1) as H2.
  destruct (setCarPos id _ _ _) as [result r2]. cbn [fst snd] in *.
  assert (sameBlocks r r2).
  { eapply sameBlocks_trans; [exact H1|]. apply H2. by rewrite Hcell1. }
  by destruct result as [[| |[]]|].
Qed.

Lemma sameBlocks_driveAll t r :
  WellFormed t r -> sameBlocks r (driveAll t r).1.
Proof.
  intros Hwf. unfold driveAll.
  assert (Hsub : forall id,
    id ∈ sortBy (carOrder r) (cars r) -> id ∈ cars r)
    by (intros id; by rewrite sortBy_Permutation).
  revert Hsub. generalize (sortBy (carOrder r) (cars r)).
  generalize (@nil Z). intros tr ids. revert r tr Hwf.
  induction ids as [|id ids IH]; intros r tr Hwf Hsub; cbn [foldl];
    [apply sameBlocks_refl|].
  assert (Hin : id ∈ cars r) by (apply Hsub; left).
  pose proof (sameBlocks_driveCar t id r tr Hwf Hin) as H1.
  assert (Hstep : WellFormed t (driveCar t id (r, tr)).1
                  /\ cars (driveCar t id (r, tr)).1 = cars r).
  { destruct (driveCar_outcome t id r tr Hwf Hin) as (c1 & _ & _ & _ & Hout).
    destruct (drive_WellFormed t id r Hwf Hin) as (Hwf1 & Hcars1 & _).
    destruct (exitsGrid c1 (drive t id r)).
    - by rewrite Hout.
    - destruct Hout as (r2 & c2 & -> & Hwf2 & Hcars2 & _). done. }
  destruct Hstep as [Hwf' Hcars'].
  destruct (driveCar t id (r, tr)) as [r' tr']. cbn [fst] in *.
  eapply sameBlocks_trans; [exact H1|]. apply IH; [done|].
  intros k Hk. rewrite Hcars'. apply Hsub. by right.
Qed.

Lemma sameBlocks_removeCar t now r i :
  WellFormed t r -> sameBlocks r (removeCar now r i).
Proof.
  intros Hwf. unfold removeCar.
  destruct (idx (cars r) i) as [id|] eqn:Hid; [|by apply sameBlocks_grid].
  assert (Hin : id ∈ cars r).
  { unfold idx in Hid. destruct (_ <? 0) in Hid; [done|].
    by eapply list_elem_of_lookup_2. }
  destruct (wf_car _ _ Hwf id Hin) as (c & Hc & Hcell). rewrite Hc.
  assert (H1 : forall lane x,
    cellAt (setCell (roadSpace r) (laneNumber c) (lanePosX c) Null) lane x
    = Some Block <-> cellAt (roadSpace r) lane x = Some Block).
  { intros lane x. apply cellAt_setCell_Block; [done|]. by rewrite Hcell. }
  destruct (startTime c); [destruct (truthy _)|]; intros lane x; cbn;
    apply H1.
Qed.

Lemma sameBlocks_driveCars t r :
  WellFormed t r -> sameBlocks r (driveCars t r).
Proof.
  intros Hwf. unfold driveCars.
  pose proof (sameBlocks_driveAll t r Hwf) as H1.
  destruct (driveAll_WellFormed t r Hwf) as (Hwf1 & _ & _ & Hidx).
  destruct (driveAll t r) as [r1 tr]. cbn [fst snd] in *.
  eapply sameBlocks_trans; [exact H1|].
  assert (Hpos : Forall (fun i => 0 <= i) (sortBy (fun a b => b - a) tr)).
  { apply Forall_forall. intros i Hi. rewrite sortBy_Permutation in Hi.
    destruct (Hidx i Hi) as (id & Hin & ->).
    apply (indexOf_spec _ _ Hin). }
  clear H1 Hidx. revert r1 Hwf1 Hpos.
  induction (sortBy (fun a b => b - a) tr) as [|i rest IH];
    intros r1 Hwf1 Hpos; cbn [foldl]; [apply sameBlocks_refl|].
  apply Forall_cons in Hpos as [Hi Hpos].
  eapply sameBlocks_trans; [by apply (sameBlocks_removeCar t)|].
  apply IH; [|done]. by apply removeCar_WellFormed.
Qed.

Lemma sameBlocks_generateRandomCar mt coop agg u1 u2 now id r :
  sameBlocks r (generateRandomCar mt coop agg u1 u2 now id r).
Proof.
  unfold generateRandomCar.
  destruct (getRandomLane u1 r) as [laneN|]; [|apply sameBlocks_refl].
  destruct (laneN >=? 0); [|apply sameBlocks_refl].
  unfold addCar. cbn [heap withHeap]. rewrite lookup_insert_eq.
  change (getRandomLane u2 (withHeap _ r)) with (getRandomLane u2 r).
  destruct (getRandomLane u2 r) as [lane|] eqn:Hrand;
    [|by apply sameBlocks_grid].
  destruct (Z.ltb_spec lane 0) as [|Hlane]; [by apply sameBlocks_grid|].
  destruct (getRandomLane_open u2 r lane Hrand Hlane) as (target & Ht & Hopen).
  cbn [roadSpace withHeap]. rewrite Ht.
  intros lane' x'. cbn [roadSpace updCar withHeap withCars withRoadSpace].
  replace (setIdx (roadSpace r) lane (setIdx target 0 (Ref id)))
    with (setCell (roadSpace r) lane 0 (Ref id))
    by (unfold setCell; by rewrite Ht).
  apply cellAt_setCell_Block; [done|]. unfold cellAt. rewrite Ht.
  intros Hb. by rewrite Hb in Hopen.
Qed.

Lemma len_nil_iff {A} (l : list A) : l = [] <-> len l = 0.
Proof. unfold len. destruct l; cbn; split; try done; lia. Qed.

(** X23.  The blockage is permanent and no car is ever in it.  On every
    road the engine can reach, the road has no lane at all or has at least
    two lanes, not all of them blocked; a cell of the grid holds the
    blockage exactly when it lies in one of the blocked rightmost lanes at
    column [BLOCK_START] or beyond, as on the day the road was constructed;
    and no car of the car list is recorded in such a cell. *)
Theorem Reachable_blockage t r :
  Reachable t r ->
  (roadSpace r = []
   \/ (2 <= len (roadSpace r) /\ blockedLanes r < len (roadSpace r))) /\
  (forall lane x,
     0 <= lane < len (roadSpace r) -> 0 <= x < ROAD_WIDTH ->
     cellAt (roadSpace r) lane x = Some Block
     <-> len (roadSpace r) - blockedLanes r <= lane /\ BLOCK_START <= x) /\
  (forall id c, id ∈ cars r -> heap r !! id = Some c ->
     ~ (len (roadSpace r) - blockedLanes r <= laneNumber c
        /\ BLOCK_START <= lanePosX c)).
Proof.
  intros Hreach.
  assert (Hinv :
    (roadSpace r = []
     \/ (2 <= len (roadSpace r) /\ blockedLanes r < len (roadSpace r))) /\
    (forall lane x,
       0 <= lane < len (roadSpace r) -> 0 <= x < ROAD_WIDTH ->
       cellAt (roadSpace r) lane x = Some Block
       <-> len (roadSpace r) - blockedLanes r <= lane /\ BLOCK_START <= x)).
  { assert (Hstep : forall r0 r' : Road,
      blockedLanes r' = blockedLanes r0 ->
      len (roadSpace r') = len (roadSpace r0) ->
      sameBlocks r0 r' ->
      (roadSpace r0 = []
       \/ (2 <= len (roadSpace r0)
           /\ blockedLanes r0 < len (roadSpace r0))) /\
      (forall lane x,
         0 <= lane < len (roadSpace r0) -> 0 <= x < ROAD_WIDTH ->
         cellAt (roadSpace r0) lane x = Some Block
         <-> len (roadSpace r0) - blockedLanes r0 <= lane
             /\ BLOCK_START <= x) ->
      (roadSpace r' = []
       \/ (2 <= len (roadSpace r')
           /\ blockedLanes r' < len (roadSpace r'))) /\
      (forall lane x,
         0 <= lane < len (roadSpace r') -> 0 <= x < ROAD_WIDTH ->
         cellAt (roadSpace r') lane x = Some Block
         <-> len (roadSpace r') - blockedLanes r' <= lane
             /\ BLOCK_START <= x)).
    { intros r0 r' Hb Hl Hsame [Hconf Hcells]. rewrite Hb, Hl. split.
      - destruct Hconf as [Hnil|Hconf]; [left | by right].
        apply len_nil_iff. rewrite Hl. by apply len_nil_iff.
      - intros lane x Hlane Hx. rewrite (Hsame lane x). by apply Hcells. }
    induction Hreach as [lanes blocked size t Hsize
                        | t t' r mt coop agg u1 u2 id Hreach IH Hle Hfresh
                        | t t' r Hreach IH Hle
                        | t r id Hreach IH Hin
                        | t t' r Hreach IH Hle].
    - destruct (newRoad_config lanes blocked size)
        as [(Hl & Hb & Hlen & Hblk & _)|[_ ->]].
      + destruct (newRoad_cells lanes blocked size Hl Hb)
          as (_ & _ & Hcells).
        rewrite Hlen, Hblk. split; [right; done|].
        intros lane x Hlane Hx. rewrite Hcells by done.
        destruct (Z.leb_spec (lanes - blocked) lane);
          destruct (Z.leb_spec BLOCK_START x); cbn [andb];
          split; intros ?; first [done | lia].
      + split; [by left|]. cbn. unfold len. cbn. lia.
    - destruct (generateRandomCar_config mt coop agg u1 u2 t' id r)
        as (Hb & _ & Hl).
      apply (Hstep r); try done. apply sameBlocks_generateRandomCar.
    - destruct (driveCars_config t' r) as (Hb & _ & Hl).
      apply (Hstep r); try done. apply sameBlocks_driveCars.
      apply (WellFormed_mono t); [by apply Reachable_WellFormed | done].
    - destruct (sameBooks_merge id r) as (_ & _ & _ & Hb & _ & Hl).
      apply (Hstep r); try done.
      apply (sameBlocks_merge t); [by apply Reachable_WellFormed | done].
    - apply (Hstep r); try done. }
  destruct Hinv as [Hconf Hcells]. split; [done|]. split; [done|].
  intros id c Hin Hc Hregion.
  pose proof (Reachable_WellFormed t r Hreach) as Hwf.
  destruct (wf_car _ _ Hwf id Hin) as (c' & Hc' & Hcell).
  assert (c' = c) as -> by congruence.
  destruct (WellFormed_OnRoad t r id c Hwf Hin Hc) as [Hlane Hx].
  apply (Hcells _ _ Hlane Hx) in Hregion. congruence.
Qed.

Lemma Reachable_blockage_witness :
  ~ (len (roadSpace roadOneCar) - blockedLanes roadOneCar
     <= laneNumber (setLastMoved 1000 (carAtPos 0 0))
     /\ BLOCK_START <= lanePosX (setLastMoved 1000 (carAtPos 0 0))).
Proof.
  destruct (Reachable_blockage 1000 roadOneCar) as (_ & _ & Hcars).
  - unfold roadOneCar. apply (reach_tick 1000); [|lia].
    apply (reach_spawn 0); [|lia|reflexivity].
    apply reach_new. reflexivity.
  - apply (Hcars 0%nat
             (setLastMoved 1000
                (setStart 1000 0 (newCar (9 # 10) 1 (1 # 2) 0)))).
    + assert (Hlist : cars roadOneCar = [0%nat]) by (vm_compute; reflexivity).
      rewrite Hlist. apply elem_of_cons. by left.
    + vm_compute. reflexivity.
Defined.

(** ** The failed commit *)

(** The commit [merge] makes, onto a cell it has just tested empty: it
    succeeds, or the bounds guard rejects it and nothing is written. *)
Lemma setCarPos_of_merge id c r :
  heap r !! id = Some c ->
  isNullish (cellAt (roadSpace r) (laneNumber c - 1) (lanePosX c)) = true ->
  (setCarPos id (laneNumber c - 1) (lanePosX c) r).1 = Some 0
  \/ setCarPos id (laneNumber c - 1) (lanePosX c) r = (Some (-1), r).
Proof.
  intros Hc Hempty.
  destruct (setCarPos_grid id c (laneNumber c - 1) (lanePosX c) r Hc)
    as [[Hout _]|[_ Hres]]; [by right|]. left.
  rewrite cellAt_setCell_ne in Hres by (intros [= ?]; lia).
  rewrite Hempty in Hres. by destruct Hres as [(? & _)|(_ & ? & _)].
Qed.

(** The commit [driveCar] makes at a car's turn in a tick on a reachable
    road: it succeeds, or the bounds guard rejects it and nothing is
    written. *)
Lemma setCarPos_of_driveCar t0 t r id :
  Reachable t0 r -> t0 <= t -> id ∈ cars r ->
  let st := turnState t r id in
  let r1 := drive t id st.1 in
  exists c1,
    heap r1 !! id = Some c1 /\
    cellAt (roadSpace r1) (laneNumber c1) (lanePosX c1) = Some (Ref id) /\
    (desiredLaneX c1 r1 <> lanePosX c1 -> safeLaneX c1 r1 <> lanePosX c1 ->
     (setCarPos id (laneNumber c1) (safeLaneX c1 r1) r1).1 = Some 0
     \/ (ROAD_WIDTH <= safeLaneX c1 r1 /\
         setCarPos id (laneNumber c1) (safeLaneX c1 r1) r1
         = (Some (-1), r1))).
Proof.
  intros Hreach Hle Hin st r1.
  assert (Hwf : WellFormed t r).
  { apply (WellFormed_mono t0); [by apply Reachable_WellFormed | done]. }
  pose proof (sortBy_Permutation (carOrder r) (cars r)) as Hperm.
  assert (Hins : id ∈ sortBy (carOrder r) (cars r)) by (by rewrite Hperm).
  destruct (before_split id _ Hins) as (post & Hsplit & Hpre).
  destruct (driveCar_fold_marks t r
              (before id (sortBy (carOrder r) (cars r))) r [])
    as (Hwfst & Hcarsst & _ & _); [done | done | |].
  { intros k Hk. rewrite <- Hperm, Hsplit. apply elem_of_app. by left. }
  fold (turnState t r id) in Hwfst, Hcarsst. fold st in Hwfst, Hcarsst.
  assert (Hinst : id ∈ cars st.1) by (by rewrite Hcarsst).
  destruct (driveCar_outcome t id st.1 st.2 Hwfst Hinst)
    as (c1 & Hc1 & Hon & Hx1 & Hout).
  destruct (drive_WellFormed t id st.1 Hwfst Hinst) as (Hwf1 & Hcars1 & _).
  fold r1 in Hc1, Hon, Hx1, Hout, Hwf1, Hcars1.
  assert (Hin1 : id ∈ cars r1) by (by rewrite Hcars1).
  destruct (wf_car _ _ Hwf1 id Hin1) as (c1' & Hc1' & Hcell).
  assert (c1' = c1) as -> by congruence.
  destruct (wf_car _ _ Hwfst id Hinst) as (c & Hc & _).
  exists c1. split; [done|]. split; [done|]. intros Hdes Hsafe.
  destruct (exitsGrid c1 r1) eqn:Hexit.
  - right. destruct Hon as [Hlane HxR].
    destruct (idx_is_Some (roadSpace r1) (laneNumber c1) Hlane) as [l Hl].
    pose proof (RoadShape_idx _ _ _ (wf_shape _ _ Hwf1) Hl) as Hlen.
    pose proof (safeLaneX_exits c1 r1 l Hl Hlen HxR Hexit) as Hpast.
    split; [done|]. apply (setCarPos_out_of_bounds id c1); [done|]. by right.
  - left. destruct Hout as (r2 & c2 & Hdc & _).
    destruct (setCarPos_self id c1 (laneNumber c1) (safeLaneX c1 r1) r1 Hc1)
      as (c' & _ & _ & _ & _ & _ & _ & [(Hrej & _)|(Hok & _)]); [|done].
    exfalso.
    pose proof (driveCar_rejected_marked t id st.1 st.2 c c1 Hc Hc1 Hdes
                  Hsafe Hrej) as Hmark.
    rewrite Hdc in Hmark. cbn [snd] in Hmark.
    apply (f_equal length) in Hmark. rewrite length_app in Hmark.
    cbn in Hmark. lia.
Qed.

(** C1, as amended.  A commit onto an occupied cell other than the car's
    own signals failure to the caller, and a failed commit leaves the car's
    record and every cell other than the car's current cell as they were.
    A commit that the bounds guard rejects writes nothing at all.  The
    commits the engine makes are of that kind or succeed: [merge] commits
    onto a cell it has just tested empty, and [driveCar], at a car's turn in
    a tick on a reachable road, commits onto a column within the free run
    ahead; so a commit that fails within the engine leaves the road as it
    was, the car's current cell still holding the car. *)
Theorem setCarPos_failed_commit t0 t r id c lane x :
  heap r !! id = Some c ->
  (* onto an occupied cell: failure *)
  (RoadShape r -> OnRoad c r ->
   0 <= lane < len (roadSpace r) -> 0 <= x < ROAD_WIDTH ->
   (lane, x) <> (laneNumber c, lanePosX c) ->
   cellAt (roadSpace r) lane x <> Some Null ->
   (setCarPos id lane x r).1 = Some (-1)) /\
  (* what every failed commit keeps *)
  ((setCarPos id lane x r).1 = Some (-1) ->
   (exists c', heap (setCarPos id lane x r).2 !! id = Some c' /\
      laneNumber c' = laneNumber c /\ lanePosX c' = lanePosX c) /\
   forall lane' x', (lane', x') <> (laneNumber c, lanePosX c) ->
     cellAt (roadSpace (setCarPos id lane x r).2) lane' x'
     = cellAt (roadSpace r) lane' x') /\
  (* the bounds guard *)
  (len (roadSpace r) <= lane \/ ROAD_WIDTH <= x ->
   setCarPos id lane x r = (Some (-1), r)) /\
  (* the commit of merge *)
  (isNullish (cellAt (roadSpace r) (laneNumber c - 1) (lanePosX c)) = true ->
   (setCarPos id (laneNumber c - 1) (lanePosX c) r).1 = Some 0
   \/ setCarPos id (laneNumber c - 1) (lanePosX c) r = (Some (-1), r)) /\
  (* the commit of driveCar *)
  (Reachable t0 r -> t0 <= t -> id ∈ cars r ->
   let st := turnState t r id in
   let r1 := drive t id st.1 in
   exists c1,
     heap r1 !! id = Some c1 /\
     cellAt (roadSpace r1) (laneNumber c1) (lanePosX c1) = Some (Ref id) /\
     (desiredLaneX c1 r1 <> lanePosX c1 -> safeLaneX c1 r1 <> lanePosX c1 ->
      (setCarPos id (laneNumber c1) (safeLaneX c1 r1) r1).1 = Some 0
      \/ (ROAD_WIDTH <= safeLaneX c1 r1 /\
          setCarPos id (laneNumber c1) (safeLaneX c1 r1) r1
          = (Some (-1), r1)))).
Proof.
  intros Hc. split; [|split; [|split; [|split]]].
  - intros Hshape [Hcl Hcx] Hlane Hx Hne Hocc.
    destruct (cellAt_in_range r lane x Hshape Hlane Hx) as [v Hv].
    apply (setCarPos_occupied id c lane x r v); try done; try lia.
    + by apply cellAt_in_range.
    + intros ->. by rewrite Hv in Hocc.
  - intros Hrej.
    destruct (setCarPos_self id c lane x r Hc)
      as (c' & Hc' & _ & _ & _ & _ & _ & Hplace).
    split.
    + exists c'. split; [done|].
      destruct Hplace as [(_ & ? & ?)|(Hok & _)]; [done | congruence].
    + intros lane' x' Hne.
      destruct (setCarPos_grid id c lane x r Hc) as [[-> _]|[_ Hres]];
        [done|].
      destruct Hres as [(_ & _ & ->)|(_ & Hok & _)]; [|congruence].
      apply cellAt_setCell_ne. congruence.
  - intros Hout. by apply (setCarPos_out_of_bounds id c).
  - by apply setCarPos_of_merge.
  - apply setCarPos_of_driveCar.
Qed.

(** The car of [roadOneCar], driven a long time later, asks for a column
    past the grid: the commit is rejected by the bounds guard and the road
    is as the drive step left it. *)
Lemma setCarPos_failed_commit_witness :
  exists c1,
    heap (drive 2000000 0%nat roadOneCar) !! 0%nat = Some c1 /\
    cellAt (roadSpace (drive 2000000 0%nat roadOneCar))
           (laneNumber c1) (lanePosX c1) = Some (Ref 0%nat) /\
    setCarPos 0%nat (laneNumber c1)
              (safeLaneX c1 (drive 2000000 0%nat roadOneCar))
              (drive 2000000 0%nat roadOneCar)
    = (Some (-1), drive 2000000 0%nat roadOneCar).
Proof.
  destruct (setCarPos_failed_commit 1000 2000000 roadOneCar 0%nat
              (setLastMoved 1000
                 (setStart 1000 0 (newCar (9 # 10) 1 (1 # 2) 0))) 0 50)
    as (_ & _ & _ & _ & Htick).
  - vm_compute. reflexivity.
  - destruct Htick as (c1 & Hc1 & Hcell & Hcall).
    + unfold roadOneCar. apply (reach_tick 1000); [|lia].
      apply (reach_spawn 0); [|lia|reflexivity].
      apply reach_new. reflexivity.
    + lia.
    + assert (Hlist : cars roadOneCar = [0%nat]) by (vm_compute; reflexivity).
      rewrite Hlist. apply elem_of_cons. by left.
    + assert (Hst : turnState 2000000 roadOneCar 0%nat = (roadOneCar, []))
        by (vm_compute; reflexivity).
      rewrite Hst in Hc1, Hcell, Hcall. cbn [fst] in Hc1, Hcell, Hcall.
      exists c1. split; [exact Hc1|]. split; [exact Hcell|].
      assert (Hc1v : heap (drive 2000000 0%nat roadOneCar) !! 0%nat
                     = Some c1) by exact Hc1.
      vm_compute in Hc1v. injection Hc1v as <-.
      destruct Hcall as [Hok|[_ Hrej]].
      * vm_compute. discriminate.
      * vm_compute. discriminate.
      * vm_compute in Hok. discriminate Hok.
      * exact Hrej.
Defined.
